(** * Aadhaar enrolment analytics: the core pipeline and its specification

    A shallow embedding of the data pipeline (schema detection, cleaning,
    monthly aggregation) and of the ML post-processing (confidence buckets,
    risk scoring) of the repository, followed by the properties the
    specification states about them.

    Numbers.  pandas and numpy compute on IEEE doubles.  The embedding
    computes on exact rationals [Q] and keeps the three special values a
    double can take (NaN and the two infinities) as constructors of
    [fnum]; rounding is not modelled.  Square roots are taken by a
    function [sqrt : Q -> Q] that the definitions receive as an argument,
    as numpy's square root is a rational-valued approximation too.

    What is stated of these numbers is what rounding keeps: the formulas
    the code evaluates, orders and thresholds.  Sums are said to be exact
    only of whole-number counts below 2^53, and a deviation is tested
    against 0 as the value the library returns.  Where the outcome turns on
    rounding, in the guard of [_calculate_confidence], the function is also
    taken on binary64 numbers ([Doubles]). *)

From Stdlib Require Import String Ascii QArith Qminmax ZArith Bool Lia Lqa List.
From Stdlib Require Import OrderedTypeEx Sorted.
From Stdlib Require Import Permutation.
From Stdlib Require DecimalString.
From Stdlib Require PrimFloat.
Import ListNotations.

(* ===================================================================== *)
(** * Part I: the model                                                   *)
(* ===================================================================== *)

(** ** Floating-point values and series statistics *)

Module Numeric.
Local Open Scope Q_scope.

Inductive fnum : Type :=
| Fin (q : Q)
| NaN
| PInf
| NInf.

Definition isna (x : fnum) : bool :=
  match x with NaN => true | _ => false end.

Definition notna (x : fnum) : bool := negb (isna x).

Definition fadd (x y : fnum) : fnum :=
  match x, y with
  | NaN, _ | _, NaN => NaN
  | Fin a, Fin b => Fin (a + b)
  | PInf, NInf | NInf, PInf => NaN
  | PInf, _ | _, PInf => PInf
  | NInf, _ | _, NInf => NInf
  end.

(** [a / b] on two finite doubles: a zero divisor gives an infinity of the
    sign of [a], or NaN for [0 / 0]. *)
Definition fdiv (a b : Q) : fnum :=
  if Qeq_bool b 0 then
    match a ?= 0 with
    | Gt => PInf
    | Lt => NInf
    | Eq => NaN
    end
  else Fin (a / b).

(** [x - q] for a finite [q]. *)
Definition fsub (x : fnum) (q : Q) : fnum :=
  match x with
  | Fin a => Fin (a - q)
  | other => other
  end.

(** [x > 0]; any comparison with NaN is false. *)
Definition fgt0 (x : fnum) : bool :=
  match x with
  | Fin q => negb (Qle_bool q 0)
  | PInf => true
  | NaN | NInf => false
  end.

Definition Qsum (l : list Q) : Q := fold_left Qplus l 0.

Definition Qlen (l : list Q) : Q := inject_Z (Z.of_nat (length l)).

Definition Qmean (l : list Q) : Q := Qsum l / Qlen l.

(** Sum of squared deviations from the mean. *)
Definition sq_dev (l : list Q) : Q :=
  let m := Qmean l in Qsum (map (fun x => (x - m) * (x - m)) l).

(** numpy's [np.std] (population, [ddof = 0]) on a non-empty array. *)
Definition np_std (sqrt : Q -> Q) (l : list Q) : Q :=
  sqrt (sq_dev l / Qlen l).

(** pandas' [Series.std] ([ddof = 1]) on values without NaN: NaN when fewer
    than two values remain. *)
Definition sample_std (sqrt : Q -> Q) (l : list Q) : fnum :=
  if (length l <=? 1)%nat then NaN
  else Fin (sqrt (sq_dev l / (Qlen l - 1))).

(** pandas reductions skip NaN ([skipna=True]). *)
Definition dropna (l : list fnum) : list fnum := filter notna l.

Fixpoint finite_values (l : list fnum) : option (list Q) :=
  match l with
  | [] => Some []
  | Fin q :: t =>
      match finite_values t with
      | Some qs => Some (q :: qs)
      | None => None
      end
  | _ :: _ => None
  end.

Definition series_sum (l : list fnum) : fnum :=
  fold_left fadd (dropna l) (Fin 0).

Definition series_mean (l : list fnum) : fnum :=
  match dropna l with
  | [] => NaN
  | v =>
      match fold_left fadd v (Fin 0) with
      | Fin s => Fin (s / inject_Z (Z.of_nat (length v)))
      | other => other
      end
  end.

(** [Series.std()]: an infinite entry makes the deviation [inf - inf], so
    the result is NaN. *)
Definition series_std (sqrt : Q -> Q) (l : list fnum) : fnum :=
  match finite_values (dropna l) with
  | Some qs => sample_std sqrt qs
  | None => NaN
  end.

(** Square roots vanish at zero only, as the IEEE square root does. *)
Definition sqrt_zero_only (sqrt : Q -> Q) : Prop :=
  forall q, 0 <= q -> (sqrt q == 0 <-> q == 0).

(** The same value with its fraction in lowest terms. *)
Definition reduced (x : fnum) : fnum :=
  match x with
  | Fin q => Fin (Qred q)
  | other => other
  end.

(** A rational square root, exact to nine decimal places, used where a
    concrete [sqrt] is wanted. *)
Definition Qsqrt (q : Q) : Q :=
  if Qle_bool q 0 then 0
  else Z.sqrt (Qnum q * Z.pos (Qden q) * 1000000000000000000)
       # (Qden q * 1000000000).

End Numeric.

(** ** Tables of raw cells *)

Module Table.

(** A cell of a raw table: missing (NaN, None, NaT), a number, a string or
    a parsed timestamp (nanoseconds since the epoch). *)
Inductive cell : Type :=
| Null
| Num (q : Q)
| Str (s : string)
| Date (t : Z).

Definition isna (c : cell) : bool :=
  match c with Null => true | _ => false end.

Definition notna (c : cell) : bool := negb (isna c).

(** Python dictionaries keep the order of insertion; assigning to a key
    that exists replaces its value in place. *)
Fixpoint dict_set {V : Type} (d : list (string * V)) (k : string) (v : V)
  : list (string * V) :=
  match d with
  | [] => [(k, v)]
  | (k', v') :: rest =>
      if String.eqb k k' then (k', v) :: rest else (k', v') :: dict_set rest k v
  end.

Fixpoint dict_get {V : Type} (d : list (string * V)) (k : string) : option V :=
  match d with
  | [] => None
  | (k', v') :: rest => if String.eqb k k' then Some v' else dict_get rest k
  end.

Definition dict_mem {V : Type} (d : list (string * V)) (k : string) : bool :=
  match dict_get d k with Some _ => true | None => false end.

Definition dict_values {V : Type} (d : list (string * V)) : list V := map snd d.

Definition is_upper (c : ascii) : bool :=
  let n := nat_of_ascii c in ((65 <=? n) && (n <=? 90))%nat.

Definition is_lower (c : ascii) : bool :=
  let n := nat_of_ascii c in ((97 <=? n) && (n <=? 122))%nat.

Definition is_alpha (c : ascii) : bool := is_upper c || is_lower c.

Definition is_digit (c : ascii) : bool :=
  let n := nat_of_ascii c in ((48 <=? n) && (n <=? 57))%nat.

(** [\s] on ASCII: tab, newline, vertical tab, form feed, carriage return,
    the four separators 28 to 31 and the space. *)
Definition is_space (c : ascii) : bool :=
  let n := nat_of_ascii c in
  (((9 <=? n) && (n <=? 13)) || ((28 <=? n) && (n <=? 32)))%nat.

Definition to_lower (c : ascii) : ascii :=
  if is_upper c then ascii_of_nat (nat_of_ascii c + 32) else c.

Definition to_upper (c : ascii) : ascii :=
  if is_lower c then ascii_of_nat (nat_of_ascii c - 32) else c.

(** [str.lower()]; strings are taken as ASCII text, other bytes are left as
    they are. *)
Fixpoint lower (s : string) : string :=
  match s with
  | EmptyString => EmptyString
  | String c t => String (to_lower c) (lower t)
  end.

(** [sub in s] *)
Fixpoint contains (sub s : string) : bool :=
  if String.prefix sub s then true
  else
    match s with
    | EmptyString => false
    | String _ t => contains sub t
    end.

End Table.

(** ** Risk scorer ([src/ml_pipeline/risk_scorer.py]) *)

Module RiskScorer.
Import Numeric.
Local Open Scope Q_scope.

(** The keys of [default_weights], in the order of the dictionary. *)
Inductive component : Type :=
| volume_risk
| anomaly_frequency_risk
| anomaly_severity_risk
| volatility_risk
| consistency_risk
| update_pattern_risk.

Definition components : list component :=
  [volume_risk; anomaly_frequency_risk; anomaly_severity_risk;
   volatility_risk; consistency_risk; update_pattern_risk].

Definition component_eqb (a b : component) : bool :=
  match a, b with
  | volume_risk, volume_risk
  | anomaly_frequency_risk, anomaly_frequency_risk
  | anomaly_severity_risk, anomaly_severity_risk
  | volatility_risk, volatility_risk
  | consistency_risk, consistency_risk
  | update_pattern_risk, update_pattern_risk => true
  | _, _ => false
  end.

(** The [component_type] strings passed to [_normalize_score]. *)
Inductive component_type : Type :=
| volume
| frequency
| severity
| volatility
| consistency
| update_pattern.

Definition normalization_ranges (t : component_type) : Q * Q :=
  match t with
  | volume => (0, 10000000)
  | frequency => (0, 1)
  | severity => (0, 1)
  | volatility => (0, 5 # 10)
  | consistency => (0, 1)
  | update_pattern => (0, 3 # 10)
  end.

(** [np.clip] on a value that is not NaN. *)
Definition np_clip (value : fnum) (min_val max_val : Q) : Q :=
  match value with
  | Fin q => Qmin (Qmax q min_val) max_val
  | PInf => max_val
  | NInf => min_val
  | NaN => min_val
  end.

Definition _normalize_score (value : fnum) (t : component_type) : Q :=
  if isna value then 0
  else
    let '(min_val, max_val) := normalization_ranges t in
    let v := np_clip value min_val max_val in
    if Qeq_bool (max_val - min_val) 0 then 0
    else (v - min_val) / (max_val - min_val).

(** One row of the scorer's input: a region-month with the anomaly
    detector's columns.  [date] is a timestamp in nanoseconds. *)
Record row : Type := {
  state : string;
  year_month : string;
  date : Z;
  enrolment_count_sum : fnum;
  is_anomaly : fnum;
  anomaly_score : fnum;
  mom_growth : fnum;
  update_ratio : fnum
}.

(** The input table: which of the optional columns exist, and the rows.
    The code reads [year_month] and [date] without a test, and [is_anomaly]
    too when it selects the flagged rows for [anomaly_score]: a table
    without them raises, and is not a table of the model.  Regions and
    timestamps are present on every row, as they are after cleaning. *)
Record frame : Type := {
  has_state : bool;
  has_enrolment_count_sum : bool;
  has_is_anomaly : bool;
  has_anomaly_score : bool;
  has_mom_growth : bool;
  has_update_ratio : bool;
  rows : list row
}.

(** [df.groupby('state')]: groups in ascending order of the key, the rows of
    a group in the order of the table. *)
Fixpoint insert_group (r : row) (groups : list (string * list row))
  : list (string * list row) :=
  match groups with
  | [] => [(state r, [r])]
  | (k, g) :: rest =>
      match String.compare (state r) k with
      | Eq => (k, g ++ [r]) :: rest
      | Lt => (state r, [r]) :: groups
      | Gt => (k, g) :: insert_group r rest
      end
  end.

Definition groupby_state (l : list row) : list (string * list row) :=
  fold_left (fun groups r => insert_group r groups) l [].

(** A [risk_entry] dictionary without its ['state'] key. *)
Definition risk_entry : Type := component -> option Q.

Definition entry_set (e : risk_entry) (c : component) (v : Q) : risk_entry :=
  fun c' => if component_eqb c c' then Some v else e c'.

Definition ns_per_day : Z := 86400000000000.

Definition Zmax_list (d : Z) (l : list Z) : Z := fold_left Z.max l d.
Definition Zmin_list (d : Z) (l : list Z) : Z := fold_left Z.min l d.

(** [(state_data['date'].max() - state_data['date'].min()).days] *)
Definition span_days (g : list row) : Z :=
  match map date g with
  | [] => 0
  | d :: ds => (Zmax_list d ds - Zmin_list d ds) / ns_per_day
  end.

Definition flagged (r : row) : bool :=
  match is_anomaly r with
  | Fin q => Qeq_bool q 1
  | _ => false
  end.

Section Components.
Variable sqrt : Q -> Q.
Variable df : frame.

Definition volume_step (g : list row) (e : risk_entry) : risk_entry :=
  if has_enrolment_count_sum df then
    let total_enrolments := series_sum (map enrolment_count_sum g) in
    entry_set e volume_risk (_normalize_score total_enrolments volume)
  else e.

Definition frequency_step (g : list row) (e : risk_entry) : risk_entry :=
  if has_is_anomaly df then
    let anomaly_freq := series_mean (map is_anomaly g) in
    entry_set e anomaly_frequency_risk (_normalize_score anomaly_freq frequency)
  else e.

Definition severity_step (g : list row) (e : risk_entry) : risk_entry :=
  if has_anomaly_score df then
    let avg := series_mean (map anomaly_score (filter flagged g)) in
    let avg_anomaly_score := if isna avg then Fin 0 else avg in
    entry_set e anomaly_severity_risk (_normalize_score avg_anomaly_score severity)
  else e.

Definition volatility_step (g : list row) (e : risk_entry) : risk_entry :=
  if has_mom_growth df then
    let sd := series_std sqrt (map mom_growth g) in
    let growth_volatility := if isna sd then Fin 0 else sd in
    entry_set e volatility_risk (_normalize_score growth_volatility volatility)
  else e.

Definition consistency_step (g : list row) (e : risk_entry) : risk_entry :=
  let expected_months :=
    inject_Z (Z.of_nat (length (nodup string_dec (map year_month g)))) in
  let total_months := inject_Z (span_days g) / 30 in
  if negb (Qle_bool total_months 0) then
    let completeness_ratio := expected_months / total_months in
    entry_set e consistency_risk
      (1 - _normalize_score (Fin completeness_ratio) consistency)
  else e.

Definition update_step (g : list row) (e : risk_entry) : risk_entry :=
  if has_update_ratio df then
    let sd := series_std sqrt (map update_ratio g) in
    let update_ratio_std := if isna sd then Fin 0 else sd in
    entry_set e update_pattern_risk (_normalize_score update_ratio_std update_pattern)
  else e.

(** The body of the loop over the groups. *)
Definition entry_of_group (g : list row) : risk_entry :=
  update_step g
    (consistency_step g
       (volatility_step g
          (severity_step g
             (frequency_step g
                (volume_step g (fun _ => None)))))).

(** The list [risk_data], one entry per state. *)
Definition risk_data : list (string * risk_entry) :=
  map (fun kg => (fst kg, entry_of_group (snd kg))) (groupby_state (rows df)).

End Components.

(** The table [pd.DataFrame(risk_data).fillna(0)]: a component is a column
    as soon as one entry has it, and an entry without it gets 0. *)
Record risk_frame : Type := {
  columns : component -> bool;
  risk_rows : list (string * (component -> Q))
}.

Definition is_some {A : Type} (o : option A) : bool :=
  match o with Some _ => true | None => false end.

Definition fillna0 (e : risk_entry) : component -> Q :=
  fun c => match e c with Some v => v | None => 0 end.

Definition _calculate_risk_components (sqrt : Q -> Q) (df : frame) : risk_frame :=
  let data := risk_data sqrt df in
  {| columns := fun c => existsb (fun se => is_some (snd se c)) data;
     risk_rows := map (fun se => (fst se, fillna0 (snd se))) data |}.

Definition default_weights (c : component) : Q :=
  match c with
  | volume_risk => 15 # 100
  | anomaly_frequency_risk => 25 # 100
  | anomaly_severity_risk => 25 # 100
  | volatility_risk => 15 # 100
  | consistency_risk => 10 # 100
  | update_pattern_risk => 10 # 100
  end.

(** [{**default_weights, **self.weights}].  The configured weights are
    keyed by the six component names: another key names no numeric column
    of the risk table and is passed over by [_apply_weights]. *)
Definition merged_weights (configured : component -> option Q) (c : component) : Q :=
  match configured c with
  | Some w => w
  | None => default_weights c
  end.

(** The loop of [_apply_weights] on the series [risk_score] and the
    number [total_weight]. *)
Definition weight_step (weights : component -> Q) (rf : risk_frame)
  (acc : list Q * Q) (c : component) : list Q * Q :=
  if columns rf c then
    (map (fun sr => fst sr + snd (snd sr) c * weights c)
         (combine (fst acc) (risk_rows rf)),
     snd acc + weights c)
  else acc.

Definition _apply_weights (configured : component -> option Q) (rf : risk_frame)
  : list Q :=
  let weights := merged_weights configured in
  let '(risk_score, total_weight) :=
    fold_left (weight_step weights rf) components
              (map (fun _ => 0) (risk_rows rf), 0) in
  if negb (Qle_bool total_weight 0)
  then map (fun s => s / total_weight) risk_score
  else risk_score.

Inductive risk_level : Type :=
| CRITICAL
| HIGH
| MEDIUM
| LOW
| VERY_LOW.

Definition _categorize_risk_level (score : Q) : risk_level :=
  if Qle_bool (8 # 10) score then CRITICAL
  else if Qle_bool (6 # 10) score then HIGH
  else if Qle_bool (4 # 10) score then MEDIUM
  else if Qle_bool (2 # 10) score then LOW
  else VERY_LOW.

Definition _get_risk_color (level : risk_level) : string :=
  match level with
  | CRITICAL => "#DC3545"
  | HIGH => "#FD7E14"
  | MEDIUM => "#FFC107"
  | LOW => "#28A745"
  | VERY_LOW => "#6C757D"
  end.

Record risk_profile : Type := {
  rp_state : string;
  rp_component : component -> Q;
  rp_risk_score : Q;
  rp_risk_level : risk_level;
  rp_risk_color : string
}.

(** [sort_values('risk_score', ascending=False)]; rows of equal score are
    kept in their order here, pandas does not fix it. *)
Fixpoint insert_desc (p : risk_profile) (l : list risk_profile) : list risk_profile :=
  match l with
  | [] => [p]
  | h :: t =>
      if Qle_bool (rp_risk_score p) (rp_risk_score h)
      then h :: insert_desc p t
      else p :: l
  end.

Definition sort_desc (l : list risk_profile) : list risk_profile :=
  fold_left (fun acc p => insert_desc p acc) l [].

Definition profile_of (sr : string * (component -> Q)) (score : Q) : risk_profile :=
  let level := _categorize_risk_level score in
  {| rp_state := fst sr;
     rp_component := snd sr;
     rp_risk_score := score;
     rp_risk_level := level;
     rp_risk_color := _get_risk_color level |}.

Definition calculate_risk_scores (sqrt : Q -> Q) (configured : component -> option Q)
  (df : frame) : list risk_profile :=
  match rows df with
  | [] => []
  | _ =>
      if negb (has_state df) then []
      else
        let risk_components := _calculate_risk_components sqrt df in
        let scores := _apply_weights configured risk_components in
        sort_desc
          (map (fun p => profile_of (fst p) (snd p))
               (combine (risk_rows risk_components) scores))
  end.

(** The composite score as the specification words it: the weighted sum
    over the components the region's own entry has, over the sum of their
    weights. *)
Definition spec_risk_score (weights : component -> Q) (e : risk_entry) : Q :=
  let present := filter (fun c => is_some (e c)) components in
  Qsum (map (fun c => fillna0 e c * weights c) present)
  / Qsum (map weights present).

(** The weighted sum of one row over a list of components. *)
Definition weighted (weights : component -> Q) (cs : list component)
  (r : component -> Q) : Q :=
  Qsum (map (fun c => r c * weights c) cs).

(** Every value of an entry lies in the unit interval. *)
Definition unit_entry (e : risk_entry) : Prop :=
  forall c v, e c = Some v -> 0 <= v <= 1.

Definition day (n : Z) : Z := (n * ns_per_day)%Z.

Definition plain_row (s ym : string) (d : Z) (flag : Q) : row :=
  {| state := s; year_month := ym; date := d;
     enrolment_count_sum := NaN; is_anomaly := Fin flag;
     anomaly_score := NaN; mom_growth := NaN; update_ratio := NaN |}.

(** Two regions with the [is_anomaly] column only: "A" spans two months,
    "B" has a single, flagged month. *)
Definition two_regions : frame :=
  {| has_state := true;
     has_enrolment_count_sum := false;
     has_is_anomaly := true;
     has_anomaly_score := false;
     has_mom_growth := false;
     has_update_ratio := false;
     rows := [plain_row "A" "2023-01" (day 0) 0;
              plain_row "A" "2023-03" (day 60) 0;
              plain_row "B" "2023-01" (day 0) 1] |}.

Definition scored_row (s ym : string) (d : Z) (flag score : Q) : row :=
  {| state := s; year_month := ym; date := d;
     enrolment_count_sum := Fin 1000; is_anomaly := Fin flag;
     anomaly_score := Fin score; mom_growth := NaN; update_ratio := Fin (1 # 10) |}.

(** A detector output with every column: "Kerala" has no flagged month,
    "Goa" has one. *)
Definition detector_output : frame :=
  {| has_state := true;
     has_enrolment_count_sum := true;
     has_is_anomaly := true;
     has_anomaly_score := true;
     has_mom_growth := true;
     has_update_ratio := true;
     rows := [scored_row "Kerala" "2023-01" (day 0) 0 (4 # 10);
              scored_row "Goa" "2023-01" (day 0) 1 (7 # 10);
              scored_row "Kerala" "2023-02" (day 31) 0 (45 # 100);
              scored_row "Goa" "2023-02" (day 31) 0 (5 # 10)] |}.

Definition no_override : component -> option Q := fun _ => None.

(** A configuration whose [weights] give [anomaly_frequency_risk] the
    weight -0.25 and leave the other five at their defaults. *)
Definition negative_override : component -> option Q :=
  fun c => if component_eqb c anomaly_frequency_risk then Some (- (25 # 100))
           else None.

End RiskScorer.

(** ** Anomaly detector ([src/ml_pipeline/anomaly_detector.py]) *)

Module AnomalyDetector.
Import Numeric.
Local Open Scope Q_scope.

Inductive bucket : Type :=
| LOW
| MEDIUM
| HIGH
| VERY_HIGH.

(** An element of the array [_calculate_confidence] returns: a number, from
    [np.zeros_like], or one of the four labels. *)
Inductive confidence : Type :=
| Number (q : Q)
| Label (b : bucket).

Definition rank (b : bucket) : nat :=
  match b with
  | LOW => 0
  | MEDIUM => 1
  | HIGH => 2
  | VERY_HIGH => 3
  end.

Definition np_min (d : Q) (l : list Q) : Q := fold_left Qmin l d.
Definition np_max (d : Q) (l : list Q) : Q := fold_left Qmax l d.

(** The chain of tests in the loop over [normalized_scores]. *)
Definition confidence_level (score : Q) : bucket :=
  if negb (Qle_bool score (8 # 10)) then VERY_HIGH
  else if negb (Qle_bool score (6 # 10)) then HIGH
  else if negb (Qle_bool score (4 # 10)) then MEDIUM
  else LOW.

(** When [max = min] numpy divides [0.0 / 0.0] and every NaN fails the three
    tests; Rocq's [0 / 0 = 0] fails them too, so both give LOW there. *)
Definition _calculate_confidence (sqrt : Q -> Q) (scores : list Q) : list confidence :=
  match scores with
  | [] => []
  | s0 :: rest =>
      if Qeq_bool (np_std sqrt scores) 0 then map (fun _ => Number 0) scores
      else
        let lo := np_min s0 rest in
        let hi := np_max s0 rest in
        map (fun s => Label (confidence_level ((s - lo) / (hi - lo)))) scores
  end.

(** [detect].  The scaler and the outlier model are library objects: for a
    batch they give one prediction (-1 or 1) and one raw score per row
    ([score_samples], or [negative_outlier_factor_] for the local outlier
    factor); the selected feature columns are [_get_feature_columns]. *)
Section Detect.
Variable features_row : Type.
Variable sqrt : Q -> Q.
Variable _get_feature_columns : list features_row -> list string.
Variable model : list features_row -> list (Z * Q).

Record anomaly_result : Type := {
  features : features_row;
  is_anomaly : Z;
  anomaly_score : Q;
  anomaly_confidence : option confidence
}.

Definition detect (features_df : list features_row) : list anomaly_result :=
  match features_df with
  | [] => []
  | _ =>
      match _get_feature_columns features_df with
      | [] =>
          map (fun r => {| features := r; is_anomaly := 0; anomaly_score := 0;
                           anomaly_confidence := None |}) features_df
      | _ =>
          let fitted := model features_df in
          let predictions := map fst fitted in
          let anomaly_scores := map (fun ps => - snd ps) fitted in
          let confidences := _calculate_confidence sqrt anomaly_scores in
          map (fun x =>
                 {| features := fst (fst x);
                    is_anomaly := if (fst (snd (fst x)) =? -1)%Z then 1 else 0;
                    anomaly_score := snd (snd (fst x));
                    anomaly_confidence := Some (snd x) |})
              (combine (combine features_df (combine predictions anomaly_scores))
                       confidences)
      end
  end.

End Detect.

End AnomalyDetector.

(** ** Zero tests on doubles ([_calculate_confidence], the z-score) *)

(** The guard of [_calculate_confidence] and the z-score of the
    aggregation compare a computed deviation with 0, so which branch is
    taken depends on rounding.  Here the two are taken on binary64 numbers,
    with the arithmetic of the processor. *)
Module Doubles.
Import PrimFloat.
Local Open Scope float_scope.

(** An element of the array [_calculate_confidence] returns: a double,
    from [np.zeros_like], or one of the four labels. *)
Inductive confidence : Type :=
| Number (x : float)
| Label (b : AnomalyDetector.bucket).

(** [np.min] and [np.max]: a NaN in the array is the result. *)
Definition np_min (d : float) (l : list float) : float :=
  fold_left (fun a x => if (a <=? x) || is_nan a then a else x) l d.

Definition np_max (d : float) (l : list float) : float :=
  fold_left (fun a x => if (x <=? a) || is_nan a then a else x) l d.

(** The doubles nearest to 0.8, 0.6 and 0.4, which the literals of the
    source denote. *)
Definition very_high_above : float := 0x1.999999999999ap-1.
Definition high_above : float := 0x1.3333333333333p-1.
Definition medium_above : float := 0x1.999999999999ap-2.

(** The chain of tests in the loop over [normalized_scores]; a NaN fails
    the three of them. *)
Definition confidence_level (score : float) : AnomalyDetector.bucket :=
  if very_high_above <? score then AnomalyDetector.VERY_HIGH
  else if high_above <? score then AnomalyDetector.HIGH
  else if medium_above <? score then AnomalyDetector.MEDIUM
  else AnomalyDetector.LOW.

Section Confidence.
(** [np.std], the population deviation the library computes for an array
    of doubles. *)
Variable np_std : list float -> float.

Definition _calculate_confidence (scores : list float) : list confidence :=
  match scores with
  | [] => []
  | s0 :: rest =>
      if np_std scores =? 0 then map (fun _ => Number 0) scores
      else
        let lo := np_min s0 rest in
        let hi := np_max s0 rest in
        map (fun s => Label (confidence_level ((s - lo) / (hi - lo)))) scores
  end.

End Confidence.

Fixpoint float_of_nat (n : nat) : float :=
  match n with
  | O => 0
  | S k => float_of_nat k + 1
  end.

(** The sum numpy computes for an array of fewer than eight doubles: they
    are added from left to right.  Longer arrays are added in blocks. *)
Definition sum_of_short (l : list float) : float := fold_left add l 0.

Definition mean_of_short (l : list float) : float :=
  sum_of_short l / float_of_nat (length l).

(** The deviation of an array of fewer than eight doubles, as [np.std]
    ([ddof = 0]) and [Series.std] ([ddof = 1]) compute it: the mean, the
    squares of the deviations from it, their sum over [n - ddof] and the
    square root.  With [n <= ddof] the quotient is [0.0 / 0.0], a NaN. *)
Definition deviation_of_short (ddof : nat) (l : list float) : float :=
  let arrmean := mean_of_short l in
  let x := map (fun a => (a - arrmean) * (a - arrmean)) l in
  sqrt (sum_of_short x / float_of_nat (length l - ddof)).


(** [(x - x.mean()) / x.std() if x.std() > 0 else 0] on the series of one
    region, of fewer than eight months. *)
Definition z_scores_of_short (x : list float) : list float :=
  if 0 <? deviation_of_short 1 x
  then map (fun v => (v - mean_of_short x) / deviation_of_short 1 x) x
  else map (fun _ => 0) x.

(** The doubles nearest to 0.1, 0.5 and 0.9. *)
Definition tenth : float := 0x1.999999999999ap-4.

End Doubles.

(** ** Feature engineering ([src/data_pipeline/feature_engineer.py]) *)

Module FeatureEngineer.
Import Numeric.
Local Open Scope Q_scope.

(** A record of the cleaned table: its region, its timestamp (nanoseconds
    since the epoch) and the value of each numeric column.  Cleaned numeric
    cells are finite numbers. *)
Record record : Type := {
  state : string;
  date : Z;
  num : string -> Q
}.

(** A table: its column labels in order, which of them have a numeric
    dtype, and its records. *)
Record frame : Type := {
  columns : list string;
  is_numeric : string -> bool;
  rows : list record
}.

Definition has_column (c : string) (df : frame) : bool :=
  existsb (String.eqb c) (columns df).

(** The civil date of a day number (days since 1970-01-01). *)
Definition civil (days : Z) : Z * Z * Z :=
  let z := (days + 719468)%Z in
  let era := (z / 146097)%Z in
  let doe := (z - era * 146097)%Z in
  let yoe := ((doe - doe / 1460 + doe / 36524 - doe / 146096) / 365)%Z in
  let doy := (doe - (365 * yoe + yoe / 4 - yoe / 100))%Z in
  let mp := ((5 * doy + 2) / 153)%Z in
  let d := (doy - (153 * mp + 2) / 5 + 1)%Z in
  let m := (if mp <? 10 then mp + 3 else mp - 9)%Z in
  let y := (yoe + era * 400 + (if m <=? 2 then 1 else 0))%Z in
  (y, m, d).

Definition day_number (t : Z) : Z := (t / 86400000000000)%Z.

Definition dt_year (t : Z) : Z := fst (fst (civil (day_number t))).
Definition dt_month (t : Z) : Z := snd (fst (civil (day_number t))).

(** Monday is 0; 1970-01-01 was a Thursday. *)
Definition dt_dayofweek (t : Z) : Z := ((day_number t + 3) mod 7)%Z.

(** [dt.to_period('M')], as the number of the month counted from 1970-01;
    periods are ordered as these numbers are. *)
Definition to_period_M (t : Z) : Z := ((dt_year t - 1970) * 12 + (dt_month t - 1))%Z.

(** [df[c] = values]: the column is replaced in place or added last. *)
Definition assign (c : string) (f : record -> Q) (df : frame) : frame :=
  {| columns := if has_column c df then columns df else columns df ++ [c];
     is_numeric := fun c' => if String.eqb c c' then true else is_numeric df c';
     rows := map (fun r => {| state := state r; date := date r;
                              num := fun c' => if String.eqb c c' then f r
                                               else num r c' |})
                 (rows df) |}.

Definition _create_time_features (df : frame) : frame :=
  if negb (has_column "date" df) then df
  else
    let df1 := assign "year" (fun r => inject_Z (dt_year (date r))) df in
    let df2 := assign "month" (fun r => inject_Z (dt_month (date r))) df1 in
    let df3 := assign "day_of_week" (fun r => inject_Z (dt_dayofweek (date r))) df2 in
    assign "is_weekend"
           (fun r => if (5 <=? dt_dayofweek (date r))%Z then 1 else 0) df3.

(** The aggregation functions named in [agg_dict]. *)
Inductive agg_fn : Type :=
| agg_sum
| agg_mean
| agg_std.

Definition agg_name (f : agg_fn) : string :=
  match f with
  | agg_sum => "sum"
  | agg_mean => "mean"
  | agg_std => "std"
  end.

(** A value of [agg_dict]: a list of functions or a single one. *)
Inductive agg_spec : Type :=
| agg_list (fs : list agg_fn)
| agg_one (f : agg_fn).

Definition is_agg_list (a : agg_spec) : bool :=
  match a with agg_list _ => true | agg_one _ => false end.

Definition enrolment_candidates : list string :=
  ["enrolment_count"; "Total_Enrolments"; "enrolments"]%string.

Definition update_candidates : list string :=
  ["update_count"; "Total_Updates"; "updates"]%string.

Definition first_present (candidates : list string) (df : frame) : option string :=
  find (fun c => has_column c df) candidates.

Definition numeric_cols (df : frame) : list string :=
  filter (is_numeric df) (columns df).

Definition agg_dict (df : frame) : list (string * agg_spec) :=
  let d1 :=
    match first_present enrolment_candidates df with
    | Some enrolment_col => [(enrolment_col, agg_list [agg_sum; agg_mean; agg_std])]
    | None => []
    end in
  let d2 :=
    match first_present update_candidates df with
    | Some update_col => d1 ++ [(update_col, agg_one agg_sum)]
    | None => d1
    end in
  match d2 with
  | [] => map (fun c => (c, agg_one agg_sum)) (firstn 2 (numeric_cols df))
  | _ => d2
  end.

(** A group of [groupby(['state', 'year_month'])]. *)
Definition group_key : Type := (string * Z)%type.

Definition key_of (r : record) : group_key := (state r, to_period_M (date r)).

Definition key_compare (a b : group_key) : comparison :=
  match String.compare (fst a) (fst b) with
  | Eq => Z.compare (snd a) (snd b)
  | c => c
  end.

(** Groups come in ascending order of the key, the records of a group in
    the order of the table. *)
Fixpoint insert_group (r : record) (groups : list (group_key * list record))
  : list (group_key * list record) :=
  match groups with
  | [] => [(key_of r, [r])]
  | (k, g) :: rest =>
      match key_compare (key_of r) k with
      | Eq => (k, g ++ [r]) :: rest
      | Lt => (key_of r, [r]) :: groups
      | Gt => (k, g) :: insert_group r rest
      end
  end.

Definition groupby (l : list record) : list (group_key * list record) :=
  fold_left (fun groups r => insert_group r groups) l [].

Section Aggregation.
Variable sqrt : Q -> Q.

Definition aggregate_fn (f : agg_fn) (values : list Q) : fnum :=
  match f with
  | agg_sum => Fin (Qsum values)
  | agg_mean => Fin (Qmean values)
  | agg_std => sample_std sqrt values
  end.

(** The columns one entry of [agg_dict] gives, under their flattened names:
    with a list among the values of the dictionary the labels are pairs,
    joined by ["_"]; otherwise they are the names of the source columns. *)
Definition aggregate_entry (multi : bool) (g : list record) (e : string * agg_spec)
  : list (string * fnum) :=
  let values := map (fun r => num r (fst e)) g in
  match snd e with
  | agg_list fs =>
      map (fun f => ((fst e ++ "_" ++ agg_name f)%string, aggregate_fn f values)) fs
  | agg_one f =>
      [((if multi then fst e ++ "_" ++ agg_name f else fst e)%string,
        aggregate_fn f values)]
  end.

(** A row of the aggregated table: its region, its month (the number of
    the period; the code turns it into the text [YYYY-MM] once the groups
    are formed and ordered), the aggregated columns under their names, and
    the three derived columns, [None] when the table does not get them. *)
Record monthly : Type := {
  m_state : string;
  m_year_month : Z;
  m_cols : list (string * fnum);
  mom_growth : option fnum;
  z_score : option fnum;
  update_ratio : option fnum
}.

Definition aggregated_row (d : list (string * agg_spec))
  (kg : group_key * list record) : monthly :=
  {| m_state := fst (fst kg);
     m_year_month := snd (fst kg);
     m_cols := flat_map (aggregate_entry (existsb (fun e => is_agg_list (snd e)) d)
                                         (snd kg)) d;
     mom_growth := None;
     z_score := None;
     update_ratio := None |}.

(** [[col for col in aggregated.columns if '_sum' in col]] *)
Definition sum_cols (m : monthly) : list string :=
  filter (Table.contains "_sum")
         ("state" :: "year_month" :: map fst (m_cols m))%string.

Definition col (c : string) (m : monthly) : fnum :=
  match find (fun p => String.eqb c (fst p)) (m_cols m) with
  | Some p => snd p
  | None => NaN
  end.

(** [filled / shifted - 1] on two sums; sums of finite cells are finite. *)
Definition pct (current previous : fnum) : fnum :=
  match current, previous with
  | Fin a, Fin b => fsub (fdiv a b) 1
  | _, _ => NaN
  end.

(** The change of [m] against the latest row of its state in [seen], NaN
    when there is none. *)
Definition growth_against (primary_sum : string) (seen : list monthly) (m : monthly)
  : fnum :=
  match find (fun m' => String.eqb (m_state m') (m_state m)) seen with
  | Some previous => pct (col primary_sum m) (col primary_sum previous)
  | None => NaN
  end.

(** [groupby('state')[primary_sum].pct_change()]: each row against the row
    of its state that precedes it in the table; [seen] holds the rows
    already passed, the latest first. *)
Fixpoint pct_change (primary_sum : string) (seen l : list monthly) : list fnum :=
  match l with
  | [] => []
  | m :: rest =>
      growth_against primary_sum seen m :: pct_change primary_sum (m :: seen) rest
  end.

(** [transform(lambda x: (x - x.mean()) / x.std() if x.std() > 0 else 0)]
    for the row [m], [x] being the series of its state. *)
Definition z_transform (primary_sum : string) (table : list monthly) (m : monthly)
  : fnum :=
  let x := filter (fun m' => String.eqb (m_state m') (m_state m)) table in
  match finite_values (map (col primary_sum) x), col primary_sum m with
  | Some xs, Fin v =>
      match sample_std sqrt xs with
      | Fin sd => if negb (Qle_bool sd 0) then Fin ((v - Qmean xs) / sd) else Fin 0
      | _ => Fin 0
      end
  | _, _ => NaN
  end.

(** [aggregated[update_sum] / aggregated[enrolment_sum].replace(0, 1)] *)
Definition ratio (update_sum enrolment_sum : fnum) : fnum :=
  match update_sum, enrolment_sum with
  | Fin u, Fin e => Fin (u / (if Qeq_bool e 0 then 1 else e))
  | _, _ => NaN
  end.

(** A row with its three derived columns; [others] are the [_sum] columns
    after the first. *)
Definition with_derived (primary_sum : string) (others : list string)
  (table : list monthly) (mg : monthly * fnum) : monthly :=
  let m := fst mg in
  {| m_state := m_state m;
     m_year_month := m_year_month m;
     m_cols := m_cols m;
     mom_growth := Some (snd mg);
     z_score := Some (z_transform primary_sum table m);
     update_ratio :=
       match others with
       | [] => None
       | update_sum :: _ => Some (ratio (col update_sum m) (col primary_sum m))
       end |}.

Definition derive (table : list monthly) : list monthly :=
  match table with
  | [] => []
  | first :: _ =>
      match sum_cols first with
      | [] => table
      | primary_sum :: others =>
          map (with_derived primary_sum others table)
              (combine table (pct_change primary_sum [] table))
      end
  end.

Definition _create_aggregated_features (df : frame) : list monthly :=
  if negb (has_column "state" df) || negb (has_column "date" df) then []
  else
    match agg_dict df with
    | [] => []
    | d => derive (map (aggregated_row d) (groupby (rows df)))
    end.

(** Steps 1 and 2 of [create_features]. *)
Definition aggregate (df : frame) : list monthly :=
  match rows df with
  | [] => []
  | _ => _create_aggregated_features (_create_time_features df)
  end.

End Aggregation.

(** The first [_sum] column of a row, and the second: the volume and the
    update sums of the canonical table. *)
Definition volume_sum (m : monthly) : option fnum :=
  match sum_cols m with
  | primary_sum :: _ => Some (col primary_sum m)
  | [] => None
  end.

Definition update_sum (m : monthly) : option fnum :=
  match sum_cols m with
  | _ :: second :: _ => Some (col second m)
  | _ => None
  end.

Definition key_lt (a b : group_key) : Prop := key_compare a b = Lt.

Definition m_key (m : monthly) : group_key := (m_state m, m_year_month m).

Definition same_state (m m' : monthly) : bool := String.eqb (m_state m') (m_state m).

(** The volume sums of the region of [m] over the whole table, in order. *)
Definition region_series (m : monthly) (table : list monthly) : list fnum :=
  map (fun x => match volume_sum x with Some v => v | None => NaN end)
      (filter (same_state m) table).

(** The ratio as the specification words it. *)
Definition spec_update_ratio (update_total volume_total : Q) : Q :=
  update_total / Qmax volume_total 1.

(** The range checks of the cleaner on the two counts of a record. *)
Definition range_checked (r : record) : Prop :=
  0 <= num r "enrolment_count" /\ 0 <= num r "update_count" /\
  num r "update_count" <= num r "enrolment_count" * 5.

Definition no_row : monthly :=
  {| m_state := EmptyString; m_year_month := 0; m_cols := [];
     mom_growth := None; z_score := None; update_ratio := None |}.

Definition timestamp (days : Z) : Z := (days * 86400000000000)%Z.

Definition canonical (s : string) (days : Z) (enrolment update : Q) : record :=
  {| state := s; date := timestamp days;
     num := fun c => if String.eqb c "enrolment_count" then enrolment
                     else if String.eqb c "update_count" then update else 0 |}.

Definition canonical_frame (l : list record) : frame :=
  {| columns := ["date"; "state"; "enrolment_count"; "update_count"]%string;
     is_numeric := fun c => String.eqb c "enrolment_count" || String.eqb c "update_count";
     rows := l |}.

(** The scenario of the specification: regions "A" and "B" over January to
    March 2023 (day numbers 19358, 19389, 19417), with volumes 100, 100, 100
    and 100, 100, 300. *)
Definition scenario : frame :=
  canonical_frame
    [canonical "A" 19358 100 10; canonical "B" 19358 100 10;
     canonical "A" 19389 100 10; canonical "B" 19389 100 10;
     canonical "A" 19417 100 10; canonical "B" 19417 300 10].

(** One record with half an enrolment, as the median of 0 and 1 gives when
    the cleaner imputes a missing count. *)
Definition half_volume : frame :=
  canonical_frame [canonical "A" 19358 (1 # 2) 1].

End FeatureEngineer.

(** ** Schema detection ([src/data_pipeline/universal_processor.py]) *)

Module SchemaNormalizer.
Import Table.
Local Open Scope string_scope.

(** The table [self.column_patterns].  The patterns are regular
    expressions without operators, except ["age_60\+"], whose escaped plus
    stands for the character; each is given as the text it matches. *)
Definition column_patterns : list (string * list string) :=
  [("date",
    ["date"; "Date"; "DATE"; "timestamp"; "Timestamp";
     "enrolment_date"; "enrollment_date"; "time"; "Time"]);
   ("state",
    ["state"; "State"; "STATE"; "state_name"; "State_Name";
     "STATE_NAME"; "region"; "Region"; "location"]);
   ("district",
    ["district"; "District"; "DISTRICT"; "district_name";
     "district_name"; "area"; "Area"; "zone"; "Zone"]);
   ("pincode",
    ["pincode"; "Pincode"; "PINCODE"; "pin"; "Pin"; "PIN";
     "postal_code"; "postal"; "zip"; "Zip"]);
   ("enrolment_count",
    ["enrolment"; "Enrolment"; "enrollment"; "Enrollment";
     "enrolments"; "enrollments"; "count"; "Count"; "total";
     "volume"; "Volume"; "number"; "Number"]);
   ("update_count",
    ["update"; "Update"; "updates"; "Updates"; "modification";
     "Modification"; "change"; "Change"; "correction"]);
   ("age_0_18",
    ["age_0_18"; "age0_18"; "age_0_to_18"; "0_18"; "under_18";
     "minor"; "Minor"; "children"; "Children"]);
   ("age_19_40",
    ["age_19_40"; "age19_40"; "age_19_to_40"; "19_40";
     "adult"; "Adult"; "young_adult"; "young"]);
   ("age_41_60",
    ["age_41_60"; "age41_60"; "age_41_to_60"; "41_60";
     "middle_age"; "middle"; "mid_age"]);
   ("age_60_plus",
    ["age_60_plus"; "age60_plus"; "age_60+"; "60_plus";
     "senior"; "Senior"; "elderly"; "Elderly"; "old"])].

(** [re.search(pattern, col, re.IGNORECASE)] *)
Definition re_search (pattern col : string) : bool :=
  contains (lower pattern) (lower col).

(** [re.match(f'^{pattern}$', col, re.IGNORECASE)]; [$] also matches before
    a final newline. *)
Definition re_match (pattern col : string) : bool :=
  String.eqb (lower col) (lower pattern)
  || String.eqb (lower col) (lower pattern ++ String (ascii_of_nat 10) EmptyString).

Record column : Type := {
  name : string;
  numeric : bool;
  values : list cell
}.

Record detection : Type := {
  original : string;
  confidence : string
}.

Record schema : Type := {
  mapping : list (string * string);
  detected : list (string * detection);
  original_columns : list string;
  detected_columns : list string
}.

Section Detection.
(** The order in which [list(set(l))] lists the elements of [l], and
    whether [pd.to_datetime(sample, errors='raise')] returns. *)
Variable set_order : list string -> list string.
Variable to_datetime_parses : list cell -> bool.

(** The loop over the patterns of one canonical name, up to its [break]:
    the column taken and the confidence recorded. *)
Fixpoint first_match (patterns : list string) (cols : list string)
  : option (string * string) :=
  match patterns with
  | [] => None
  | pattern :: rest =>
      let exact_matches := filter (re_match pattern) cols in
      let partial_matches := filter (re_search pattern) cols in
      match set_order (exact_matches ++ partial_matches) with
      | original_column :: _ =>
          Some (original_column,
                match exact_matches with [] => "MEDIUM" | _ => "HIGH" end)
      | [] => first_match rest cols
      end
  end.

Definition state_of : Type := (list (string * string) * list (string * detection))%type.

Definition name_step (cols : list string) (st : state_of)
  (entry : string * list string) : state_of :=
  match first_match (snd entry) cols with
  | Some (original_column, conf) =>
      (dict_set (fst st) original_column (fst entry),
       dict_set (snd st) (fst entry)
                {| original := original_column; confidence := conf |})
  | None => st
  end.

Definition in_values (v : string) (d : list (string * string)) : bool :=
  existsb (String.eqb v) (dict_values d).

(** [df[col].dropna().head(10)] *)
Definition sample (c : column) : list cell := firstn 10 (filter notna (values c)).

Definition date_step (st : state_of) (c : column) : state_of :=
  if dict_mem (fst st) (name c) then st
  else
    match sample c with
    | [] => st
    | _ =>
        if to_datetime_parses (sample c) && negb (in_values "date" (fst st))
        then (dict_set (fst st) (name c) "date",
              dict_set (snd st) "date" {| original := name c; confidence := "HIGH" |})
        else st
    end.

Definition count_keywords : list string := ["total"; "count"; "sum"; "number"].

Definition numeric_step (st : state_of) (c : column) : state_of :=
  if dict_mem (fst st) (name c) then st
  else if existsb (fun keyword => contains keyword (lower (name c))) count_keywords
          && negb (in_values "enrolment_count" (fst st))
  then (dict_set (fst st) (name c) "enrolment_count",
        dict_set (snd st) "enrolment_count"
                 {| original := name c; confidence := "MEDIUM" |})
  else st.

Definition name_phase (df : list column) : state_of :=
  fold_left (name_step (map name df)) column_patterns ([], []).

Definition date_phase (df : list column) (st : state_of) : state_of :=
  fold_left date_step df st.

Definition numeric_phase (df : list column) (st : state_of) : state_of :=
  fold_left numeric_step (filter numeric df) st.

Definition auto_detect_schema (df : list column) : schema :=
  let st := numeric_phase df (date_phase df (name_phase df)) in
  {| mapping := fst st;
     detected := snd st;
     original_columns := map name df;
     detected_columns := dict_values (fst st) |}.

End Detection.

(** [list(set(l))] lists exactly the elements of [l]. *)
Definition lists_the_elements (set_order : list string -> list string) : Prop :=
  forall l x, In x (set_order l) <-> In x l.

Definition digits2 (a b : ascii) : nat :=
  (10 * (nat_of_ascii a - 48) + (nat_of_ascii b - 48))%nat.

Definition days_in_month (year month : nat) : nat :=
  (match month with
   | 1 | 3 | 5 | 7 | 8 | 10 | 12 => 31
   | 4 | 6 | 9 | 11 => 30
   | 2 =>
       if (year mod 4 =? 0) && (negb (year mod 100 =? 0) || (year mod 400 =? 0))
       then 29 else 28
   | _ => 0
   end)%nat.

(** An ISO calendar date [YYYY-MM-DD]. *)
Definition iso_date (s : string) : bool :=
  match list_ascii_of_string s with
  | [y1; y2; y3; y4; h1; m1; m2; h2; d1; d2] =>
      forallb is_digit [y1; y2; y3; y4; m1; m2; d1; d2]
      && Ascii.eqb h1 "-" && Ascii.eqb h2 "-"
      && (let year := (100 * digits2 y1 y2 + digits2 y3 y4)%nat in
          let month := digits2 m1 m2 in
          let day := digits2 d1 d2 in
          (1 <=? day)%nat && (day <=? days_in_month year month)%nat)
  | _ => false
  end.

Definition iso_cell (c : cell) : bool :=
  match c with
  | Str s => iso_date s
  | _ => false
  end.

(** A column the fallback on values can give [date] to, [by_name] being
    the mapping the name patterns have produced: its label is not a key of
    the mapping, and its sample is not empty and parses. *)
Definition date_candidate (to_datetime_parses : list cell -> bool)
  (by_name : list (string * string)) (c : column) : bool :=
  negb (dict_mem by_name (name c))
  && match sample c with
     | [] => false
     | _ :: _ => to_datetime_parses (sample c)
     end.

(** No pattern of the canonical name [date] is found in the label. *)
Definition no_date_name (col : string) : bool :=
  match dict_get column_patterns "date" with
  | Some patterns => forallb (fun p => negb (re_search p col)) patterns
  | None => true
  end.

(** An order for sets and a date parser to run the detection with: the
    elements without their repetitions, and the samples of ISO dates. *)
Definition distinct_order (l : list string) : list string := nodup string_dec l.

Definition iso_only (l : list cell) : bool := forallb iso_cell l.

(** A table whose only ISO-date column carries a name that the pattern
    ["correction"] claims for [update_count]. *)
Definition corrections_table : list column :=
  [{| name := "Total_Enrolments"; numeric := true;
      values := [Num 120; Num 80] |};
   {| name := "Correction_Day"; numeric := false;
      values := [Str "2021-03-01"; Str "2021-03-02"] |}].

(** A table with a volume column and an unnamed column of ISO dates. *)
Definition plain_table : list column :=
  [{| name := "Total_Enrolments"; numeric := true;
      values := [Num 120; Num 80] |};
   {| name := "when"; numeric := false;
      values := [Str "2021-03-01"; Null; Str "2021-03-02"] |}].

End SchemaNormalizer.

(** ** Data cleaner ([src/data_pipeline/data_cleaner.py]) *)

Module Cleaner.
Import Table.
Local Open Scope string_scope.

(** A table: its labels and its rows, each row holding one cell per label,
    in the order of the labels.  A label is taken to occur once; a cell is
    read and written at the first occurrence of its label. *)
Record frame : Type := {
  columns : list string;
  rows : list (list cell)
}.

Definition has_column (c : string) (df : frame) : bool :=
  existsb (String.eqb c) (columns df).

Fixpoint index_of (c : string) (cols : list string) : nat :=
  match cols with
  | [] => O
  | c' :: rest => if String.eqb c c' then O else S (index_of c rest)
  end.

(** [row[c]] *)
Definition cell_at (df : frame) (c : string) (row : list cell) : cell :=
  nth (index_of c (columns df)) row Null.

Fixpoint update_at (i : nat) (f : cell -> cell) (row : list cell) : list cell :=
  match row, i with
  | [], _ => []
  | x :: rest, O => f x :: rest
  | x :: rest, S j => x :: update_at j f rest
  end.

(** [df[c] = df[c].map(f)] for a column of the table. *)
Definition map_column (c : string) (f : cell -> cell) (df : frame) : frame :=
  {| columns := columns df;
     rows := map (update_at (index_of c (columns df)) f) (rows df) |}.

(** [df = df[mask]] *)
Definition filter_rows (keep : list cell -> bool) (df : frame) : frame :=
  {| columns := columns df; rows := filter keep (rows df) |}.

Definition column_values (c : string) (df : frame) : list cell :=
  map (cell_at df c) (rows df).

Definition cell_eqb (a b : cell) : bool :=
  match a, b with
  | Null, Null => true
  | Num x, Num y => Qeq_bool x y
  | Str x, Str y => String.eqb x y
  | Date x, Date y => Z.eqb x y
  | _, _ => false
  end.

(** The order in which pandas sorts the values of a column; values of
    different kinds, which pandas cannot sort, are ordered by kind. *)
Definition cell_ltb (a b : cell) : bool :=
  match a, b with
  | Num x, Num y => negb (Qle_bool y x)
  | Str x, Str y => String.ltb x y
  | Date x, Date y => Z.ltb x y
  | Null, Null => false
  | Null, _ => true
  | Num _, (Str _ | Date _) => true
  | Str _, Date _ => true
  | _, _ => false
  end.

(** [len(df)] *)
Definition nrows (df : frame) : nat := length (rows df).

(** *** Step 1: column names *)

(** The dictionary [column_mapping] built from the configured
    [column_mappings]: for each standard name, the first of its possible
    names that labels a column. *)
Definition column_mapping (column_mappings : list (string * list string))
  (df : frame) : list (string * string) :=
  fold_left
    (fun mapping entry =>
       match find (fun possible_name => has_column possible_name df) (snd entry) with
       | Some possible_name => dict_set mapping possible_name (fst entry)
       | None => mapping
       end)
    column_mappings [].

Definition _standardize_columns (column_mappings : list (string * list string))
  (df : frame) : frame :=
  let mapping := column_mapping column_mappings df in
  {| columns := map (fun c => match dict_get mapping c with
                              | Some standard_name => standard_name
                              | None => c
                              end) (columns df);
     rows := rows df |}.

(** *** Step 2: missing values *)

Fixpoint insert_sorted (q : Q) (l : list Q) : list Q :=
  match l with
  | [] => [q]
  | h :: t => if Qle_bool q h then q :: l else h :: insert_sorted q t
  end.

Definition sort_values (l : list Q) : list Q := fold_right insert_sorted [] l.

(** [Series.median()]: NaN, here [None], without a value. *)
Definition median (l : list Q) : option Q :=
  let sorted := sort_values l in
  let n := length sorted in
  match n with
  | O => None
  | _ =>
      if Nat.even n
      then Some ((nth (n / 2 - 1) sorted 0 + nth (n / 2) sorted 0) / 2)%Q
      else Some (nth (n / 2) sorted 0%Q)
  end.

Definition numbers (l : list cell) : list Q :=
  flat_map (fun c => match c with Num q => [q] | _ => [] end) l.

Definition is_number_or_null (c : cell) : bool :=
  match c with Num _ | Null => true | _ => false end.

(** [select_dtypes(include=[np.number])]: the columns that hold numbers and
    missing values only.  Dropping rows keeps the dtypes, so they are read
    off the table the step receives. *)
Definition numeric_cols (df : frame) : list string :=
  filter (fun c => forallb is_number_or_null (column_values c df)) (columns df).

Definition fillna (v : cell) (c : cell) : cell := if isna c then v else c.

Definition fill_median (df : frame) (c : string) : frame :=
  if existsb isna (column_values c df) then
    match median (numbers (column_values c df)) with
    | Some median_val => map_column c (fillna (Num median_val)) df
    | None => df
    end
  else df.

Definition occurrences (v : cell) (l : list cell) : nat :=
  length (filter (cell_eqb v) l).

(** [Series.mode()[0]]: the least of the most frequent values. *)
Definition mode (l : list cell) : option cell :=
  let present := filter notna l in
  fold_left
    (fun best v =>
       match best with
       | None => Some v
       | Some b =>
           if (occurrences b present <? occurrences v present)%nat then Some v
           else if (occurrences v present =? occurrences b present)%nat
                   && cell_ltb v b
           then Some v
           else best
       end)
    present None.

Definition fill_mode (df : frame) (c : string) : frame :=
  if has_column c df && existsb isna (column_values c df) then
    match mode (column_values c df) with
    | Some mode_val => map_column c (fillna mode_val) df
    | None => map_column c (fillna (Str "Unknown")) df
    end
  else df.

(** The cells of a row under [cols_to_check], every column but
    [source_file]. *)
Definition checked_cells (df : frame) (row : list cell) : list cell :=
  map snd (filter (fun lc => negb (String.eqb (fst lc) "source_file"))
                  (combine (columns df) row)).

(** [isna().mean(axis=1) < 0.5]; the mean over no column is NaN, and the
    test fails. *)
Definition mostly_present (df : frame) (row : list cell) : bool :=
  let cells := checked_cells df row in
  ((0 <? length cells) && (2 * length (filter isna cells) <? length cells))%nat.

Definition _handle_missing_values (df : frame) : frame :=
  let df1 :=
    if has_column "date" df
    then filter_rows (fun row => notna (cell_at df "date" row)) df
    else df in
  let df2 := fold_left fill_median (numeric_cols df) df1 in
  let df3 := fold_left fill_mode ["state"; "district"; "pincode"] df2 in
  filter_rows (mostly_present df3) df3.

(** *** Step 3: dates *)

(** [pd.Timestamp('2009-01-01')] *)
Definition aadhaar_start : Z := 1230768000000000000.

Section Dates.
(** [pd.to_datetime(..., errors='coerce')] on one cell, [None] for NaT, and
    [pd.Timestamp.now()]. *)
Variable to_datetime : cell -> option Z.
Variable now : Z.

Definition coerce_date (c : cell) : cell :=
  match to_datetime c with
  | Some t => Date t
  | None => Null
  end.

Definition date_between (df : frame) (lo hi : option Z) (row : list cell) : bool :=
  match cell_at df "date" row with
  | Date t =>
      match lo with Some l => (l <=? t)%Z | None => true end
      && match hi with Some h => (t <=? h)%Z | None => true end
  | _ => false
  end.

Definition _clean_dates (df : frame) : frame :=
  if negb (has_column "date" df) then df
  else
    let df1 := map_column "date" coerce_date df in
    let df2 := filter_rows (fun row => notna (cell_at df1 "date" row)) df1 in
    let df3 := filter_rows (date_between df2 (Some aadhaar_start) None) df2 in
    filter_rows (date_between df3 None (Some now)) df3.

End Dates.

(** *** Step 4: geographic names *)

Definition state_corrections : list (string * string) :=
  [("DELHI", "NCT of Delhi");
   ("NEW DELHI", "NCT of Delhi");
   ("PONDICHERRY", "Puducherry");
   ("ORISSA", "Odisha");
   ("UTTARANCHAL", "Uttarakhand");
   ("JAMMU & KASHMIR", "Jammu and Kashmir")].

(** [str.title()]: a letter is put in upper case when the character before
    it is not a letter, in lower case when it is. *)
Fixpoint title_from (previous_is_cased : bool) (s : string) : string :=
  match s with
  | EmptyString => EmptyString
  | String c t =>
      String (if previous_is_cased then to_lower c else to_upper c)
             (title_from (is_alpha c) t)
  end.

Definition title (s : string) : string := title_from false s.

(** A [.str] method: missing for a cell that is not a string. *)
Definition str_method (f : string -> string) (c : cell) : cell :=
  match c with
  | Str s => Str (f s)
  | _ => Null
  end.

(** [Series.replace(state_corrections)] *)
Definition replace_state (c : cell) : cell :=
  match c with
  | Str s =>
      match dict_get state_corrections s with
      | Some corrected => Str corrected
      | None => c
      end
  | _ => c
  end.

Fixpoint keep_chars (keep : ascii -> bool) (s : string) : string :=
  match s with
  | EmptyString => EmptyString
  | String c t => if keep c then String c (keep_chars keep t) else keep_chars keep t
  end.

(** [str.replace(r'[^a-zA-Z\s]', '', regex=True)] *)
Definition letters_and_spaces (s : string) : string :=
  keep_chars (fun c => is_alpha c || is_space c) s.

Fixpoint lstrip (s : string) : string :=
  match s with
  | String c t => if is_space c then lstrip t else s
  | EmptyString => EmptyString
  end.

Fixpoint rstrip (s : string) : string :=
  match s with
  | EmptyString => EmptyString
  | String c t =>
      match rstrip t with
      | EmptyString => if is_space c then EmptyString else String c EmptyString
      | t' => String c t'
      end
  end.

Definition strip (s : string) : string := rstrip (lstrip s).

(** The first six characters when they are all digits. *)
Definition six_digits (s : string) : option string :=
  match s with
  | String a (String b (String c (String d (String e (String f _))))) =>
      if forallb is_digit [a; b; c; d; e; f]
      then Some (String a (String b (String c (String d (String e
                   (String f EmptyString))))))
      else None
  | _ => None
  end.

(** [str.extract(r'(\d{6})')[0]]: the leftmost run of six digits. *)
Fixpoint extract_pincode (s : string) : cell :=
  match six_digits s with
  | Some digits => Str digits
  | None =>
      match s with
      | EmptyString => Null
      | String _ t => extract_pincode t
      end
  end.

Section Geography.
(** [astype(str)] on a number and on a timestamp. *)
Variable repr_number : Q -> string.
Variable repr_timestamp : Z -> string.

Definition astype_str (c : cell) : string :=
  match c with
  | Null => "nan"
  | Num q => repr_number q
  | Str s => s
  | Date t => repr_timestamp t
  end.

Definition clean_pincode (c : cell) : cell :=
  extract_pincode (strip (astype_str c)).

Definition _clean_geographic_data (df : frame) : frame :=
  let df1 :=
    if has_column "state" df
    then map_column "state" (fun c => replace_state (str_method title c)) df
    else df in
  let df2 :=
    if has_column "district" df1
    then map_column "district"
           (fun c => str_method letters_and_spaces (str_method title c)) df1
    else df1 in
  if has_column "pincode" df2
  then map_column "pincode" clean_pincode df2
  else df2.

End Geography.

(** *** Step 5: numeric ranges *)

(** [value >= 0]; a comparison with a missing value is false. *)
Definition non_negative (c : cell) : bool :=
  match c with
  | Num q => Qle_bool 0 q
  | _ => false
  end.

Definition clip_upper (bound : Q) (c : cell) : cell :=
  match c with
  | Num q => if Qle_bool q bound then c else Num bound
  | _ => c
  end.

Definition clip_lower (bound : Q) (c : cell) : cell :=
  match c with
  | Num q => if Qle_bool bound q then c else Num bound
  | _ => c
  end.

(** [a <= b * factor] *)
Definition at_most_times (factor : Q) (a b : cell) : bool :=
  match a, b with
  | Num x, Num y => Qle_bool x (y * factor)
  | _, _ => false
  end.

Definition age_columns : list string :=
  ["age_0_18"; "age_19_40"; "age_41_60"; "age_60_plus"].

(** [df[existing_age_cols].sum(axis=1)], missing values skipped *)
Definition age_sum (df : frame) (existing_age_cols : list string) (row : list cell)
  : cell :=
  Num (fold_left Qplus (numbers (map (fun c => cell_at df c row) existing_age_cols)) 0%Q).

Definition _validate_numeric_ranges (df : frame) : frame :=
  let df1 :=
    if has_column "enrolment_count" df then
      map_column "enrolment_count" (clip_upper 1000000)
        (filter_rows (fun row => non_negative (cell_at df "enrolment_count" row)) df)
    else df in
  let df2 :=
    if has_column "update_count" df1 then
      let kept := filter_rows (fun row => non_negative (cell_at df1 "update_count" row))
                              df1 in
      if has_column "enrolment_count" kept then
        filter_rows (fun row => at_most_times 5 (cell_at kept "update_count" row)
                                              (cell_at kept "enrolment_count" row))
                    kept
      else kept
    else df1 in
  let existing_age_cols := filter (fun c => has_column c df2) age_columns in
  match existing_age_cols with
  | [] => df2
  | _ =>
      let df3 := fold_left (fun d c => map_column c (clip_lower 0) d)
                           existing_age_cols df2 in
      if has_column "enrolment_count" df3 then
        filter_rows (fun row => at_most_times (11 # 10)
                                  (age_sum df3 existing_age_cols row)
                                  (cell_at df3 "enrolment_count" row))
                    df3
      else df3
  end.

(** *** Step 6: duplicates *)

Definition duplicate_cols : list string := ["date"; "state"; "district"].

Definition row_key (df : frame) (cols : list string) (row : list cell) : list cell :=
  map (fun c => cell_at df c row) cols.

Fixpoint keys_eqb (a b : list cell) : bool :=
  match a, b with
  | [], [] => true
  | x :: a', y :: b' => cell_eqb x y && keys_eqb a' b'
  | _, _ => false
  end.

(** [drop_duplicates(subset=..., keep='first')]; [seen] holds the keys of
    the rows already passed. *)
Fixpoint drop_duplicates (key : list cell -> list cell) (seen : list (list cell))
  (l : list (list cell)) : list (list cell) :=
  match l with
  | [] => []
  | row :: rest =>
      if existsb (keys_eqb (key row)) seen
      then drop_duplicates key seen rest
      else row :: drop_duplicates key (key row :: seen) rest
  end.

Definition _remove_duplicates (df : frame) : frame :=
  let existing_cols := filter (fun c => has_column c df) duplicate_cols in
  match existing_cols with
  | [] => df
  | _ =>
      {| columns := columns df;
         rows := drop_duplicates (row_key df existing_cols) [] (rows df) |}
  end.

(** *** The pipeline *)

Section Clean.
Variable column_mappings : list (string * list string).
Variable to_datetime : cell -> option Z.
Variable now : Z.
Variable repr_number : Q -> string.
Variable repr_timestamp : Z -> string.

Definition clean (df : frame) : frame :=
  let df := _standardize_columns column_mappings df in
  let df := _handle_missing_values df in
  let df := _clean_dates to_datetime now df in
  let df := _clean_geographic_data repr_number repr_timestamp df in
  let df := _validate_numeric_ranges df in
  _remove_duplicates df.

End Clean.

(** *** Clean tables *)

(** [p] holds of every cell of the column [c], if the table has it. *)
Definition for_column (df : frame) (c : string) (p : list cell -> cell -> bool)
  : bool :=
  negb (has_column c df)
  || forallb (fun row => p row (cell_at df c row)) (rows df).

Definition in_window (now : Z) (c : cell) : bool :=
  match c with
  | Date t => ((aadhaar_start <=? t) && (t <=? now))%Z
  | _ => false
  end.

Definition is_title (c : cell) : bool :=
  match c with
  | Str s => String.eqb (title s) s
  | _ => false
  end.

Definition count_in_bounds (c : cell) : bool :=
  non_negative c
  && match c with Num q => Qle_bool q 1000000 | _ => false end.

Definition update_in_bounds (df : frame) (row : list cell) (c : cell) : bool :=
  non_negative c
  && (negb (has_column "enrolment_count" df)
      || at_most_times 5 c (cell_at df "enrolment_count" row)).

Definition ages_in_bounds (df : frame) (row : list cell) : bool :=
  let existing := filter (fun c => has_column c df) age_columns in
  forallb (fun c => non_negative (cell_at df c row)) existing
  && (negb (has_column "enrolment_count" df)
      || at_most_times (11 # 10) (age_sum df existing row)
                       (cell_at df "enrolment_count" row)).

(** No key is equal to a key before it. *)
Fixpoint no_repeat (keys : list (list cell)) : bool :=
  match keys with
  | [] => true
  | k :: rest => forallb (fun k' => negb (keys_eqb k' k)) rest && no_repeat rest
  end.

Definition distinct_keys (df : frame) : bool :=
  no_repeat (map (row_key df (filter (fun c => has_column c df) duplicate_cols))
                 (rows df)).

(** The clean table of the specification: no missing value, no duplicate
    (date, region, sub-region) key, dates parsed and inside the window,
    region names in title case, counts not negative and within bounds. *)
Definition spec_clean (now : Z) (df : frame) : bool :=
  forallb (forallb notna) (rows df)
  && distinct_keys df
  && for_column df "date" (fun _ => in_window now)
  && for_column df "state" (fun _ => is_title)
  && for_column df "district" (fun _ => is_title)
  && for_column df "enrolment_count" (fun _ => count_in_bounds)
  && for_column df "update_count" (update_in_bounds df)
  && forallb (ages_in_bounds df) (rows df).

(** Every row has a cell for every label, and a table with rows has a
    column other than [source_file]. *)
Definition well_formed (df : frame) : bool :=
  forallb (fun row => (length row =? length (columns df))%nat) (rows df)
  && (match rows df with [] => true | _ => false end
      || existsb (fun c => negb (String.eqb c "source_file")) (columns df)).

(** Step 1 renames nothing: a possible name that labels a column is the
    standard name itself. *)
Definition canonical_names (column_mappings : list (string * list string))
  (df : frame) : bool :=
  forallb (fun entry =>
             forallb (fun possible_name =>
                        negb (has_column possible_name df)
                        || String.eqb possible_name (fst entry))
                     (snd entry))
          column_mappings.

Definition only_letters_and_spaces (c : cell) : bool :=
  match c with
  | Str s => String.eqb (letters_and_spaces s) s
  | _ => false
  end.

Definition six_digit_string (c : cell) : bool :=
  match c with
  | Str s =>
      match six_digits s with
      | Some digits => String.eqb digits s
      | None => false
      end
  | _ => false
  end.

(** What step 4 asks beyond title case. *)
Definition plain_geography (df : frame) : bool :=
  for_column df "district" (fun _ => only_letters_and_spaces)
  && for_column df "pincode" (fun _ => six_digit_string).

(** A parser that keeps what is parsed already and rejects the rest, a
    clock (in September 2026) and a printer, to run the cleaner with. *)
Definition parsed_only (c : cell) : option Z :=
  match c with Date t => Some t | _ => None end.

Definition a_clock : Z := 1790000000000000000.

Definition no_repr {A : Type} (x : A) : string := EmptyString.

Definition usual_mappings : list (string * list string) :=
  [("date", ["date"; "Date"; "DATE"]);
   ("state", ["state"; "State"; "STATE"]);
   ("district", ["district"; "District"]);
   ("enrolment_count", ["enrolment_count"; "Total_Enrolments"]);
   ("update_count", ["update_count"; "Total_Updates"])].

(** One clean record of 2020-01-01 for the district North 24 Parganas. *)
Definition parganas : frame :=
  {| columns := ["date"; "state"; "district"; "enrolment_count"; "update_count"];
     rows := [[Date 1577836800000000000; Str "West Bengal";
               Str "North 24 Parganas"; Num 100; Num 10]] |}.

(** Two clean records with plain district names. *)
Definition plain_records : frame :=
  {| columns := ["date"; "state"; "district"; "pincode"; "enrolment_count";
                 "update_count"; "age_0_18"];
     rows := [[Date 1577836800000000000; Str "West Bengal"; Str "Howrah";
               Str "711101"; Num 100; Num 10; Num 40];
              [Date 1577923200000000000; Str "West Bengal"; Str "Howrah";
               Str "711101"; Num 120; Num 0; Num 50]] |}.

(** Three raw records with whole counts, the last without its enrolment
    count. *)
Definition raw_counts : frame :=
  {| columns := ["date"; "state"; "enrolment_count"; "update_count"];
     rows := [[Date 1577836800000000000; Str "Kerala"; Num 0; Num 0];
              [Date 1577923200000000000; Str "Kerala"; Num 1; Num 1];
              [Date 1578009600000000000; Str "Goa"; Null; Num 1]] |}.

End Cleaner.

(** ** Texts built by the reports *)

Module Text.
Local Open Scope string_scope.

(** [sep.join(l)] *)
Fixpoint join (sep : string) (l : list string) : string :=
  match l with
  | [] => EmptyString
  | [x] => x
  | x :: rest => x ++ sep ++ join sep rest
  end.

(** [str(n)] for a count. *)
Definition str_nat (n : nat) : string :=
  DecimalString.NilEmpty.string_of_uint (Nat.to_uint n).

End Text.

(** ** Risk report ([src/ml_pipeline/risk_scorer.py], the report) *)

Module RiskReport.
Import Numeric RiskScorer Text.
Local Open Scope string_scope.

(** The order of the five levels, from the mildest. *)
Definition level_rank (l : risk_level) : nat :=
  match l with
  | VERY_LOW => 0
  | LOW => 1
  | MEDIUM => 2
  | HIGH => 3
  | CRITICAL => 4
  end.

Definition level_eqb (a b : risk_level) : bool :=
  Nat.eqb (level_rank a) (level_rank b).

(** [risk_df[risk_df['risk_level'] == level]] *)
Definition at_level (level : risk_level) (risk_df : list risk_profile)
  : list risk_profile :=
  filter (fun p => level_eqb (rp_risk_level p) level) risk_df.

Record recommendation : Type := {
  priority : string;
  action : string;
  description : string;
  timeline : string
}.

Definition monitoring : recommendation :=
  {| priority := "LOW";
     action := "Continuous Monitoring";
     description := "Regular monitoring of all states with monthly risk assessment";
     timeline := "Ongoing" |}.

Definition _generate_recommendations (risk_df : list risk_profile)
  : list recommendation :=
  let critical_states := at_level CRITICAL risk_df in
  let immediate :=
    match critical_states with
    | [] => []
    | _ =>
        let state_list := join ", " (map rp_state (firstn 5 critical_states)) in
        [{| priority := "HIGH";
            action := "Immediate Investigation";
            description := "Critical risk detected in "
                           ++ str_nat (length critical_states)
                           ++ " states: " ++ state_list;
            timeline := "48 hours" |}]
    end in
  let high_risk_states := at_level HIGH risk_df in
  let review :=
    match high_risk_states with
    | [] => []
    | _ =>
        [{| priority := "MEDIUM";
            action := "Priority Review";
            description := "High risk detected in "
                           ++ str_nat (length high_risk_states) ++ " states";
            timeline := "1 week" |}]
    end in
  immediate ++ review ++ [monitoring].

Record summary : Type := {
  total_states : nat;
  critical_states : nat;
  high_risk_states : nat;
  average_risk_score : Q;
  highest_risk_state : option string;
  highest_risk_score : option Q
}.

Record report : Type := {
  r_summary : summary;
  r_critical_states : list (string * Q);
  r_recommendations : list recommendation
}.

(** [generate_risk_report]; [None] is the empty dictionary. *)
Definition generate_risk_report (risk_df : list risk_profile) : option report :=
  match risk_df with
  | [] => None
  | first :: _ =>
      Some {| r_summary :=
                {| total_states := length risk_df;
                   critical_states := length (at_level CRITICAL risk_df);
                   high_risk_states := length (at_level HIGH risk_df);
                   average_risk_score := Qmean (map rp_risk_score risk_df);
                   highest_risk_state := Some (rp_state first);
                   highest_risk_score := Some (rp_risk_score first) |};
              r_critical_states :=
                map (fun p => (rp_state p, rp_risk_score p))
                    (at_level CRITICAL risk_df);
              r_recommendations := _generate_recommendations risk_df |}
  end.

(** The order of the sorted table: [p] comes before [q]. *)
Definition score_ge (p q : risk_profile) : Prop :=
  (rp_risk_score q <= rp_risk_score p)%Q.

(** The order of the groups of [groupby('state')]. *)
Definition state_lt (a b : string) : Prop := String.compare a b = Lt.

End RiskReport.

(** ** Feature selection of the detector ([_get_feature_columns]) *)

Module FeatureSelection.
Local Open Scope string_scope.

Definition priority_features : list string :=
  ["enrolment_count_sum"; "mom_growth"; "enrolment_zscore"; "update_ratio";
   "volatility"].

Definition exclude_cols : list string :=
  ["year"; "month"; "quarter"; "state_encoded"].

(** [x in l] *)
Definition mem (x : string) (l : list string) : bool := existsb (String.eqb x) l.

(** The table is read through its labels, in order, and the labels of a
    numeric dtype ([select_dtypes(include=[np.number])]). *)
Definition _get_feature_columns (columns : list string) (is_numeric : string -> bool)
  : list string :=
  let available_features := filter (fun f => mem f columns) priority_features in
  let available_features :=
    if (length available_features <? 3)%nat then
      let numeric_cols := filter is_numeric columns in
      filter (fun col => negb (mem col exclude_cols)) numeric_cols
    else available_features in
  if (10 <? length available_features)%nat
  then firstn 10 available_features
  else available_features.

(** A library model that calls every row normal, with one raw score. *)
Definition all_normal {A : Type} (l : list A) : list (Z * Q) :=
  map (fun _ => (1%Z, (-1 # 2)%Q)) l.

End FeatureSelection.

(** ** Sums over the groups of the aggregation *)

Module Aggregates.
Import Numeric FeatureEngineer.
Local Open Scope Q_scope.

(** The sum of [f] over the records of every group. *)
Definition group_total (f : record -> Q) (groups : list (group_key * list record)) : Q :=
  Qsum (map (fun kg => Qsum (map f (snd kg))) groups).

(** A row with the given aggregated columns and nothing else. *)
Definition bare (cols : list (string * fnum)) : monthly :=
  {| m_state := EmptyString; m_year_month := 0; m_cols := cols;
     mom_growth := None; z_score := None; update_ratio := None |}.

(** The columns [_create_time_features] writes. *)
Definition time_columns : list string :=
  ["year"; "month"; "day_of_week"; "is_weekend"]%string.

(** A whole number. *)
Definition whole (q : Q) : bool := (Qden (Qred q) =? 1)%positive.

(** Counts that double arithmetic adds without rounding: whole numbers,
    none negative, with a total of at most 2^53.  The sum of any of them is
    a whole number of at most 2^53, which a double holds exactly, so on such
    a column the rational sums are the sums pandas computes. *)
Definition exact_counts (c : string) (l : list record) : Prop :=
  (forall r, In r l -> 0 <= num r c /\ whole (num r c) = true) /\
  Qsum (map (fun r => num r c) l) <= 9007199254740992.

End Aggregates.

(** ** Sound column mappings *)

Module SchemaSoundness.
Import Table SchemaNormalizer.
Local Open Scope string_scope.

(** A dictionary of the detection: its keys are distinct, and so are its
    values, which are canonical names out of [allowed]. *)
Definition one_to_one (allowed : list string) (d : list (string * string)) : Prop :=
  NoDup (map fst d) /\ NoDup (dict_values d) /\
  forall v, In v (dict_values d) -> In v allowed.

(** What entitles the column [c] to the canonical name [v]: a pattern of
    [v] found in the label, a sample that parses as dates, or a numeric
    dtype under a label with a count keyword. *)
Definition justified (parses : list cell -> bool) (df : list column)
  (c v : string) : Prop :=
  (exists patterns p,
     In (v, patterns) column_patterns /\ In p patterns /\ re_search p c = true) \/
  (v = "date" /\
   exists col, In col df /\ name col = c /\ sample col <> [] /\
               parses (sample col) = true) \/
  (v = "enrolment_count" /\
   exists col, In col df /\ name col = c /\ numeric col = true /\
               existsb (fun keyword => contains keyword (lower c)) count_keywords
               = true).

Definition sound_mapping (parses : list cell -> bool) (df : list column)
  (d : list (string * string)) : Prop :=
  forall c v, In (c, v) d -> In c (map name df) /\ justified parses df c v.

End SchemaSoundness.

(** ** Tables after a cleaning step *)

Module CleanerPostconditions.
Import Table Cleaner.
Local Open Scope string_scope.

(** Every row has one cell per label. *)
Definition rectangular (df : frame) : bool :=
  forallb (fun row => (length row =? length (columns df))%nat) (rows df).

(** [df'] has the labels of [df], and each of its rows agrees with a row of
    [df] on the columns [cs]. *)
Definition kept (cs : list string) (df df' : frame) : Prop :=
  columns df' = columns df /\
  forall row', In row' (rows df') ->
    exists row, In row (rows df) /\
                forall c, In c cs -> cell_at df c row' = cell_at df c row.

(** The column [c] holds values that satisfy [p] only. *)
Definition column_holds (p : cell -> bool) (c : string) (df : frame) : Prop :=
  forall row, In row (rows df) -> p (cell_at df c row) = true.

(** A missing value, or a text of letters and white space. *)
Definition letters_or_missing (c : cell) : bool :=
  match c with
  | Null => true
  | Str s => forallb (fun a => is_alpha a || is_space a) (list_ascii_of_string s)
  | _ => false
  end.

(** A missing value, or a text of six digits. *)
Definition pincode_or_missing (c : cell) : bool :=
  match c with
  | Null => true
  | Str s => (String.length s =? 6)%nat && forallb is_digit (list_ascii_of_string s)
  | _ => false
  end.

(** The bound on the updates of every row. *)
Definition updates_bounded (df : frame) : Prop :=
  forall row, In row (rows df) ->
    update_in_bounds df row (cell_at df "update_count" row) = true.


(** A table with some missing region names and districts. *)
Definition patchy : frame :=
  {| columns := ["date"; "state"; "district"; "enrolment_count"];
     rows := [[Date 1577836800000000000; Str "Kerala"; Null; Num 10];
              [Date 1577923200000000000; Null; Null; Num 12];
              [Date 1578009600000000000; Str "Kerala"; Str "Idukki"; Null]] |}.

End CleanerPostconditions.

(** ** Age columns of the feature extractor
       ([src/ml_pipeline/universal_feature_extractor.py]) *)

Module Demographics.
Import Table Text.
Local Open Scope string_scope.

(** The loop of [_extract_demographic_features] that collects
    [age_columns]. *)
Definition age_columns (columns : list string) : list string :=
  filter (fun col =>
            contains "age" (lower col)
            || existsb (fun i => contains (str_nat i) col) (seq 0 100))
         columns.

(** The label holds a decimal digit. *)
Definition has_digit (col : string) : bool :=
  existsb is_digit (list_ascii_of_string col).

End Demographics.

(* ===================================================================== *)
(** * Part II: properties                                                 *)
(* ===================================================================== *)

(** ** Rational sums *)

Section RationalSums.
Import Numeric.
Local Open Scope Q_scope.

Lemma fold_Qplus_acc (l : list Q) (a : Q) : fold_left Qplus l a == a + Qsum l.
Proof.
  unfold Qsum. revert a.
  induction l as [|x l IH]; intro a; simpl.
  - ring.
  - rewrite IH, (IH (0 + x)). ring.
Qed.

Lemma Qsum_cons (x : Q) (l : list Q) : Qsum (x :: l) == x + Qsum l.
Proof. unfold Qsum at 1. simpl. rewrite fold_Qplus_acc. ring. Qed.

Lemma Qsum_nonneg (l : list Q) : (forall x, In x l -> 0 <= x) -> 0 <= Qsum l.
Proof.
  induction l as [|x l IH]; intro H.
  - unfold Qsum. simpl. lra.
  - rewrite Qsum_cons.
    assert (0 <= x) by (apply H; now left).
    assert (0 <= Qsum l) by (apply IH; intros; apply H; now right).
    lra.
Qed.

Lemma Qsum_zero (l : list Q) :
  (forall x, In x l -> 0 <= x) -> Qsum l <= 0 -> forall x, In x l -> x == 0.
Proof.
  induction l as [|y l IH]; intros Hpos Hle x Hin.
  - destruct Hin.
  - rewrite Qsum_cons in Hle.
    assert (0 <= y) by (apply Hpos; now left).
    assert (0 <= Qsum l) by (apply Qsum_nonneg; intros; apply Hpos; now right).
    destruct Hin as [<-|Hin].
    + lra.
    + apply IH; auto.
      * intros; apply Hpos; now right.
      * lra.
Qed.

End RationalSums.

(** ** Risk scorer: grouping, components and weights *)

Section RiskScorerFacts.
Import Numeric RiskScorer.
Local Open Scope Q_scope.

Lemma insert_group_sound r groups k g :
  In (k, g) (insert_group r groups) ->
  (In (k, g) groups) \/
  (k = state r /\ ((g = [r]) \/ exists g0, In (k, g0) groups /\ g = g0 ++ [r])).
Proof.
  induction groups as [|[k0 g0] rest IH]; simpl.
  - intros [H|[]]. inversion H; subst. right; auto.
  - destruct (String.compare (state r) k0) eqn:E; simpl.
    + apply String.compare_eq_iff in E. subst k0.
      intros [H|H].
      * inversion H; subst. right. split; auto. right. exists g0. auto.
      * left; now right.
    + intros [H|[H|H]].
      * inversion H; subst. right; auto.
      * left; now left.
      * left; now right.
    + intros [H|H].
      * left; now left.
      * destruct (IH H) as [H1|[H1 [H2|[g1 [H2 H3]]]]].
        -- left; now right.
        -- right; auto.
        -- right. split; auto. right. exists g1. auto.
Qed.

Lemma insert_group_complete r groups :
  (exists g, In (state r, g) (insert_group r groups) /\ In r g) /\
  (forall k g, In (k, g) groups ->
     exists g', In (k, g') (insert_group r groups) /\ forall x, In x g -> In x g').
Proof.
  induction groups as [|[k0 g0] rest [IH1 IH2]]; simpl.
  - split.
    + exists [r]. split; [now left | now left].
    + intros k g [].
  - destruct (String.compare (state r) k0) eqn:E.
    + apply String.compare_eq_iff in E. subst k0. split.
      * exists (g0 ++ [r]). split; [now left|]. apply in_or_app. right. now left.
      * intros k g [H|H].
        -- inversion H; subst. exists (g ++ [r]). split; [now left|].
           intros x Hx. apply in_or_app. now left.
        -- exists g. split; [now right | auto].
    + split.
      * exists [r]. split; [now left | now left].
      * intros k g H. exists g. split; [now right | auto].
    + split.
      * destruct IH1 as [g [H1 H2]]. exists g. split; [now right | auto].
      * intros k g [H|H].
        -- exists g. split; [left; auto | auto].
        -- destruct (IH2 k g H) as [g' [H1 H2]]. exists g'. split; [now right | auto].
Qed.

(** Every group holds rows of the table, all of the group's state. *)
Lemma groupby_state_sound l k g :
  In (k, g) (groupby_state l) ->
  g <> [] /\ forall r, In r g -> In r l /\ state r = k.
Proof.
  unfold groupby_state.
  assert (G : forall l acc,
             (forall k g, In (k, g) acc ->
                g <> [] /\ forall r, In r g -> In r l /\ state r = k) ->
             forall l' k g,
               In (k, g) (fold_left (fun groups r => insert_group r groups) l' acc) ->
               g <> [] /\ forall r, In r g -> In r (l ++ l') /\ state r = k).
  { clear. intros l acc Hacc l'. revert l acc Hacc.
    induction l' as [|x l' IH]; intros l acc Hacc k g H; simpl in H.
    - rewrite app_nil_r. auto.
    - replace (l ++ x :: l') with ((l ++ [x]) ++ l')
        by (rewrite <- app_assoc; reflexivity).
      apply (IH (l ++ [x]) (insert_group x acc)); auto.
      intros k1 g1 H1.
      destruct (insert_group_sound _ _ _ _ H1) as [H2|[H2 [H3|[g2 [H3 H4]]]]].
      + destruct (Hacc _ _ H2) as [Hne Hg]. split; auto.
        intros r Hr. destruct (Hg r Hr). split; auto.
        apply in_or_app; now left.
      + subst. split; [discriminate|].
        intros r [<-|[]]. split; auto. apply in_or_app; right; now left.
      + subst. destruct (Hacc _ _ H3) as [Hne Hg]. split.
        * destruct g2; discriminate.
        * intros r Hr. apply in_app_or in Hr. destruct Hr as [Hr|[<-|[]]].
          -- destruct (Hg r Hr). split; auto. apply in_or_app; now left.
          -- split; auto. apply in_or_app; right; now left. }
  intro H. apply (G [] [] ltac:(intros ? ? []) l k g H).
Qed.

(** Every row of the table is in the group of its state. *)
Lemma groupby_state_complete l r :
  In r l -> exists g, In (state r, g) (groupby_state l) /\ In r g.
Proof.
  unfold groupby_state.
  assert (G : forall l' acc,
             (In r l' \/ exists g, In (state r, g) acc /\ In r g) ->
             exists g,
               In (state r, g) (fold_left (fun groups x => insert_group x groups) l' acc)
               /\ In r g).
  { clear. induction l' as [|x l' IH]; intros acc H; simpl.
    - destruct H as [[]|H]; auto.
    - apply IH. destruct H as [[->|H]|[g [H1 H2]]].
      + right. apply (insert_group_complete r acc).
      + now left.
      + right. destruct (insert_group_complete x acc) as [_ Hk].
        destruct (Hk _ _ H1) as [g' [H3 H4]]. exists g'. auto. }
  intro H. apply G. now left.
Qed.

Lemma np_clip_bounds v lo hi :
  lo <= hi -> lo <= np_clip v lo hi <= hi.
Proof.
  intro H. destruct v; simpl; try lra.
  split.
  - apply Q.min_glb; [apply Q.le_max_r | assumption].
  - apply Q.le_min_r.
Qed.

Lemma normalize_score_bounds v t : 0 <= _normalize_score v t <= 1.
Proof.
  unfold _normalize_score.
  destruct (isna v); [lra|].
  destruct (normalization_ranges t) as [lo hi] eqn:E.
  assert (Hr : lo == 0 /\ 0 < hi).
  { destruct t; inversion E; subst; split; reflexivity. }
  destruct Hr as [Hlo Hhi].
  destruct (Qeq_bool (hi - lo) 0); [lra|].
  assert (Hb : lo <= np_clip v lo hi <= hi) by (apply np_clip_bounds; lra).
  split.
  - apply Qle_shift_div_l; lra.
  - apply Qle_shift_div_r; lra.
Qed.

Lemma entry_set_unit e c x :
  unit_entry e -> 0 <= x <= 1 -> unit_entry (entry_set e c x).
Proof.
  intros He Hx c' v. unfold entry_set.
  destruct (component_eqb c c').
  - intro H; inversion H; subst; assumption.
  - apply He.
Qed.

Lemma entry_of_group_unit sqrt df g : unit_entry (entry_of_group sqrt df g).
Proof.
  unfold entry_of_group, update_step, consistency_step, volatility_step,
    severity_step, frequency_step, volume_step.
  repeat match goal with
         | |- unit_entry (if ?b then _ else _) => destruct b
         | |- unit_entry (entry_set _ _ (1 - _normalize_score ?v ?t)) =>
             apply entry_set_unit;
             [| pose proof (normalize_score_bounds v t); lra]
         | |- unit_entry (entry_set _ _ _) =>
             apply entry_set_unit; [| apply normalize_score_bounds]
         end;
  intros c v H; discriminate.
Qed.

Lemma risk_rows_unit sqrt df s r :
  In (s, r) (risk_rows (_calculate_risk_components sqrt df)) ->
  exists e, In (s, e) (risk_data sqrt df) /\ r = fillna0 e /\
            forall c, 0 <= r c <= 1.
Proof.
  simpl. intro H. apply in_map_iff in H.
  destruct H as [[s' e] [H1 H2]]. simpl in H1. inversion H1; subst.
  exists e. split; [assumption|]. split; [reflexivity|].
  intro c. unfold fillna0.
  destruct (e c) as [v|] eqn:E; [|lra].
  unfold risk_data in H2. apply in_map_iff in H2.
  destruct H2 as [[k g] [H3 _]]. simpl in H3. inversion H3; subst.
  eapply entry_of_group_unit; eauto.
Qed.

Lemma combine_map_fst {A B C : Type} (f : A * B -> C) (l1 : list A) (l2 : list B) :
  length l1 = length l2 ->
  combine (map f (combine l1 l2)) l2 = map (fun p => (f p, snd p)) (combine l1 l2).
Proof.
  revert l2. induction l1 as [|a l1 IH]; intros [|b l2] H; simpl in *;
    try discriminate; auto.
  f_equal. apply IH. congruence.
Qed.

Lemma weight_fold weights rf cs acc tot :
  length acc = length (risk_rows rf) ->
  fold_left (weight_step weights rf) cs (acc, tot) =
  (map (fun p => fold_left (fun x c => x + snd (snd p) c * weights c)
                           (filter (columns rf) cs) (fst p))
       (combine acc (risk_rows rf)),
   fold_left (fun t c => t + weights c) (filter (columns rf) cs) tot).
Proof.
  revert acc tot. induction cs as [|c cs IH]; intros acc tot Hlen; simpl.
  - f_equal. clear - Hlen. revert Hlen. generalize (risk_rows rf) as l.
    induction acc as [|a acc IH]; intros [|b l] H; simpl in *;
      try discriminate; auto.
    f_equal. apply IH. congruence.
  - unfold weight_step at 2. destruct (columns rf c) eqn:E; simpl.
    + rewrite IH.
      * rewrite combine_map_fst by assumption.
        rewrite map_map. reflexivity.
      * rewrite length_map, length_combine, Hlen. apply Nat.min_id.
    + apply IH. assumption.
Qed.

Lemma fold_weighted weights r cs a :
  fold_left (fun x c => x + r c * weights c) cs a == a + weighted weights cs r.
Proof.
  unfold weighted. revert a. induction cs as [|c cs IH]; intro a; simpl.
  - unfold Qsum; simpl. ring.
  - rewrite IH, Qsum_cons. ring.
Qed.

Lemma fold_total (weights : component -> Q) cs a :
  fold_left (fun t c => t + weights c) cs a == a + Qsum (map weights cs).
Proof.
  revert a. induction cs as [|c cs IH]; intro a; simpl.
  - unfold Qsum; simpl. ring.
  - rewrite IH, Qsum_cons. ring.
Qed.

(** What [_apply_weights] gives each row: the weighted sum over the columns
    of the table, divided by their total weight when that is positive. *)
Lemma apply_weights_row configured rf sr s :
  In (sr, s) (combine (risk_rows rf) (_apply_weights configured rf)) ->
  let present := filter (columns rf) components in
  let weights := merged_weights configured in
  let total := Qsum (map weights present) in
  s == if negb (Qle_bool total 0)
       then weighted weights present (snd sr) / total
       else weighted weights present (snd sr).
Proof.
  intros H present weights total.
  unfold _apply_weights in H. fold weights in H.
  rewrite weight_fold in H by (now rewrite length_map).
  fold present in H.
  set (tot := fold_left (fun t c => t + weights c) present 0) in H.
  assert (Ht : tot == total).
  { unfold tot, total. rewrite fold_total. ring. }
  assert (Hb : Qle_bool tot 0 = Qle_bool total 0).
  { destruct (Qle_bool tot 0) eqn:E1, (Qle_bool total 0) eqn:E2; auto.
    - apply Qle_bool_iff in E1. rewrite Ht in E1.
      apply Qle_bool_iff in E1. congruence.
    - apply Qle_bool_iff in E2. rewrite <- Ht in E2.
      apply Qle_bool_iff in E2. congruence. }
  rewrite Hb in H.
  assert (Hrow : forall (l : list (string * (component -> Q))) (f : Q -> Q),
             (forall x y, x == y -> f x == f y) ->
             In (sr, s)
                (combine l
                   (map f
                      (map (fun p => fold_left
                                       (fun x c => x + snd (snd p) c * weights c)
                                       present (fst p))
                           (combine (map (fun _ => 0) l) l)))) ->
             s == f (weighted weights present (snd sr))).
  { clear. intros l f Hf. induction l as [|a l IH]; simpl.
    - intros [].
    - intros [H|H]; [|auto].
      inversion H; subst. apply Hf. rewrite fold_weighted. ring. }
  destruct (negb (Qle_bool total 0)).
  - apply (Hrow _ (fun x => x / tot)) in H.
    + rewrite H, Ht. reflexivity.
    + intros x y Hxy. now rewrite Hxy.
  - rewrite <- (map_id (map _ (combine _ _))) in H.
    apply (Hrow _ (fun x => x)) in H; auto.
Qed.

Lemma insert_desc_in p q l : In q (insert_desc p l) <-> q = p \/ In q l.
Proof.
  induction l as [|h t IH]; simpl.
  - intuition.
  - destruct (Qle_bool (rp_risk_score p) (rp_risk_score h)); simpl.
    + rewrite IH. intuition.
    + intuition.
Qed.

Lemma sort_desc_in q l : In q (sort_desc l) <-> In q l.
Proof.
  unfold sort_desc.
  assert (G : forall l acc,
             In q (fold_left (fun acc p => insert_desc p acc) l acc)
             <-> In q l \/ In q acc).
  { clear. induction l as [|p l IH]; intro acc; simpl.
    - intuition.
    - rewrite IH, insert_desc_in. intuition. }
  rewrite G. simpl. intuition.
Qed.

(** The rows of the scorer's output, seen from the table of components. *)
Lemma calculate_risk_scores_in sqrt configured df p :
  In p (calculate_risk_scores sqrt configured df) ->
  exists sr s,
    In (sr, s) (combine (risk_rows (_calculate_risk_components sqrt df))
                        (_apply_weights configured (_calculate_risk_components sqrt df)))
    /\ p = profile_of sr s.
Proof.
  unfold calculate_risk_scores.
  destruct (rows df); [intros []|].
  destruct (negb (has_state df)); [intros []|].
  rewrite sort_desc_in, in_map_iff.
  intros [[sr s] [H1 H2]]. exists sr, s. auto.
Qed.

Lemma hd_in {A : Type} (d : A) (l : list A) : l <> [] -> In (hd d l) l.
Proof. destruct l; [congruence | intros _; now left]. Qed.

Lemma columns_present sqrt df c :
  In c (filter (columns (_calculate_risk_components sqrt df)) components) <->
  exists s e, In (s, e) (risk_data sqrt df) /\ e c <> None.
Proof.
  rewrite filter_In. simpl. rewrite existsb_exists. split.
  - intros [_ [[s e] [H1 H2]]]. exists s, e. split; auto.
    simpl in H2. destruct (e c); [discriminate | discriminate].
  - intros [s [e [H1 H2]]]. split.
    + destruct c; simpl; auto 10.
    + exists (s, e). split; auto. simpl. destruct (e c); [reflexivity | congruence].
Qed.

(** C1 (amended).  The composite score of a region is the weighted sum of
    its six components over the components that are columns of the risk
    table, that is, that at least one region of the batch has, divided by the
    sum of the weights of those columns (default weights with the configured
    overrides).  A component that this region lacks while another region has
    it counts as 0 in the numerator and keeps its weight in the
    denominator. *)
Theorem risk_score_renormalised_over_table_columns
  (sqrt : Q -> Q) (configured : component -> option Q) (df : frame)
  (p : risk_profile) :
  let present := filter (columns (_calculate_risk_components sqrt df)) components in
  let weights := merged_weights configured in
  In p (calculate_risk_scores sqrt configured df) ->
  0 < Qsum (map weights present) ->
  (forall c, In c present <->
             exists s e, In (s, e) (risk_data sqrt df) /\ e c <> None) /\
  exists e,
    In (rp_state p, e) (risk_data sqrt df) /\
    rp_risk_score p ==
      Qsum (map (fun c => fillna0 e c * weights c) present)
      / Qsum (map weights present).
Proof.
  intros present weights Hin Hpos. split.
  - intro c. apply columns_present.
  - apply calculate_risk_scores_in in Hin.
    destruct Hin as [[s r] [score [Hc ->]]]. simpl.
    pose proof (apply_weights_row _ _ _ _ Hc) as Hs. cbv zeta in Hs.
    fold present weights in Hs.
    apply in_combine_l in Hc.
    destruct (risk_rows_unit _ _ _ _ Hc) as [e [He [-> _]]].
    exists e. split; [assumption|].
    destruct (Qle_bool (Qsum (map weights present)) 0) eqn:E.
    + apply Qle_bool_iff in E. lra.
    + exact Hs.
Qed.

Lemma risk_score_renormalised_witness :
  let p := hd (profile_of (EmptyString, fun _ => 0) 0)
              (calculate_risk_scores Qsqrt no_override two_regions) in
  exists e,
    In (rp_state p, e) (risk_data Qsqrt two_regions) /\
    rp_risk_score p ==
      (fillna0 e anomaly_frequency_risk * (25 # 100)
       + fillna0 e consistency_risk * (10 # 100)) / (35 # 100).
Proof.
  intro p.
  destruct (risk_score_renormalised_over_table_columns
              Qsqrt no_override two_regions p) as [_ [e [H1 H2]]].
  - apply hd_in. vm_compute. discriminate.
  - vm_compute. reflexivity.
  - exists e. split; [exact H1|].
    assert (Hf : filter (columns (_calculate_risk_components Qsqrt two_regions))
                        components
                 = [anomaly_frequency_risk; consistency_risk])
      by (vm_compute; reflexivity).
    rewrite Hf in H2. rewrite H2.
    unfold Qsum, merged_weights, no_override. simpl. field.
Defined.

(** C1, as the specification states it, fails on [two_regions]: region "B"
    has the frequency component only, so its score would be
    [0.25 * 1 / 0.25 = 1]; the code gives [(0.25 * 1 + 0.10 * 0) / 0.35]. *)
Lemma risk_score_not_renormalised_per_region :
  map (fun p => (rp_state p, Qred (rp_risk_score p)))
      (calculate_risk_scores Qsqrt no_override two_regions)
  = [("B"%string, 5 # 7); ("A"%string, 0)]
  /\ map (fun se => (fst se, Qred (spec_risk_score default_weights (snd se))))
         (risk_data Qsqrt two_regions)
     = [("A"%string, 0); ("B"%string, 1)]
  /\ ~ (5 # 7 == 1).
Proof.
  split; [vm_compute; reflexivity|].
  split; [vm_compute; reflexivity|].
  intro H. discriminate H.
Qed.

Lemma Qle_bool_false x y : Qle_bool x y = false -> y < x.
Proof.
  intro H. apply Qnot_le_lt. intro Hle.
  apply Qle_bool_iff in Hle. congruence.
Qed.

Lemma weighted_bounds weights cs r :
  (forall c, 0 <= r c <= 1) -> (forall c, 0 <= weights c) ->
  0 <= weighted weights cs r <= Qsum (map weights cs).
Proof.
  intros Hr Hw. unfold weighted.
  induction cs as [|c cs IH]; simpl.
  - unfold Qsum; simpl. lra.
  - rewrite !Qsum_cons.
    pose proof (Hr c) as H1. pose proof (Hw c) as H2.
    assert (0 <= r c * weights c) by (apply Qmult_le_0_compat; lra).
    assert (r c * weights c <= weights c).
    { rewrite <- (Qmult_1_l (weights c)) at 2.
      apply Qmult_le_compat_r; lra. }
    lra.
Qed.

Lemma weighted_zero weights cs r :
  (forall c, 0 <= weights c) -> Qsum (map weights cs) <= 0 ->
  weighted weights cs r == 0.
Proof.
  intros Hw Hz. unfold weighted.
  assert (Hall : forall c, In c cs -> weights c == 0).
  { intros c Hc. apply (Qsum_zero (map weights cs)); auto.
    - intros x Hx. apply in_map_iff in Hx. destruct Hx as [c' [<- _]]. apply Hw.
    - apply in_map. assumption. }
  clear Hz. induction cs as [|c cs IH]; simpl.
  - reflexivity.
  - rewrite Qsum_cons, IH.
    + rewrite (Hall c) by now left. ring.
    + intros; apply Hall; now right.
Qed.

Lemma merged_weights_nonneg configured :
  (forall c w, configured c = Some w -> 0 <= w) ->
  forall c, 0 <= merged_weights configured c.
Proof.
  intros H c. unfold merged_weights.
  destruct (configured c) as [w|] eqn:E.
  - eapply H; eauto.
  - destruct c; simpl; lra.
Qed.

Lemma categorize_thresholds score :
  (_categorize_risk_level score = CRITICAL <-> 8 # 10 <= score) /\
  (_categorize_risk_level score = HIGH <-> 6 # 10 <= score < 8 # 10) /\
  (_categorize_risk_level score = MEDIUM <-> 4 # 10 <= score < 6 # 10) /\
  (_categorize_risk_level score = LOW <-> 2 # 10 <= score < 4 # 10) /\
  (_categorize_risk_level score = VERY_LOW <-> score < 2 # 10).
Proof.
  unfold _categorize_risk_level.
  destruct (Qle_bool (8 # 10) score) eqn:E8;
    [apply Qle_bool_iff in E8 | apply Qle_bool_false in E8];
  (destruct (Qle_bool (6 # 10) score) eqn:E6;
    [apply Qle_bool_iff in E6 | apply Qle_bool_false in E6]);
  (destruct (Qle_bool (4 # 10) score) eqn:E4;
    [apply Qle_bool_iff in E4 | apply Qle_bool_false in E4]);
  (destruct (Qle_bool (2 # 10) score) eqn:E2;
    [apply Qle_bool_iff in E2 | apply Qle_bool_false in E2]);
  repeat split; intros; try discriminate; try reflexivity; try lra.
Qed.

(** C2 (amended).  When no configured weight is negative (the defaults are
    not), every row of the scorer's output has its [risk_score] in [[0,1]]
    and carries the level of its score; the levels partition the scores: at
    least 0.8 is CRITICAL, at least 0.6 HIGH, at least 0.4 MEDIUM, at least
    0.2 LOW, anything below VERY_LOW, so a score has exactly one level. *)
Theorem risk_score_in_unit_interval_and_levelled
  (sqrt : Q -> Q) (configured : component -> option Q) (df : frame)
  (p : risk_profile) :
  (forall c w, configured c = Some w -> 0 <= w) ->
  In p (calculate_risk_scores sqrt configured df) ->
  0 <= rp_risk_score p <= 1 /\
  rp_risk_level p = _categorize_risk_level (rp_risk_score p) /\
  forall score,
    (_categorize_risk_level score = CRITICAL <-> 8 # 10 <= score) /\
    (_categorize_risk_level score = HIGH <-> 6 # 10 <= score < 8 # 10) /\
    (_categorize_risk_level score = MEDIUM <-> 4 # 10 <= score < 6 # 10) /\
    (_categorize_risk_level score = LOW <-> 2 # 10 <= score < 4 # 10) /\
    (_categorize_risk_level score = VERY_LOW <-> score < 2 # 10).
Proof.
  intros Hcfg Hin.
  apply calculate_risk_scores_in in Hin.
  destruct Hin as [[s r] [score [Hc ->]]]. simpl.
  split; [|split; [reflexivity | apply categorize_thresholds]].
  pose proof (apply_weights_row _ _ _ _ Hc) as Hs. cbv zeta in Hs.
  apply in_combine_l in Hc.
  destruct (risk_rows_unit _ _ _ _ Hc) as [e [_ [_ Hunit]]].
  pose proof (merged_weights_nonneg configured Hcfg) as Hw.
  set (present := filter (columns (_calculate_risk_components sqrt df)) components) in *.
  pose proof (weighted_bounds (merged_weights configured) present r Hunit Hw) as Hb.
  simpl snd in Hs.
  destruct (Qle_bool (Qsum (map (merged_weights configured) present)) 0) eqn:E;
    simpl negb in Hs; cbv iota in Hs.
  - apply Qle_bool_iff in E.
    rewrite Hs, (weighted_zero _ _ _ Hw E). lra.
  - apply Qle_bool_false in E. rewrite Hs. split.
    + apply Qle_shift_div_l; lra.
    + apply Qle_shift_div_r; lra.
Qed.

Lemma risk_score_in_unit_interval_witness :
  let p := hd (profile_of (EmptyString, fun _ => 0) 0)
              (calculate_risk_scores Qsqrt no_override detector_output) in
  0 <= rp_risk_score p <= 1 /\
  rp_risk_level p = _categorize_risk_level (rp_risk_score p).
Proof.
  intro p.
  destruct (risk_score_in_unit_interval_and_levelled
              Qsqrt no_override detector_output p) as [H1 [H2 _]].
  - intros c w H. discriminate H.
  - apply hd_in. vm_compute. discriminate.
  - split; assumption.
Defined.

(** C2, as the specification states it, fails under [negative_override]:
    the weights are read from the configuration as they are, and on
    [two_regions] the columns of the risk table are [anomaly_frequency_risk]
    (weight -0.25) and [consistency_risk] (weight 0.10).  Their sum is not
    positive, so the scores are not divided by it, and region "B", flagged
    on its only month, gets the score -0.25, below the unit interval. *)
Lemma risk_score_negative_under_negative_weight :
  map (fun p => (rp_state p, Qred (rp_risk_score p), rp_risk_level p))
      (calculate_risk_scores Qsqrt negative_override two_regions)
  = [("A"%string, 0, VERY_LOW); ("B"%string, (-1) # 4, VERY_LOW)] /\
  ~ (forall p, In p (calculate_risk_scores Qsqrt negative_override two_regions) ->
               0 <= rp_risk_score p <= 1).
Proof.
  split; [vm_compute; reflexivity|].
  intro H.
  specialize (H (nth 1 (calculate_risk_scores Qsqrt negative_override two_regions)
                     (profile_of (EmptyString, fun _ => 0) 0))).
  assert (Hin : In (nth 1 (calculate_risk_scores Qsqrt negative_override two_regions)
                        (profile_of (EmptyString, fun _ => 0) 0))
                   (calculate_risk_scores Qsqrt negative_override two_regions)).
  { apply nth_In. vm_compute. lia. }
  destruct (H Hin) as [H0 _]. vm_compute in H0. apply H0. reflexivity.
Qed.

Lemma entry_set_other e c x c' :
  component_eqb c c' = false -> entry_set e c x c' = e c'.
Proof. unfold entry_set. now intros ->. Qed.

Lemma severity_of_unflagged_group sqrt df g :
  has_anomaly_score df = true ->
  (forall r, In r g -> flagged r = false) ->
  exists v, entry_of_group sqrt df g anomaly_severity_risk = Some v /\ v == 0.
Proof.
  intros Hcol Hg.
  assert (Hf : filter flagged g = []).
  { induction g as [|r g IH]; simpl; auto.
    rewrite (Hg r) by now left. apply IH. intros; apply Hg; now right. }
  unfold entry_of_group, update_step, consistency_step, volatility_step.
  exists (_normalize_score (Fin 0) severity).
  split; [| vm_compute; reflexivity].
  repeat match goal with
         | |- (if ?b then _ else _) _ = _ => destruct b
         | |- entry_set _ _ _ _ = _ =>
             rewrite entry_set_other by reflexivity
         end;
  unfold severity_step; rewrite Hcol, Hf; reflexivity.
Qed.

(** C7.  When the table has the columns [is_anomaly] and [anomaly_score]
    and no row of a region is flagged ([is_anomaly] is not 1 on any of them,
    in particular when it is 0 on all), the region has a risk entry, and its
    [anomaly_severity_risk] is the number 0: the mean over no row is NaN
    and the code replaces it by 0 before normalizing. *)
Theorem no_flagged_rows_severity_zero
  (sqrt : Q -> Q) (configured : component -> option Q) (df : frame) (s : string) :
  has_is_anomaly df = true ->
  has_anomaly_score df = true ->
  (exists r, In r (rows df) /\ state r = s) ->
  (forall r, In r (rows df) -> state r = s -> flagged r = false) ->
  (exists e, In (s, e) (risk_data sqrt df)) /\
  (forall e, In (s, e) (risk_data sqrt df) ->
     exists v, e anomaly_severity_risk = Some v /\ v == 0) /\
  (forall p, In p (calculate_risk_scores sqrt configured df) -> rp_state p = s ->
     rp_component p anomaly_severity_risk == 0).
Proof.
  intros _ Hcol [r0 [Hr0 Hs0]] Hflag.
  assert (Hentries : forall e, In (s, e) (risk_data sqrt df) ->
                       exists v, e anomaly_severity_risk = Some v /\ v == 0).
  { intros e He. unfold risk_data in He. apply in_map_iff in He.
    destruct He as [[k g] [H1 H2]]. simpl in H1. inversion H1; subst.
    apply severity_of_unflagged_group; auto.
    intros r Hr. destruct (groupby_state_sound _ _ _ H2) as [_ Hg].
    destruct (Hg r Hr). auto. }
  split; [|split; [exact Hentries|]].
  - destruct (groupby_state_complete _ _ Hr0) as [g [Hg _]].
    exists (entry_of_group sqrt df g). unfold risk_data.
    apply in_map_iff. exists (state r0, g). subst s. auto.
  - intros p Hp Hst.
    apply calculate_risk_scores_in in Hp.
    destruct Hp as [[s' r] [score [Hc ->]]]. simpl in *. subst s'.
    apply in_combine_l in Hc.
    destruct (risk_rows_unit _ _ _ _ Hc) as [e [He [-> _]]].
    destruct (Hentries e He) as [v [Hv Hz]].
    unfold fillna0. rewrite Hv. exact Hz.
Qed.

Lemma no_flagged_rows_severity_zero_witness :
  (exists e, In ("Kerala"%string, e) (risk_data Qsqrt detector_output)) /\
  (forall p, In p (calculate_risk_scores Qsqrt no_override detector_output) ->
     rp_state p = "Kerala"%string ->
     rp_component p anomaly_severity_risk == 0).
Proof.
  destruct (no_flagged_rows_severity_zero
              Qsqrt no_override detector_output "Kerala") as [H1 [_ H3]].
  - reflexivity.
  - reflexivity.
  - exists (scored_row "Kerala" "2023-01" (day 0) 0 (4 # 10)).
    split; [now left | reflexivity].
  - intros r Hr Hs. simpl in Hr.
    destruct Hr as [<-|[<-|[<-|[<-|[]]]]]; try reflexivity; discriminate Hs.
  - split; assumption.
Defined.

End RiskScorerFacts.

(** ** Anomaly detector: confidence buckets *)

Section AnomalyDetectorFacts.
Import Numeric AnomalyDetector.
Local Open Scope Q_scope.

Lemma Qsum_map_ext {A : Type} (f g : A -> Q) (l : list A) :
  (forall x, In x l -> f x == g x) -> Qsum (map f l) == Qsum (map g l).
Proof.
  induction l as [|a l IH]; intro H; simpl.
  - reflexivity.
  - assert (Ha : f a == g a) by (apply H; now left).
    assert (Hl : Qsum (map f l) == Qsum (map g l))
      by (apply IH; intros; apply H; now right).
    rewrite !Qsum_cons, Hl, Ha. reflexivity.
Qed.

Lemma Qsum_constant (c : Q) (l : list Q) :
  (forall x, In x l -> x == c) -> Qsum l == Qlen l * c.
Proof.
  unfold Qlen. induction l as [|a l IH]; intro H.
  - unfold Qsum; simpl. ring.
  - assert (Ha : a == c) by (apply H; now left).
    assert (Hl : Qsum l == inject_Z (Z.of_nat (length l)) * c)
      by (apply IH; intros; apply H; now right).
    rewrite Qsum_cons, Hl.
    cbn [length]. rewrite Nat2Z.inj_succ. unfold Z.succ.
    rewrite inject_Z_plus, Ha. ring.
Qed.

Lemma Qlen_pos (l : list Q) : l <> [] -> 0 < Qlen l.
Proof.
  destruct l as [|a l]; [congruence|]. intros _.
  unfold Qlen. cbn [length]. rewrite Nat2Z.inj_succ.
  replace 0 with (inject_Z 0) by reflexivity.
  rewrite <- Zlt_Qlt. lia.
Qed.

Lemma Qsquare_nonneg (q : Q) : 0 <= q * q.
Proof.
  destruct (Qlt_le_dec q 0) as [H|H].
  - setoid_replace (q * q) with ((- q) * (- q)) by ring.
    apply Qmult_le_0_compat; lra.
  - apply Qmult_le_0_compat; lra.
Qed.

Lemma sq_dev_nonneg (l : list Q) : 0 <= sq_dev l.
Proof.
  unfold sq_dev. apply Qsum_nonneg.
  intros x Hx. apply in_map_iff in Hx. destruct Hx as [y [<- _]].
  apply Qsquare_nonneg.
Qed.

(** The variance of a non-empty array is zero exactly when its values are
    all equal. *)
Lemma variance_zero_iff (l : list Q) :
  l <> [] ->
  (sq_dev l / Qlen l == 0 <-> forall x y, In x l -> In y l -> x == y).
Proof.
  intro Hne. pose proof (Qlen_pos l Hne) as Hlen. split.
  - intro Hz.
    assert (Hs : sq_dev l <= 0).
    { assert (E : sq_dev l == (sq_dev l / Qlen l) * Qlen l) by (field; lra).
      rewrite E, Hz. lra. }
    assert (Hm : forall x, In x l -> x == Qmean l).
    { intros x Hx.
      assert (Hsq : (x - Qmean l) * (x - Qmean l) == 0).
      { apply (Qsum_zero (map (fun x => (x - Qmean l) * (x - Qmean l)) l)).
        - intros z Hin. apply in_map_iff in Hin. destruct Hin as [y [<- _]].
          apply Qsquare_nonneg.
        - exact Hs.
        - apply (in_map (fun x => (x - Qmean l) * (x - Qmean l))). exact Hx. }
      apply Qmult_integral in Hsq. lra. }
    intros x y Hx Hy. rewrite (Hm x Hx), (Hm y Hy). reflexivity.
  - intro Heq. destruct l as [|a l]; [congruence|].
    assert (Hmean : Qmean (a :: l) == a).
    { unfold Qmean. rewrite (Qsum_constant a).
      - field. lra.
      - intros x Hx. apply Heq; [assumption | now left]. }
    assert (Hs : sq_dev (a :: l) == 0).
    { unfold sq_dev.
      rewrite (Qsum_map_ext _ (fun _ => 0)).
      - rewrite (Qsum_constant 0); [ring|].
        intros x Hx. apply in_map_iff in Hx. destruct Hx as [y [<- _]]. reflexivity.
      - intros x Hx. rewrite Hmean, (Heq x a Hx); [ring | now left]. }
    rewrite Hs. field. lra.
Qed.

Lemma np_std_zero_iff sqrt (l : list Q) :
  sqrt_zero_only sqrt -> l <> [] ->
  (Qeq_bool (np_std sqrt l) 0 = true <-> forall x y, In x l -> In y l -> x == y).
Proof.
  intros Hsqrt Hne. rewrite Qeq_bool_iff. unfold np_std.
  assert (Hv : 0 <= sq_dev l / Qlen l).
  { pose proof (sq_dev_nonneg l). pose proof (Qlen_pos l Hne).
    apply Qle_shift_div_l; lra. }
  rewrite <- (variance_zero_iff l Hne).
  apply Hsqrt. exact Hv.
Qed.

Lemma np_min_le d l : np_min d l <= d /\ forall x, In x l -> np_min d l <= x.
Proof.
  unfold np_min. revert d. induction l as [|a l IH]; intro d; simpl.
  - split; [lra | intros x []].
  - destruct (IH (Qmin d a)) as [H1 H2]. split.
    + pose proof (Q.le_min_l d a). lra.
    + intros x [<-|Hx]; [|auto].
      pose proof (Q.le_min_r d a). lra.
Qed.

Lemma np_max_ge d l : d <= np_max d l /\ forall x, In x l -> x <= np_max d l.
Proof.
  unfold np_max. revert d. induction l as [|a l IH]; intro d; simpl.
  - split; [lra | intros x []].
  - destruct (IH (Qmax d a)) as [H1 H2]. split.
    + pose proof (Q.le_max_l d a). lra.
    + intros x [<-|Hx]; [|auto].
      pose proof (Q.le_max_r d a). lra.
Qed.

Lemma confidence_level_monotone a b :
  a <= b -> (rank (confidence_level a) <= rank (confidence_level b))%nat.
Proof.
  intro H. unfold confidence_level.
  destruct (Qle_bool a (8 # 10)) eqn:A8;
    [apply Qle_bool_iff in A8 | apply Qle_bool_false in A8];
  (destruct (Qle_bool a (6 # 10)) eqn:A6;
    [apply Qle_bool_iff in A6 | apply Qle_bool_false in A6]);
  (destruct (Qle_bool a (4 # 10)) eqn:A4;
    [apply Qle_bool_iff in A4 | apply Qle_bool_false in A4]);
  (destruct (Qle_bool b (8 # 10)) eqn:B8;
    [apply Qle_bool_iff in B8 | apply Qle_bool_false in B8]);
  (destruct (Qle_bool b (6 # 10)) eqn:B6;
    [apply Qle_bool_iff in B6 | apply Qle_bool_false in B6]);
  (destruct (Qle_bool b (4 # 10)) eqn:B4;
    [apply Qle_bool_iff in B4 | apply Qle_bool_false in B4]);
  simpl; try lia; exfalso; lra.
Qed.

(** C6.  In one batch, a row with a higher [anomaly_score] never gets a
    lower confidence bucket, in the order LOW, MEDIUM, HIGH, VERY_HIGH: both
    rows carry a label, the label of the min-max normalized score under the
    tests [> 0.8], [> 0.6], [> 0.4]. *)
Theorem confidence_bucket_monotone
  (sqrt : Q -> Q) (scores : list Q) (i j : nat) (si sj : Q) (ci cj : confidence) :
  sqrt_zero_only sqrt ->
  nth_error scores i = Some si ->
  nth_error scores j = Some sj ->
  nth_error (_calculate_confidence sqrt scores) i = Some ci ->
  nth_error (_calculate_confidence sqrt scores) j = Some cj ->
  sj < si ->
  exists bi bj,
    ci = Label bi /\ cj = Label bj /\ (rank bj <= rank bi)%nat /\
    (forall s0 rest, scores = s0 :: rest ->
       let norm := fun s => (s - np_min s0 rest) / (np_max s0 rest - np_min s0 rest) in
       bi = confidence_level (norm si) /\ bj = confidence_level (norm sj)) /\
    (forall x, confidence_level x = VERY_HIGH <-> 8 # 10 < x) /\
    (forall x, confidence_level x = HIGH <-> 6 # 10 < x <= 8 # 10) /\
    (forall x, confidence_level x = MEDIUM <-> 4 # 10 < x <= 6 # 10) /\
    (forall x, confidence_level x = LOW <-> x <= 4 # 10).
Proof.
  intros Hsqrt Hi Hj Hci Hcj Hlt.
  destruct scores as [|s0 rest] eqn:Escores; [destruct i; discriminate|].
  rewrite <- Escores in *.
  assert (Hne : scores <> []) by (rewrite Escores; discriminate).
  assert (Hini : In si scores) by (eapply nth_error_In; eauto).
  assert (Hinj : In sj scores) by (eapply nth_error_In; eauto).
  unfold _calculate_confidence in Hci, Hcj.
  rewrite Escores in Hci, Hcj. rewrite <- Escores in Hci, Hcj.
  destruct (Qeq_bool (np_std sqrt scores) 0) eqn:E.
  { pose proof (proj1 (np_std_zero_iff sqrt scores Hsqrt Hne) E si sj Hini Hinj).
    lra. }
  set (lo := np_min s0 rest) in *. set (hi := np_max s0 rest) in *.
  rewrite nth_error_map, Hi in Hci. rewrite nth_error_map, Hj in Hcj.
  simpl in Hci, Hcj. inversion Hci; inversion Hcj; subst ci cj.
  assert (Hlo : forall x, In x scores -> lo <= x).
  { intros x Hx. rewrite Escores in Hx. destruct Hx as [<-|Hx];
      [apply (proj1 (np_min_le s0 rest)) | apply (proj2 (np_min_le s0 rest)); assumption]. }
  assert (Hhi : forall x, In x scores -> x <= hi).
  { intros x Hx. rewrite Escores in Hx. destruct Hx as [<-|Hx];
      [apply (proj1 (np_max_ge s0 rest)) | apply (proj2 (np_max_ge s0 rest)); assumption]. }
  pose proof (Hlo sj Hinj). pose proof (Hhi si Hini).
  eexists _, _. split; [reflexivity|]. split; [reflexivity|]. split.
  - apply confidence_level_monotone.
    apply Qle_shift_div_l; [lra|].
    assert (Ediv : (sj - lo) / (hi - lo) * (hi - lo) == sj - lo) by (field; lra).
    rewrite Ediv. lra.
  - split.
    + intros s0' rest' Heq. rewrite Escores in Heq.
      inversion Heq; subst s0' rest'. split; reflexivity.
    + unfold confidence_level.
      repeat split; intros;
        repeat match goal with
               | H : context [Qle_bool ?a ?b] |- _ =>
                   let E := fresh "E" in
                   destruct (Qle_bool a b) eqn:E;
                   [apply Qle_bool_iff in E | apply Qle_bool_false in E]
               | |- context [Qle_bool ?a ?b] =>
                   let E := fresh "E" in
                   destruct (Qle_bool a b) eqn:E;
                   [apply Qle_bool_iff in E | apply Qle_bool_false in E]
               end; simpl in *; try discriminate; try reflexivity; try lra.
Qed.

Lemma Qsqrt_zero_only : sqrt_zero_only Qsqrt.
Proof.
  intros q Hq. unfold Qsqrt.
  destruct (Qle_bool q 0) eqn:E.
  - apply Qle_bool_iff in E. split; intro; [lra | reflexivity].
  - apply Qle_bool_false in E.
    assert (Hn : (0 < Qnum q)%Z).
    { unfold Qlt in E. simpl in E. lia. }
    assert (Hs : (0 < Z.sqrt (Qnum q * Z.pos (Qden q) * 1000000000000000000))%Z).
    { apply Z.sqrt_pos. lia. }
    assert (Hp : 0 < Z.sqrt (Qnum q * Z.pos (Qden q) * 1000000000000000000)
                     # (Qden q * 1000000000)).
    { unfold Qlt. simpl. lia. }
    split; intro; lra.
Qed.

Lemma confidence_bucket_monotone_witness :
  exists bi bj,
    nth_error (_calculate_confidence Qsqrt [1 # 10; 5 # 10; 9 # 10]) 2 = Some (Label bi) /\
    nth_error (_calculate_confidence Qsqrt [1 # 10; 5 # 10; 9 # 10]) 0 = Some (Label bj) /\
    (rank bj <= rank bi)%nat.
Proof.
  destruct (confidence_bucket_monotone Qsqrt [1 # 10; 5 # 10; 9 # 10] 2 0
              (9 # 10) (1 # 10) (Label VERY_HIGH) (Label LOW))
    as [bi [bj [H1 [H2 [H3 _]]]]].
  - exact Qsqrt_zero_only.
  - reflexivity.
  - reflexivity.
  - vm_compute. reflexivity.
  - vm_compute. reflexivity.
  - reflexivity.
  - exists bi, bj. rewrite <- H1, <- H2. split; [|split].
    + vm_compute. reflexivity.
    + vm_compute. reflexivity.
    + exact H3.
Defined.

Lemma map_fst_combine {A B : Type} (l1 : list A) (l2 : list B) :
  length l1 = length l2 -> map fst (combine l1 l2) = l1.
Proof.
  revert l2. induction l1 as [|a l1 IH]; intros [|b l2] H; simpl in *;
    try discriminate; auto.
  f_equal. apply IH. congruence.
Qed.

Lemma map_snd_combine {A B : Type} (l1 : list A) (l2 : list B) :
  length l1 = length l2 -> map snd (combine l1 l2) = l2.
Proof.
  revert l2. induction l1 as [|a l1 IH]; intros [|b l2] H; simpl in *;
    try discriminate; auto.
  f_equal. apply IH. congruence.
Qed.

Lemma calculate_confidence_length sqrt scores :
  length (_calculate_confidence sqrt scores) = length scores.
Proof.
  unfold _calculate_confidence. destruct scores as [|s0 rest]; auto.
  destruct (Qeq_bool (np_std sqrt (s0 :: rest)) 0); apply length_map.
Qed.

(** The columns [detect] adds: the scores are the negated raw scores of the
    model, and [anomaly_confidence] is [_calculate_confidence] of them. *)
Lemma detect_columns (features_row : Type) sqrt
  (_get_feature_columns : list features_row -> list string)
  (model : list features_row -> list (Z * Q)) (features_df : list features_row) :
  features_df <> [] ->
  _get_feature_columns features_df <> [] ->
  length (model features_df) = length features_df ->
  let out := detect features_row sqrt _get_feature_columns model features_df in
  map (anomaly_score features_row) out = map (fun ps => - snd ps) (model features_df)
  /\ map (anomaly_confidence features_row) out
     = map Some (_calculate_confidence sqrt (map (anomaly_score features_row) out)).
Proof.
  intros Hne Hcols Hlen out.
  assert (Hscores : map (anomaly_score features_row) out
                    = map (fun ps => - snd ps) (model features_df)).
  { unfold out, detect.
    destruct features_df as [|r0 df0] eqn:Edf; [congruence|]. rewrite <- Edf in *.
    destruct (_get_feature_columns features_df); [congruence|].
    rewrite map_map. cbn [anomaly_score].
    rewrite <- (map_map fst (fun y => snd (snd y))).
    rewrite map_fst_combine.
    - rewrite <- (map_map snd snd). rewrite map_snd_combine.
      + apply map_snd_combine. now rewrite !length_map.
      + rewrite length_combine, !length_map, Nat.min_id. congruence.
    - rewrite calculate_confidence_length, !length_combine, !length_map.
      rewrite Nat.min_id, Hlen. apply Nat.min_id. }
  split; [exact Hscores|].
  rewrite Hscores. unfold out, detect.
  destruct features_df as [|r0 df0] eqn:Edf; [congruence|]. rewrite <- Edf in *.
  destruct (_get_feature_columns features_df); [congruence|].
  rewrite map_map. cbn [anomaly_confidence].
  rewrite <- (map_map snd Some). rewrite map_snd_combine; [reflexivity|].
  rewrite calculate_confidence_length, !length_combine, !length_map.
  rewrite Nat.min_id, Hlen. apply Nat.min_id.
Qed.

End AnomalyDetectorFacts.

(** ** Anomaly detector: the zero-deviation guard on doubles *)

Section DoublesFacts.
Import PrimFloat AnomalyDetector Doubles.
Local Open Scope float_scope.






(** The z-score meets the same rounding.  Three months with the volume 100
    have the computed deviation 0 and the z-score 0; three months with the
    volume 0.1 have the computed mean 0.10000000000000002 and the computed
    deviation 1.7e-17, which is positive, and the z-score -0.816; a single
    month has the deviation NaN and the z-score 0. *)
Lemma equal_volumes_and_their_z_scores :
  z_scores_of_short [100; 100; 100] = [0; 0; 0] /\
  deviation_of_short 1 [tenth; tenth; tenth] = 0x1.3988e1409212ep-56 /\
  z_scores_of_short [tenth; tenth; tenth]
  = [-0x1.a20bd700c2c3fp-1; -0x1.a20bd700c2c3fp-1; -0x1.a20bd700c2c3fp-1] /\
  is_nan (deviation_of_short 1 [tenth]) = true /\
  z_scores_of_short [tenth] = [0].
Proof. repeat split; vm_compute; reflexivity. Qed.

End DoublesFacts.

(** ** Feature engineering: ordered groups, growth, ratio and z-score *)

Section FeatureEngineerFacts.
Import Numeric FeatureEngineer.
Local Open Scope Q_scope.

Lemma key_compare_eq a b : key_compare a b = Eq -> a = b.
Proof.
  destruct a as [s1 m1], b as [s2 m2]. unfold key_compare. simpl.
  destruct (String.compare s1 s2) eqn:E; try discriminate.
  apply String.compare_eq_iff in E. intro H. apply Z.compare_eq in H. congruence.
Qed.

Lemma key_compare_gt a b : key_compare a b = Gt -> key_lt b a.
Proof.
  destruct a as [s1 m1], b as [s2 m2]. unfold key_lt, key_compare. simpl.
  pose proof (String_as_OT.cmp_antisym s2 s1) as Ha.
  unfold String_as_OT.cmp in Ha. rewrite Ha.
  destruct (String.compare s1 s2) eqn:E; simpl; try discriminate; auto.
  intro H. rewrite Z.compare_antisym, H. reflexivity.
Qed.

Lemma key_lt_trans a b c : key_lt a b -> key_lt b c -> key_lt a c.
Proof.
  destruct a as [s1 m1], b as [s2 m2], c as [s3 m3].
  unfold key_lt, key_compare. simpl.
  destruct (String.compare s1 s2) eqn:E12; try discriminate;
    destruct (String.compare s2 s3) eqn:E23; try discriminate; intros H1 H2.
  - apply String.compare_eq_iff in E12, E23. subst.
    assert (E : String.compare s3 s3 = Eq) by now apply String_as_OT.cmp_eq.
    rewrite E. change (m1 < m2)%Z in H1. change (m2 < m3)%Z in H2.
    change (m1 < m3)%Z. lia.
  - apply String.compare_eq_iff in E12. subst. now rewrite E23.
  - apply String.compare_eq_iff in E23. subst. now rewrite E12.
  - apply String_as_OT.cmp_lt in E12, E23.
    pose proof (String_as_OT.lt_trans _ _ _ E12 E23) as H.
    apply String_as_OT.cmp_lt in H. unfold String_as_OT.cmp in H. now rewrite H.
Qed.

Lemma key_lt_same_state s m1 m2 : key_lt (s, m1) (s, m2) -> (m1 < m2)%Z.
Proof.
  unfold key_lt, key_compare. simpl.
  assert (E : String.compare s s = Eq) by now apply String_as_OT.cmp_eq.
  rewrite E. intro H. exact H.
Qed.

Lemma key_lt_irrefl a : ~ key_lt a a.
Proof.
  destruct a as [s m]. intro H. apply key_lt_same_state in H. lia.
Qed.

Lemma insert_group_keys r groups k :
  In k (map fst (insert_group r groups)) -> k = key_of r \/ In k (map fst groups).
Proof.
  induction groups as [|[k0 g0] rest IH]; simpl.
  - intuition.
  - destruct (key_compare (key_of r) k0); simpl; intuition.
Qed.

Lemma insert_group_sorted r groups :
  StronglySorted key_lt (map fst groups) ->
  StronglySorted key_lt (map fst (insert_group r groups)).
Proof.
  induction groups as [|[k0 g0] rest IH]; simpl; intro H.
  - constructor; constructor.
  - inversion H as [|? ? Hs Hf]; subst.
    destruct (key_compare (key_of r) k0) eqn:E; simpl.
    + constructor; assumption.
    + constructor; [exact H|]. constructor; [exact E|].
      apply Forall_forall. intros k Hk.
      apply (key_lt_trans _ k0); [exact E|].
      rewrite Forall_forall in Hf. apply Hf. exact Hk.
    + constructor; [apply IH; exact Hs|].
      apply Forall_forall. intros k Hk.
      destruct (insert_group_keys _ _ _ Hk) as [->|Hk'].
      * apply key_compare_gt. exact E.
      * rewrite Forall_forall in Hf. apply Hf. exact Hk'.
Qed.

Lemma groupby_sorted l : StronglySorted key_lt (map fst (groupby l)).
Proof.
  unfold groupby.
  assert (G : forall l acc, StronglySorted key_lt (map fst acc) ->
              StronglySorted key_lt
                (map fst (fold_left (fun groups r => insert_group r groups) l acc))).
  { clear. induction l as [|r l IH]; intros acc H; simpl; auto.
    apply IH. apply insert_group_sorted. exact H. }
  apply G. constructor.
Qed.

Lemma insert_group_members r groups k g :
  In (k, g) (insert_group r groups) ->
  (In (k, g) groups) \/
  (k = key_of r /\ ((g = [r]) \/ exists g0, In (k, g0) groups /\ g = g0 ++ [r])).
Proof.
  induction groups as [|[k0 g0] rest IH]; simpl.
  - intros [H|[]]. inversion H; subst. right; auto.
  - destruct (key_compare (key_of r) k0) eqn:E; simpl.
    + apply key_compare_eq in E. subst k0.
      intros [H|H].
      * inversion H; subst. right. split; auto. right. exists g0. auto.
      * left; now right.
    + intros [H|[H|H]].
      * inversion H; subst. right; auto.
      * left; now left.
      * left; now right.
    + intros [H|H].
      * left; now left.
      * destruct (IH H) as [H1|[H1 [H2|[g1 [H2 H3]]]]].
        -- left; now right.
        -- right; auto.
        -- right. split; auto. right. exists g1. auto.
Qed.

(** A group is not empty and holds records of the table, with its key. *)
Lemma groupby_members l k g :
  In (k, g) (groupby l) ->
  g <> [] /\ forall r, In r g -> In r l /\ key_of r = k.
Proof.
  unfold groupby.
  assert (G : forall l' l acc,
             (forall k g, In (k, g) acc ->
                g <> [] /\ forall r, In r g -> In r l /\ key_of r = k) ->
             forall k g,
               In (k, g) (fold_left (fun groups r => insert_group r groups) l' acc) ->
               g <> [] /\ forall r, In r g -> In r (l ++ l') /\ key_of r = k).
  { clear. induction l' as [|x l' IH]; intros l acc Hacc k g H; simpl in H.
    - rewrite app_nil_r. auto.
    - replace (l ++ x :: l') with ((l ++ [x]) ++ l')
        by (rewrite <- app_assoc; reflexivity).
      apply (IH (l ++ [x]) (insert_group x acc)); auto.
      intros k1 g1 H1.
      destruct (insert_group_members _ _ _ _ H1) as [H2|[H2 [H3|[g2 [H3 H4]]]]].
      + destruct (Hacc _ _ H2) as [Hne Hg]. split; auto.
        intros r Hr. destruct (Hg r Hr). split; auto.
        apply in_or_app; now left.
      + subst. split; [discriminate|].
        intros r [<-|[]]. split; auto. apply in_or_app; right; now left.
      + subst. destruct (Hacc _ _ H3) as [Hne Hg]. split.
        * destruct g2; discriminate.
        * intros r Hr. apply in_app_or in Hr. destruct Hr as [Hr|[<-|[]]].
          -- destruct (Hg r Hr). split; auto. apply in_or_app; now left.
          -- split; auto. apply in_or_app; right; now left. }
  intro H. apply (G l [] [] ltac:(intros ? ? []) k g H).
Qed.

Lemma pct_change_length p seen l : length (pct_change p seen l) = length l.
Proof.
  revert seen. induction l as [|m l IH]; intro seen; simpl; auto.
Qed.

Lemma in_combine_pct p l seen m g :
  In (m, g) (combine l (pct_change p seen l)) ->
  exists pre post, l = pre ++ m :: post /\ g = growth_against p (rev pre ++ seen) m.
Proof.
  revert seen. induction l as [|a l IH]; intro seen; simpl.
  - intros [].
  - intros [H|H].
    + inversion H; subst. exists [], l. split; reflexivity.
    + destruct (IH _ H) as [pre [post [-> ->]]].
      exists (a :: pre), post. split; [reflexivity|].
      simpl. rewrite <- app_assoc. reflexivity.
Qed.

Lemma in_pct_combine p l seen m :
  In m l -> exists g, In (m, g) (combine l (pct_change p seen l)).
Proof.
  revert seen. induction l as [|a l IH]; intro seen; simpl.
  - intros [].
  - intros [->|H].
    + eexists. left. reflexivity.
    + destruct (IH (a :: seen) H) as [g Hg]. exists g. now right.
Qed.

Lemma column_names_fixed sqrt d kg kg' :
  map fst (m_cols (aggregated_row sqrt d kg))
  = map fst (m_cols (aggregated_row sqrt d kg')).
Proof.
  unfold aggregated_row. simpl.
  generalize (existsb (fun e => is_agg_list (snd e)) d) as multi. intro multi.
  induction d as [|e d IH]; simpl; auto.
  rewrite !map_app, IH. f_equal.
  unfold aggregate_entry. destruct (snd e); simpl.
  - rewrite !map_map. reflexivity.
  - reflexivity.
Qed.

Lemma sum_cols_fixed sqrt d kg kg' :
  sum_cols (aggregated_row sqrt d kg) = sum_cols (aggregated_row sqrt d kg').
Proof.
  unfold sum_cols. now rewrite (column_names_fixed sqrt d kg kg').
Qed.

Lemma table_sorted sqrt d l :
  StronglySorted key_lt (map m_key (map (aggregated_row sqrt d) (groupby l))).
Proof.
  rewrite map_map.
  rewrite (map_ext _ fst); [apply groupby_sorted|].
  intros [[s m] g]. reflexivity.
Qed.

Lemma sorted_split {A : Type} (R : A -> A -> Prop) l1 a l2 :
  StronglySorted R (l1 ++ a :: l2) ->
  Forall (fun x => R x a) l1 /\ Forall (R a) l2.
Proof.
  induction l1 as [|b l1 IH]; simpl; intro H; inversion H; subst.
  - split; [constructor | assumption].
  - destruct (IH H2) as [H4 H5]. split; [|assumption].
    constructor; [|assumption].
    rewrite Forall_forall in H3. apply H3. apply in_or_app. right. now left.
Qed.

Lemma sorted_nth {A : Type} (R : A -> A -> Prop) l i j a b :
  StronglySorted R l -> nth_error l i = Some a -> nth_error l j = Some b ->
  (i < j)%nat -> R a b.
Proof.
  intro H. revert i j. induction H as [|x l Hs IH Hf]; intros i j Hi Hj Hlt.
  - destruct i; discriminate.
  - destruct j as [|j]; [lia|]. destruct i as [|i]; simpl in *.
    + inversion Hi; subst. rewrite Forall_forall in Hf. apply Hf.
      eapply nth_error_In; eauto.
    + apply (IH i j); auto. lia.
Qed.

Lemma find_last {A : Type} (f : A -> bool) (l : list A) :
  (exists y, In y l /\ f y = true) ->
  exists p1 x p2, l = p1 ++ x :: p2 /\ f x = true /\
                  (forall y, In y p2 -> f y = false) /\
                  find f (rev l) = Some x.
Proof.
  induction l as [|a l IH] using rev_ind; intros [y [Hy Hf]].
  - destruct Hy.
  - rewrite rev_app_distr. simpl.
    destruct (f a) eqn:E.
    + exists l, a, []. repeat split; auto. intros ? [].
    + apply in_app_or in Hy. destruct Hy as [Hy|[<-|[]]]; [|congruence].
      destruct IH as [p1 [x [p2 [-> [H1 [H2 H3]]]]]]; [eauto|].
      exists p1, x, (p2 ++ [a]). repeat split; auto.
      * rewrite <- app_assoc. reflexivity.
      * intros z Hz. apply in_app_or in Hz. destruct Hz as [Hz|[<-|[]]]; auto.
Qed.

Lemma find_absent {A : Type} (f : A -> bool) (l : list A) :
  (forall y, In y l -> f y = false) -> find f l = None.
Proof.
  intro H. destruct (find f l) eqn:E; auto.
  apply find_some in E. destruct E as [H1 H2]. rewrite (H _ H1) in H2. discriminate.
Qed.

(** The rows of the aggregated table, seen from the grouped one. *)
Lemma aggregated_rows sqrt df r :
  In r (_create_aggregated_features sqrt df) ->
  In r (derive sqrt (map (aggregated_row sqrt (agg_dict df)) (groupby (rows df)))).
Proof.
  unfold _create_aggregated_features.
  destruct (negb (has_column "state" df) || negb (has_column "date" df));
    [intros []|].
  destruct (agg_dict df); [intros [] | auto].
Qed.

Lemma derive_rows sqrt d groups r :
  let table := map (aggregated_row sqrt d) groups in
  In r (derive sqrt table) ->
  (forall x, In x table -> sum_cols x = sum_cols r) /\
  ((sum_cols r = [] /\ In r table) \/
   (exists p others pre m post,
      sum_cols r = p :: others /\ table = pre ++ m :: post /\
      r = with_derived sqrt p others table (m, growth_against p (rev pre) m))).
Proof.
  intros table H.
  assert (Hfix : forall x y, In x table -> In y table -> sum_cols x = sum_cols y).
  { intros x y Hx Hy. unfold table in Hx, Hy.
    apply in_map_iff in Hx, Hy.
    destruct Hx as [kx [<- _]], Hy as [ky [<- _]]. apply sum_cols_fixed. }
  unfold derive in H.
  destruct table as [|first rest] eqn:Et; [destruct H|].
  rewrite <- Et in *.
  assert (Hfirst : In first table) by (rewrite Et; now left).
  destruct (sum_cols first) as [|p others] eqn:Es.
  - split.
    + intros x Hx. apply Hfix; auto.
    + left. split; [|exact H]. rewrite <- Es. apply Hfix; auto.
  - apply in_map_iff in H. destruct H as [[m g] [<- Hc]].
    destruct (in_combine_pct _ _ _ _ _ Hc) as [pre [post [Hsplit ->]]].
    rewrite app_nil_r.
    assert (Hm : In m table).
    { rewrite Hsplit. apply in_or_app. right. now left. }
    assert (Hsum : sum_cols (with_derived sqrt p others table
                               (m, growth_against p (rev pre) m)) = p :: others).
    { rewrite <- Es. unfold sum_cols. simpl. apply (Hfix m first Hm Hfirst). }
    split.
    + intros x Hx. rewrite Hsum, <- Es. apply Hfix; auto.
    + right. exists p, others, pre, m, post. auto.
Qed.

(** Every row of the grouped table has its row in the aggregated one, with
    the same key and the same columns. *)
Lemma derive_covers sqrt table m :
  In m table ->
  exists r, In r (derive sqrt table) /\
            m_state r = m_state m /\ m_year_month r = m_year_month m /\
            m_cols r = m_cols m.
Proof.
  intro Hm. unfold derive.
  destruct table as [|first rest] eqn:Et; [destruct Hm|].
  rewrite <- Et in *.
  destruct (sum_cols first) as [|p others].
  - exists m. auto.
  - destruct (in_pct_combine p table [] m Hm) as [g Hg].
    exists (with_derived sqrt p others table (m, g)). split.
    + apply in_map. exact Hg.
    + simpl. auto.
Qed.

Lemma nth_error_combine_l {A B : Type} (l1 : list A) (l2 : list B) i a b :
  nth_error (combine l1 l2) i = Some (a, b) -> nth_error l1 i = Some a.
Proof.
  revert l2 i. induction l1 as [|x l1 IH]; intros [|y l2] [|i]; simpl;
    try discriminate.
  - intro H. inversion H. reflexivity.
  - apply IH.
Qed.

Lemma nth_error_derive sqrt table i r :
  nth_error (derive sqrt table) i = Some r ->
  exists m, nth_error table i = Some m /\ m_key r = m_key m.
Proof.
  unfold derive. destruct table as [|first rest] eqn:Et.
  - destruct i; discriminate.
  - rewrite <- Et. destruct (sum_cols first) as [|p others].
    + intro H. exists r. auto.
    + rewrite nth_error_map.
      destruct (nth_error (combine table (pct_change p [] table)) i)
        as [[m g]|] eqn:E; [|discriminate].
      simpl. intro H. inversion H; subst. exists m. split; [|reflexivity].
      eapply nth_error_combine_l; eauto.
Qed.

(** Within a region the months of the aggregated table ascend strictly. *)
Lemma months_ascend sqrt df i j ri rj :
  nth_error (_create_aggregated_features sqrt df) i = Some ri ->
  nth_error (_create_aggregated_features sqrt df) j = Some rj ->
  (i < j)%nat -> m_state ri = m_state rj ->
  (m_year_month ri < m_year_month rj)%Z.
Proof.
  unfold _create_aggregated_features.
  destruct (negb (has_column "state" df) || negb (has_column "date" df));
    [destruct i; discriminate|].
  destruct (agg_dict df) as [|e d] eqn:Ed; [destruct i; discriminate|].
  rewrite <- Ed. intros Hi Hj Hlt Hst.
  destruct (nth_error_derive _ _ _ _ Hi) as [mi [Hmi Hki]].
  destruct (nth_error_derive _ _ _ _ Hj) as [mj [Hmj Hkj]].
  pose proof (table_sorted sqrt (agg_dict df) (rows df)) as Hs.
  assert (Hlt' : key_lt (m_key mi) (m_key mj)).
  { apply (sorted_nth key_lt _ i j _ _ Hs); auto;
      rewrite nth_error_map; [rewrite Hmi | rewrite Hmj]; reflexivity. }
  rewrite <- Hki, <- Hkj in Hlt'. unfold m_key in Hlt'. rewrite Hst in Hlt'.
  apply key_lt_same_state in Hlt'. exact Hlt'.
Qed.

Lemma volume_sum_derived sqrt p others table m g :
  sum_cols m = p :: others ->
  volume_sum (with_derived sqrt p others table (m, g)) = Some (col p m).
Proof.
  intro H. unfold volume_sum.
  change (sum_cols (with_derived sqrt p others table (m, g))) with (sum_cols m).
  rewrite H. reflexivity.
Qed.

(** The growth of a row of the aggregated table: NaN for the first month of
    its region, the change against the latest earlier month otherwise. *)
Lemma growth_of_row sqrt df r v :
  let out := _create_aggregated_features sqrt df in
  In r out -> volume_sum r = Some v ->
  ((forall r', In r' out -> m_state r' = m_state r ->
               (m_year_month r <= m_year_month r')%Z) ->
   mom_growth r = Some NaN) /\
  (forall r' v',
     In r' out -> m_state r' = m_state r -> volume_sum r' = Some v' ->
     (m_year_month r' < m_year_month r)%Z ->
     (forall r'', In r'' out -> m_state r'' = m_state r ->
                  (m_year_month r'' < m_year_month r)%Z ->
                  (m_year_month r'' <= m_year_month r')%Z) ->
     mom_growth r = Some (pct v v')).
Proof.
  intros out Hr Hv.
  assert (Hout : forall x, In x out ->
            In x (derive sqrt (map (aggregated_row sqrt (agg_dict df))
                                   (groupby (rows df))))).
  { intros x Hx. apply aggregated_rows. exact Hx. }
  assert (Hcov : forall m, In m (map (aggregated_row sqrt (agg_dict df))
                                     (groupby (rows df))) ->
            exists x, In x out /\ m_state x = m_state m /\
                      m_year_month x = m_year_month m /\ m_cols x = m_cols m).
  { intros m Hm. destruct (derive_covers sqrt _ m Hm) as [x [H1 H2]].
    exists x. split; [|exact H2].
    unfold out, _create_aggregated_features.
    destruct (negb (has_column "state" df) || negb (has_column "date" df)) eqn:E1.
    - exfalso. unfold out, _create_aggregated_features in Hr.
      rewrite E1 in Hr. destruct Hr.
    - destruct (agg_dict df) eqn:E2; [|exact H1].
      exfalso. unfold out, _create_aggregated_features in Hr.
      rewrite E1, E2 in Hr. destruct Hr. }
  pose proof (table_sorted sqrt (agg_dict df) (rows df)) as Hsorted.
  set (table := map (aggregated_row sqrt (agg_dict df)) (groupby (rows df))) in *.
  destruct (derive_rows sqrt (agg_dict df) (groupby (rows df)) r (Hout r Hr))
    as [Hsame [[Hnil _]|[p [others [pre [m [post [Hs [Hsplit Hrow]]]]]]]]].
  { unfold volume_sum in Hv. rewrite Hnil in Hv. discriminate. }
  fold table in Hsame, Hsplit, Hrow.
  assert (Hm : In m table).
  { rewrite Hsplit. apply in_or_app. right. now left. }
  assert (Hsm : sum_cols m = p :: others).
  { rewrite <- Hs. apply Hsame. exact Hm. }
  assert (Hstate : m_state r = m_state m) by (rewrite Hrow; reflexivity).
  assert (Hmonth : m_year_month r = m_year_month m) by (rewrite Hrow; reflexivity).
  assert (Hgrowth : mom_growth r = Some (growth_against p (rev pre) m))
    by (rewrite Hrow; reflexivity).
  assert (Hvm : v = col p m).
  { rewrite Hrow, (volume_sum_derived _ _ _ _ _ _ Hsm) in Hv. congruence. }
  rewrite Hsplit in Hsorted. rewrite map_app in Hsorted. simpl in Hsorted.
  destruct (sorted_split _ _ _ _ Hsorted) as [Hpre Hpost].
  rewrite Forall_forall in Hpre, Hpost.
  assert (Hbefore : forall x, In x pre -> m_state x = m_state m ->
                              (m_year_month x < m_year_month m)%Z).
  { intros x Hx Hst. specialize (Hpre (m_key x) (in_map m_key _ _ Hx)).
    unfold m_key in Hpre. rewrite Hst in Hpre.
    apply key_lt_same_state in Hpre. exact Hpre. }
  assert (Hafter : forall x, In x post -> m_state x = m_state m ->
                             (m_year_month m < m_year_month x)%Z).
  { intros x Hx Hst. specialize (Hpost (m_key x) (in_map m_key _ _ Hx)).
    unfold m_key in Hpost. rewrite Hst in Hpost.
    apply key_lt_same_state in Hpost. exact Hpost. }
  assert (Hpre_in : forall x, In x pre -> In x table).
  { intros x Hx. rewrite Hsplit. apply in_or_app. now left. }
  split.
  - intro Hfirst. rewrite Hgrowth. unfold growth_against.
    rewrite find_absent; [reflexivity|].
    intros x Hx. apply in_rev in Hx.
    destruct (String.eqb (m_state x) (m_state m)) eqn:E; auto.
    apply String.eqb_eq in E. exfalso.
    destruct (Hcov x (Hpre_in x Hx)) as [rx [H1 [H2 [H3 _]]]].
    assert (m_year_month r <= m_year_month rx)%Z
      by (apply Hfirst; [exact H1 | congruence]).
    pose proof (Hbefore x Hx E). lia.
  - intros r' v' Hr' Hst' Hv' Hlt Hlatest.
    destruct (derive_rows sqrt (agg_dict df) (groupby (rows df)) r' (Hout r' Hr'))
      as [Hsame' [[Hnil' _]|[p' [others' [pre' [m' [post' [Hs' [Hsplit' Hrow']]]]]]]]].
    { unfold volume_sum in Hv'. rewrite Hnil' in Hv'. discriminate. }
    fold table in Hsame', Hsplit', Hrow'.
    assert (Hm' : In m' table).
    { rewrite Hsplit'. apply in_or_app. right. now left. }
    assert (Hpp : p' :: others' = p :: others).
    { rewrite <- Hs', <- Hsm. symmetry. apply Hsame'. exact Hm. }
    inversion Hpp; subst p' others'.
    assert (Hsm' : sum_cols m' = p :: others).
    { rewrite <- Hs'. apply Hsame'. exact Hm'. }
    assert (Hstate' : m_state m' = m_state m).
    { rewrite <- Hstate, <- Hst'. rewrite Hrow'. reflexivity. }
    assert (Hmonth' : m_year_month r' = m_year_month m') by (rewrite Hrow'; reflexivity).
    assert (Hvm' : v' = col p m').
    { rewrite Hrow', (volume_sum_derived _ _ _ _ _ _ Hsm') in Hv'. congruence. }
    assert (Hin' : In m' pre).
    { rewrite Hsplit in Hm'. apply in_app_or in Hm'.
      destruct Hm' as [H|[H|H]]; auto.
      - subst m'. lia.
      - pose proof (Hafter m' H Hstate'). lia. }
    destruct (find_last (fun x => String.eqb (m_state x) (m_state m)) pre)
      as [p1 [x [p2 [Hp [Hfx [Hp2 Hfind]]]]]].
    { exists m'. split; [exact Hin'|]. apply String.eqb_eq. exact Hstate'. }
    apply String.eqb_eq in Hfx.
    assert (Hx : In x pre) by (rewrite Hp; apply in_or_app; right; now left).
    assert (Hxm : x = m').
    { rewrite Hp in Hin'. apply in_app_or in Hin'.
      destruct Hin' as [H|[H|H]]; auto.
      - exfalso.
        destruct (Hcov x (Hpre_in x Hx)) as [rx [H1 [H2 [H3 _]]]].
        assert (m_year_month rx <= m_year_month r')%Z.
        { apply Hlatest; [exact H1 | congruence |].
          rewrite H3, Hmonth. apply Hbefore; auto. }
        rewrite Hp, map_app in Hsorted. simpl in Hsorted.
        rewrite <- app_assoc in Hsorted. simpl in Hsorted.
        destruct (sorted_split _ _ _ _ Hsorted) as [Hp1 _].
        rewrite Forall_forall in Hp1.
        specialize (Hp1 (m_key m') (in_map m_key _ _ H)).
        unfold m_key in Hp1. rewrite Hstate', <- Hfx in Hp1.
        apply key_lt_same_state in Hp1. lia.
      - exfalso. specialize (Hp2 m' H).
        apply String.eqb_neq in Hp2. congruence. }
    rewrite Hgrowth. unfold growth_against. rewrite Hfind, Hxm, Hvm, Hvm'.
    reflexivity.
Qed.

Lemma candidates_enrolment df ec :
  first_present enrolment_candidates df = Some ec ->
  ec = "enrolment_count"%string \/ ec = "Total_Enrolments"%string
  \/ ec = "enrolments"%string.
Proof.
  intro H. apply find_some in H. destruct H as [H _]. simpl in H.
  intuition.
Qed.

Lemma candidates_update df uc :
  first_present update_candidates df = Some uc ->
  uc = "update_count"%string \/ uc = "Total_Updates"%string
  \/ uc = "updates"%string.
Proof.
  intro H. apply find_some in H. destruct H as [H _]. simpl in H.
  intuition.
Qed.

(** The canonical table: with an enrolment and an update column the [_sum]
    columns are the two sums, in this order. *)
Lemma canonical_sums sqrt df ec uc kg :
  first_present enrolment_candidates df = Some ec ->
  first_present update_candidates df = Some uc ->
  let m := aggregated_row sqrt (agg_dict df) kg in
  sum_cols m = [(ec ++ "_sum")%string; (uc ++ "_sum")%string] /\
  col (ec ++ "_sum") m = Fin (Qsum (map (fun r => num r ec) (snd kg))) /\
  col (uc ++ "_sum") m = Fin (Qsum (map (fun r => num r uc) (snd kg))).
Proof.
  intros He Hu. unfold agg_dict. rewrite He, Hu.
  destruct (candidates_enrolment _ _ He) as [-> | [-> | ->]];
    destruct (candidates_update _ _ Hu) as [-> | [-> | ->]];
    repeat split; reflexivity.
Qed.

(** With an enrolment column only, the single [_sum] column is its sum. *)
Lemma enrolment_only_sums sqrt df ec kg :
  first_present enrolment_candidates df = Some ec ->
  first_present update_candidates df = None ->
  let m := aggregated_row sqrt (agg_dict df) kg in
  sum_cols m = [(ec ++ "_sum")%string] /\
  col (ec ++ "_sum") m = Fin (Qsum (map (fun r => num r ec) (snd kg))).
Proof.
  intros He Hu. unfold agg_dict. rewrite He, Hu.
  destruct (candidates_enrolment _ _ He) as [-> | [-> | ->]];
    repeat split; reflexivity.
Qed.

Lemma plain_sums_finite sqrt (d : list (string * agg_spec)) kg c :
  (forall e, In e d -> snd e = agg_one agg_sum) ->
  In c (sum_cols (aggregated_row sqrt d kg)) ->
  exists q, col c (aggregated_row sqrt d kg) = Fin q.
Proof.
  intros Hd Hc.
  assert (Hall : forall p, In p (m_cols (aggregated_row sqrt d kg)) ->
                           exists q, snd p = Fin q).
  { simpl. generalize (existsb (fun e => is_agg_list (snd e)) d) as multi.
    intros multi p Hp. apply in_flat_map in Hp. destruct Hp as [e [He Hp]].
    unfold aggregate_entry in Hp. rewrite (Hd e He) in Hp.
    destruct Hp as [<-|[]]. simpl. eexists. reflexivity. }
  unfold sum_cols in Hc. apply filter_In in Hc. destruct Hc as [Hin Hsum].
  destruct Hin as [<-|[<-|Hin]]; try discriminate Hsum.
  unfold col.
  destruct (find (fun p => String.eqb c (fst p)) (m_cols (aggregated_row sqrt d kg)))
    as [p|] eqn:E.
  - apply find_some in E. apply Hall. apply E.
  - exfalso. apply in_map_iff in Hin. destruct Hin as [p [Hp1 Hp2]].
    pose proof (find_none _ _ E p Hp2) as Hn. simpl in Hn.
    rewrite Hp1, String.eqb_refl in Hn. discriminate.
Qed.

(** Every [_sum] column of the grouped table holds a finite number. *)
Lemma sums_finite sqrt df kg c :
  In c (sum_cols (aggregated_row sqrt (agg_dict df) kg)) ->
  exists q, col c (aggregated_row sqrt (agg_dict df) kg) = Fin q.
Proof.
  destruct (first_present enrolment_candidates df) as [ec|] eqn:He;
    destruct (first_present update_candidates df) as [uc|] eqn:Hu.
  - destruct (canonical_sums sqrt df ec uc kg He Hu) as [H1 [H2 H3]].
    rewrite H1. intros [<-|[<-|[]]]; eexists; eauto.
  - destruct (enrolment_only_sums sqrt df ec kg He Hu) as [H1 H2].
    rewrite H1. intros [<-|[]]; eexists; eauto.
  - apply plain_sums_finite. unfold agg_dict. rewrite He, Hu. simpl.
    intros e [<-|[]]. reflexivity.
  - apply plain_sums_finite. unfold agg_dict. rewrite He, Hu. simpl.
    intros e He'. apply in_map_iff in He'. destruct He' as [x [<- _]]. reflexivity.
Qed.

Lemma volume_sum_finite sqrt df r v :
  In r (_create_aggregated_features sqrt df) -> volume_sum r = Some v ->
  exists a, v = Fin a.
Proof.
  intros Hr Hv. apply aggregated_rows in Hr.
  destruct (derive_rows sqrt (agg_dict df) (groupby (rows df)) r Hr)
    as [Hsame [[Hnil _]|[p [others [pre [m [post [Hs [Hsplit Hrow]]]]]]]]].
  { unfold volume_sum in Hv. rewrite Hnil in Hv. discriminate. }
  assert (Hm : In m (map (aggregated_row sqrt (agg_dict df)) (groupby (rows df)))).
  { rewrite Hsplit. apply in_or_app. right. now left. }
  assert (Hsm : sum_cols m = p :: others) by (rewrite <- Hs; apply Hsame; exact Hm).
  rewrite Hrow, (volume_sum_derived _ _ _ _ _ _ Hsm) in Hv.
  inversion Hv; subst v.
  apply in_map_iff in Hm. destruct Hm as [kg [<- _]].
  apply sums_finite. rewrite Hsm. now left.
Qed.

(** C4.  In the aggregated table the months of a region ascend; the
    [mom_growth] of a region's first month is NaN, never 0; the growth of any
    later month is the fractional change [volume / previous - 1] of its
    [volume_sum] against the latest earlier month of the same region.  On the
    two-region scenario (volumes 100, 100, 100 and 100, 100, 300) the third
    month of region "B" has growth 2. *)
Theorem mom_growth_against_preceding_month (sqrt : Q -> Q) (df : frame) :
  let out := _create_aggregated_features sqrt df in
  (forall i j ri rj,
     nth_error out i = Some ri -> nth_error out j = Some rj -> (i < j)%nat ->
     m_state ri = m_state rj -> (m_year_month ri < m_year_month rj)%Z) /\
  (forall r v,
     In r out -> volume_sum r = Some v ->
     (exists a, v = Fin a) /\
     ((forall r', In r' out -> m_state r' = m_state r ->
                  (m_year_month r <= m_year_month r')%Z) ->
      mom_growth r = Some NaN /\ mom_growth r <> Some (Fin 0)) /\
     (forall r' v',
        In r' out -> m_state r' = m_state r -> volume_sum r' = Some v' ->
        (m_year_month r' < m_year_month r)%Z ->
        (forall r'', In r'' out -> m_state r'' = m_state r ->
                     (m_year_month r'' < m_year_month r)%Z ->
                     (m_year_month r'' <= m_year_month r')%Z) ->
        mom_growth r = Some (pct v v') /\
        (forall a b, v = Fin a -> v' = Fin b -> ~ b == 0 ->
                     mom_growth r = Some (Fin (a / b - 1))))) /\
  map (fun m => (m_state m, m_year_month m, option_map reduced (mom_growth m)))
      (aggregate Qsqrt scenario)
  = [("A"%string, 636%Z, Some NaN); ("A"%string, 637%Z, Some (Fin 0));
     ("A"%string, 638%Z, Some (Fin 0)); ("B"%string, 636%Z, Some NaN);
     ("B"%string, 637%Z, Some (Fin 0)); ("B"%string, 638%Z, Some (Fin 2))].
Proof.
  intro out. split; [|split].
  - intros i j ri rj. apply months_ascend.
  - intros r v Hr Hv.
    destruct (growth_of_row sqrt df r v Hr Hv) as [Hfirst Hlater].
    split; [eapply volume_sum_finite; eauto|]. split.
    + intro H. rewrite (Hfirst H). split; [reflexivity | discriminate].
    + intros r' v' Hr' Hst Hv' Hlt Hlatest.
      pose proof (Hlater r' v' Hr' Hst Hv' Hlt Hlatest) as Hg.
      split; [exact Hg|].
      intros a b -> -> Hb. rewrite Hg. unfold pct, fdiv.
      destruct (Qeq_bool b 0) eqn:E; [|reflexivity].
      apply Qeq_bool_iff in E. contradiction.
  - vm_compute. reflexivity.
Qed.

Lemma mom_growth_against_preceding_month_witness :
  let out := _create_aggregated_features Qsqrt (_create_time_features scenario) in
  m_state (nth 5 out no_row) = "B"%string /\
  m_year_month (nth 5 out no_row) = 638%Z /\
  mom_growth (nth 3 out no_row) = Some NaN /\
  mom_growth (nth 5 out no_row) = Some (Fin (300 / 100 - 1)).
Proof.
  intro out.
  assert (Hlen : length out = 6%nat) by (vm_compute; reflexivity).
  assert (Hin : forall n, (n < 6)%nat -> In (nth n out no_row) out).
  { intros n Hn. apply nth_In. rewrite Hlen. exact Hn. }
  destruct (mom_growth_against_preceding_month
              Qsqrt (_create_time_features scenario)) as [_ [H _]].
  fold out in H.
  split; [vm_compute; reflexivity|]. split; [vm_compute; reflexivity|]. split.
  - destruct (H (nth 3 out no_row) (Fin 100) (Hin 3%nat ltac:(lia))
                ltac:(vm_compute; reflexivity)) as [_ [Hfirst _]].
    apply Hfirst. intros r' Hr'.
    assert (Hall : forallb (fun x => implb (String.eqb (m_state x) "B")
                                       (636 <=? m_year_month x)%Z) out = true)
      by (vm_compute; reflexivity).
    rewrite forallb_forall in Hall. specialize (Hall r' Hr').
    replace (m_state (nth 3 out no_row)) with "B"%string by (vm_compute; reflexivity).
    replace (m_year_month (nth 3 out no_row)) with 636%Z by (vm_compute; reflexivity).
    intro Hst. rewrite Hst in Hall. simpl in Hall. lia.
  - destruct (H (nth 5 out no_row) (Fin 300) (Hin 5%nat ltac:(lia))
                ltac:(vm_compute; reflexivity)) as [_ [_ Hlater]].
    destruct (Hlater (nth 4 out no_row) (Fin 100)) as [_ Hfin].
    + apply Hin. lia.
    + vm_compute. reflexivity.
    + vm_compute. reflexivity.
    + vm_compute. reflexivity.
    + intros r'' Hr''.
      assert (Hall : forallb (fun x => implb (String.eqb (m_state x) "B")
                                         (implb (m_year_month x <? 638)%Z
                                                (m_year_month x <=? 637)%Z)) out
                     = true)
        by (vm_compute; reflexivity).
      rewrite forallb_forall in Hall. specialize (Hall r'' Hr'').
      replace (m_state (nth 5 out no_row)) with "B"%string by (vm_compute; reflexivity).
      replace (m_year_month (nth 5 out no_row)) with 638%Z by (vm_compute; reflexivity).
      replace (m_year_month (nth 4 out no_row)) with 637%Z by (vm_compute; reflexivity).
      intros Hst Hlt. rewrite Hst in Hall. simpl in Hall.
      destruct (m_year_month r'' <? 638)%Z eqn:E; [simpl in Hall; lia | lia].
    + apply Hfin; [reflexivity | reflexivity | intro E; discriminate E].
Defined.

Lemma finite_values_all (l : list fnum) :
  (forall x, In x l -> exists q, x = Fin q) ->
  exists xs, finite_values l = Some xs /\ length xs = length l.
Proof.
  induction l as [|x l IH]; intro H; simpl.
  - exists []. auto.
  - destruct (H x (or_introl eq_refl)) as [q ->].
    destruct IH as [xs [E L]]; [intros; apply H; now right|].
    rewrite E. exists (q :: xs). simpl. auto.
Qed.

Lemma region_series_derived sqrt p others table0 m l growth :
  (forall x, In x l -> sum_cols x = p :: others) ->
  region_series m (map (with_derived sqrt p others table0) (combine l growth))
  = map (col p) (filter (same_state m) (firstn (length growth) l)).
Proof.
  intro Hs. unfold region_series.
  revert growth. induction l as [|a l IH]; intros [|g growth]; simpl; auto.
  change (same_state m (with_derived sqrt p others table0 (a, g)))
    with (same_state m a).
  destruct (same_state m a); simpl.
  - rewrite (volume_sum_derived _ _ _ _ _ _ (Hs a (or_introl eq_refl))).
    f_equal. apply IH. intros; apply Hs; now right.
  - apply IH. intros; apply Hs; now right.
Qed.

(** The z-score of a row is 0 when the deviation of its region is NaN or
    not positive. *)
Lemma z_score_of_row sqrt df r :
  let out := _create_aggregated_features sqrt df in
  In r out -> volume_sum r <> None ->
  exists xs,
    finite_values (region_series r out) = Some xs /\ xs <> [] /\
    forall sd_is_zero :
      sample_std sqrt xs = NaN \/
      exists sd, sample_std sqrt xs = Fin sd /\ sd == 0,
      z_score r = Some (Fin 0).
Proof.
  intros out Hr Hv.
  assert (Hout : out = derive sqrt (map (aggregated_row sqrt (agg_dict df))
                                        (groupby (rows df)))).
  { unfold out, _create_aggregated_features in *.
    destruct (negb (has_column "state" df) || negb (has_column "date" df));
      [destruct Hr|].
    destruct (agg_dict df); [destruct Hr | reflexivity]. }
  set (table := map (aggregated_row sqrt (agg_dict df)) (groupby (rows df))) in *.
  assert (Hr' : In r (derive sqrt table)) by (rewrite <- Hout; exact Hr).
  destruct (derive_rows sqrt (agg_dict df) (groupby (rows df)) r Hr')
    as [Hsame [[Hnil _]|[p [others [pre [m [post [Hs [Hsplit Hrow]]]]]]]]].
  { unfold volume_sum in Hv. rewrite Hnil in Hv. congruence. }
  fold table in Hsame, Hsplit, Hrow.
  assert (Hm : In m table) by (rewrite Hsplit; apply in_or_app; right; now left).
  assert (Hall : forall x, In x table -> sum_cols x = p :: others).
  { intros x Hx. rewrite <- Hs. apply Hsame. exact Hx. }
  assert (Hfin : forall x, In x table -> exists q, col p x = Fin q).
  { intros x Hx. pose proof (Hall x Hx) as Hsx.
    unfold table in Hx. apply in_map_iff in Hx. destruct Hx as [kg [<- _]].
    apply sums_finite. rewrite Hsx. now left. }
  assert (Hseries : region_series r out
                    = map (col p) (filter (same_state m) table)).
  { assert (Hd : out = map (with_derived sqrt p others table)
                           (combine table (pct_change p [] table))).
    { rewrite Hout. unfold derive.
      destruct table as [|first rest] eqn:Et; [destruct Hm|].
      rewrite <- Et in *.
      rewrite (Hall first) by (rewrite Et; now left). reflexivity. }
    rewrite Hd.
    replace (region_series r) with (region_series m)
      by (unfold region_series, same_state; rewrite Hrow; reflexivity).
    rewrite (region_series_derived sqrt p others table m table _ Hall).
    rewrite pct_change_length, firstn_all. reflexivity. }
  destruct (finite_values_all (map (col p) (filter (same_state m) table)))
    as [xs [Hxs Hlen]].
  { intros x Hx. apply in_map_iff in Hx. destruct Hx as [y [<- Hy]].
    apply filter_In in Hy. apply Hfin. apply Hy. }
  exists xs. rewrite Hseries. split; [exact Hxs|]. split.
  - intro Hnil. rewrite Hnil in Hlen. simpl in Hlen.
    rewrite length_map in Hlen.
    assert (Hmf : In m (filter (same_state m) table)).
    { apply filter_In. split; [exact Hm|]. apply String.eqb_refl. }
    destruct (filter (same_state m) table); [destruct Hmf | discriminate].
  - intro Hsd. rewrite Hrow. simpl. f_equal.
    unfold z_transform. fold (same_state m). rewrite Hxs.
    destruct (Hfin m Hm) as [v ->].
    destruct Hsd as [->|[sd [-> Hz]]]; [reflexivity|].
    assert (E : Qle_bool sd 0 = true) by (apply Qle_bool_iff; lra).
    rewrite E. reflexivity.
Qed.

Lemma ratio_of_row sqrt df ec uc r :
  first_present enrolment_candidates df = Some ec ->
  first_present update_candidates df = Some uc ->
  (forall x, In x (rows df) -> 0 <= num x ec /\ 0 <= num x uc) ->
  In r (_create_aggregated_features sqrt df) ->
  exists u v,
    volume_sum r = Some (Fin v) /\ update_sum r = Some (Fin u) /\
    0 <= v /\ 0 <= u /\
    update_ratio r = Some (Fin (u / (if Qeq_bool v 0 then 1 else v))).
Proof.
  intros He Hu Hclean Hr. apply aggregated_rows in Hr.
  destruct (derive_rows sqrt (agg_dict df) (groupby (rows df)) r Hr)
    as [Hsame [[Hnil Hin]|[p [others [pre [m [post [Hs [Hsplit Hrow]]]]]]]]].
  { exfalso. apply in_map_iff in Hin. destruct Hin as [kg [<- _]].
    destruct (canonical_sums sqrt df ec uc kg He Hu) as [H1 _].
    rewrite H1 in Hnil. discriminate. }
  assert (Hm : In m (map (aggregated_row sqrt (agg_dict df)) (groupby (rows df)))).
  { rewrite Hsplit. apply in_or_app. right. now left. }
  pose proof (Hsame m Hm) as Hsm. rewrite Hs in Hsm.
  apply in_map_iff in Hm. destruct Hm as [[k g] [Hkg Hg]].
  destruct (canonical_sums sqrt df ec uc (k, g) He Hu) as [H1 [H2 H3]].
  rewrite Hkg in H1, H2, H3. rewrite H1 in Hsm. inversion Hsm; subst p others.
  simpl snd in H2, H3.
  destruct (groupby_members _ _ _ Hg) as [_ Hrec].
  exists (Qsum (map (fun x => num x uc) g)), (Qsum (map (fun x => num x ec) g)).
  assert (Hcol : forall c, col c r = col c m) by (rewrite Hrow; reflexivity).
  assert (Hsr : sum_cols r = sum_cols m) by (rewrite Hrow; reflexivity).
  assert (Hratio : update_ratio r
                   = Some (ratio (col (uc ++ "_sum") m) (col (ec ++ "_sum") m)))
    by (rewrite Hrow; reflexivity).
  unfold volume_sum, update_sum. rewrite Hsr, H1, !Hcol, Hratio, H2, H3.
  unfold ratio.
  split; [reflexivity|]. split; [reflexivity|].
  split; [|split; [|reflexivity]].
  - apply Qsum_nonneg. intros q Hq. apply in_map_iff in Hq.
    destruct Hq as [x [<- Hx]]. apply Hclean. apply Hrec. exact Hx.
  - apply Qsum_nonneg. intros q Hq. apply in_map_iff in Hq.
    destruct Hq as [x [<- Hx]]. apply Hclean. apply Hrec. exact Hx.
Qed.

(** C5 (amended).  For a row aggregated from records whose counts are not
    negative, [update_ratio] is [update_sum / volume_sum] with a
    [volume_sum] of exactly 0 replaced by 1; it is never negative, and it
    is [update_sum / max(volume_sum, 1)] whenever [volume_sum] is 0 or at
    least 1, as it is for whole-number counts.  The [z_score] of every row of
    a region is 0 when the standard deviation of the region's [volume_sum]
    series, as [Series.std] returns it, is 0 or undefined; it is undefined
    for a region with a single month.  Which longer series have the
    deviation 0 is left to [Series.std]: the statement holds of any value
    it returns. *)
Theorem update_ratio_replaces_zero_volume_only
  (sqrt : Q -> Q) (df : frame) (ec uc : string) (r : monthly) :
  let out := _create_aggregated_features sqrt df in
  first_present enrolment_candidates df = Some ec ->
  first_present update_candidates df = Some uc ->
  (forall x, In x (rows df) -> 0 <= num x ec /\ 0 <= num x uc) ->
  In r out ->
  (exists u v,
     volume_sum r = Some (Fin v) /\ update_sum r = Some (Fin u) /\
     0 <= v /\ 0 <= u /\
     update_ratio r = Some (Fin (u / (if Qeq_bool v 0 then 1 else v))) /\
     0 <= u / (if Qeq_bool v 0 then 1 else v) /\
     (v == 0 \/ 1 <= v ->
      u / (if Qeq_bool v 0 then 1 else v) == spec_update_ratio u v)) /\
  (exists xs,
     finite_values (region_series r out) = Some xs /\ xs <> [] /\
     (sample_std sqrt xs = NaN \/
      (exists sd, sample_std sqrt xs = Fin sd /\ sd == 0) ->
      z_score r = Some (Fin 0)) /\
     (length xs = 1%nat -> z_score r = Some (Fin 0))).
Proof.
  intros out He Hu Hclean Hr. split.
  - destruct (ratio_of_row sqrt df ec uc r He Hu Hclean Hr)
      as [u [v [H1 [H2 [H3 [H4 H5]]]]]].
    exists u, v. repeat split; auto.
    + destruct (Qeq_bool v 0) eqn:E.
      * apply Qle_shift_div_l; lra.
      * assert (~ v == 0) by (intro Hz; apply Qeq_bool_iff in Hz; congruence).
        apply Qle_shift_div_l; lra.
    + intros Hv. unfold spec_update_ratio.
      destruct (Qeq_bool v 0) eqn:E.
      * apply Qeq_bool_iff in E.
        assert (Hmax : Qmax v 1 == 1) by (apply Q.max_r; lra).
        rewrite Hmax. reflexivity.
      * assert (~ v == 0) by (intro Hz; apply Qeq_bool_iff in Hz; congruence).
        assert (Hmax : Qmax v 1 == v) by (apply Q.max_l; lra).
        rewrite Hmax. reflexivity.
  - destruct (ratio_of_row sqrt df ec uc r He Hu Hclean Hr) as [u [v [H1 _]]].
    destruct (z_score_of_row sqrt df r Hr) as [xs [Hxs [Hne Hz]]].
    { rewrite H1. discriminate. }
    exists xs. split; [exact Hxs|]. split; [exact Hne|]. split; [exact Hz|].
    intro Hlen. apply Hz. left. unfold sample_std. rewrite Hlen. reflexivity.
Qed.

Lemma update_ratio_replaces_zero_volume_only_witness :
  let out := _create_aggregated_features Qsqrt (_create_time_features scenario) in
  exists u v,
    volume_sum (nth 0 out no_row) = Some (Fin v) /\
    update_sum (nth 0 out no_row) = Some (Fin u) /\
    update_ratio (nth 0 out no_row) = Some (Fin (u / (if Qeq_bool v 0 then 1 else v))) /\
    0 <= u / (if Qeq_bool v 0 then 1 else v).
Proof.
  intro out.
  destruct (update_ratio_replaces_zero_volume_only
              Qsqrt (_create_time_features scenario)
              "enrolment_count" "update_count" (nth 0 out no_row))
    as [[u [v [H1 [H2 [_ [_ [H3 [H4 _]]]]]]]] _].
  - reflexivity.
  - reflexivity.
  - intros x Hx. simpl in Hx.
    repeat (destruct Hx as [<-|Hx]; [split; vm_compute; discriminate|]).
    destruct Hx.
  - apply nth_In. vm_compute. lia.
  - exists u, v. auto.
Defined.

(** C5, as the specification states it, fails on [half_volume]: its record
    passes the range checks of the cleaner, the volume sum is 1/2 and the
    update sum 1, so [update_sum / max(volume_sum, 1)] is 1; the code
    replaces only a zero divisor and gives 2. *)
Lemma update_ratio_differs_from_max_guard :
  Forall range_checked (rows half_volume) /\
  map (fun m => (option_map reduced (volume_sum m),
                 option_map reduced (update_sum m),
                 option_map reduced (update_ratio m)))
      (aggregate Qsqrt half_volume)
  = [(Some (Fin (1 # 2)), Some (Fin 1), Some (Fin 2))] /\
  ~ (2 == spec_update_ratio 1 (1 # 2)).
Proof.
  split; [|split].
  - constructor; [|constructor].
    unfold range_checked. simpl. repeat split; vm_compute; discriminate.
  - vm_compute. reflexivity.
  - vm_compute. discriminate.
Qed.

End FeatureEngineerFacts.

(** ** Schema detection *)

Section SchemaNormalizerFacts.
Import Table SchemaNormalizer.
Local Open Scope string_scope.

Lemma dict_get_set_same {V : Type} (d : list (string * V)) k v :
  dict_get (dict_set d k v) k = Some v.
Proof.
  induction d as [|[k' v'] d IH]; simpl.
  - now rewrite String.eqb_refl.
  - destruct (String.eqb k k') eqn:E; simpl; rewrite E; auto.
Qed.

Lemma dict_get_set_other {V : Type} (d : list (string * V)) k v k' :
  k <> k' -> dict_get (dict_set d k v) k' = dict_get d k'.
Proof.
  intro Hne. induction d as [|[k0 v0] d IH]; simpl.
  - apply String.eqb_neq in Hne. rewrite String.eqb_sym in Hne. now rewrite Hne.
  - destruct (String.eqb k k0) eqn:E; simpl.
    + apply String.eqb_eq in E. subst k0.
      apply String.eqb_neq in Hne. rewrite String.eqb_sym in Hne.
      now rewrite Hne.
    + rewrite IH. reflexivity.
Qed.

Lemma dict_values_set (d : list (string * string)) k v x :
  In x (dict_values (dict_set d k v)) -> x = v \/ In x (dict_values d).
Proof.
  unfold dict_values. induction d as [|[k0 v0] d IH]; simpl.
  - intuition.
  - destruct (String.eqb k k0); simpl; intuition.
Qed.

Lemma in_values_set d k v x :
  x <> v -> in_values x d = false -> in_values x (dict_set d k v) = false.
Proof.
  unfold in_values. intros Hne H.
  destruct (existsb (String.eqb x) (dict_values (dict_set d k v))) eqn:E; auto.
  apply existsb_exists in E. destruct E as [y [Hy Hxy]].
  apply String.eqb_eq in Hxy. subst y.
  destruct (dict_values_set _ _ _ _ Hy) as [->|Hin]; [congruence|].
  assert (Ht : existsb (String.eqb x) (dict_values d) = true).
  { apply existsb_exists. exists x. split; [exact Hin | apply String.eqb_refl]. }
  congruence.
Qed.

Lemma prefix_refl s : String.prefix s s = true.
Proof.
  induction s as [|c s IH]; simpl; auto.
  destruct (ascii_dec c c); [exact IH | congruence].
Qed.

Lemma prefix_append s t : String.prefix s (s ++ t) = true.
Proof.
  induction s as [|c s IH]; simpl.
  - destruct t; reflexivity.
  - destruct (ascii_dec c c); [exact IH | congruence].
Qed.

Lemma contains_prefix sub s : String.prefix sub s = true -> contains sub s = true.
Proof. intro H. destruct s; simpl in *; now rewrite H. Qed.

(** A label matched as a whole is found by the search as well. *)
Lemma re_match_search pattern col :
  re_match pattern col = true -> re_search pattern col = true.
Proof.
  unfold re_match, re_search. intro H. apply orb_true_iff in H.
  apply contains_prefix.
  destruct H as [H|H]; apply String.eqb_eq in H; rewrite H.
  - apply prefix_refl.
  - apply prefix_append.
Qed.

Section WithSetOrder.
Variable set_order : list string -> list string.
Hypothesis Hset : lists_the_elements set_order.

Lemma first_match_found patterns cols c conf :
  first_match set_order patterns cols = Some (c, conf) ->
  In c cols /\ exists p, In p patterns /\ re_search p c = true.
Proof.
  induction patterns as [|p patterns IH]; simpl; [discriminate|].
  destruct (set_order (filter (re_match p) cols ++ filter (re_search p) cols))
    as [|x l] eqn:E.
  - intro H. destruct (IH H) as [H1 [q [H2 H3]]]. split; auto.
    exists q. split; [now right | assumption].
  - intro H. inversion H; subst x.
    assert (Hin : In c (filter (re_match p) cols ++ filter (re_search p) cols)).
    { apply Hset. rewrite E. now left. }
    apply in_app_or in Hin.
    destruct Hin as [Hin|Hin]; apply filter_In in Hin; destruct Hin as [Hc Hp].
    + split; auto. exists p. split; [now left | now apply re_match_search].
    + split; auto. exists p. split; [now left | assumption].
Qed.

Lemma name_step_keeps cols st entry k :
  (forall p, In p (snd entry) -> re_search p k = false) ->
  dict_get (fst (name_step set_order cols st entry)) k = dict_get (fst st) k.
Proof.
  intro H. unfold name_step.
  destruct (first_match set_order (snd entry) cols) as [[c conf]|] eqn:E; auto.
  simpl. apply dict_get_set_other. intros ->.
  destruct (first_match_found _ _ _ _ E) as [_ [p [H1 H2]]].
  rewrite (H p H1) in H2. discriminate.
Qed.

Lemma name_step_values cols st entry v :
  v <> fst entry -> in_values v (fst st) = false ->
  in_values v (fst (name_step set_order cols st entry)) = false.
Proof.
  intros Hne H. unfold name_step.
  destruct (first_match set_order (snd entry) cols) as [[c conf]|]; auto.
  simpl. apply in_values_set; auto.
Qed.

Lemma set_order_nil : set_order [] = [].
Proof.
  destruct (set_order []) as [|x l] eqn:E; auto.
  exfalso. apply (proj1 (Hset [] x)). rewrite E. now left.
Qed.

Lemma first_match_none patterns cols :
  (forall p c, In p patterns -> In c cols -> re_search p c = false) ->
  first_match set_order patterns cols = None.
Proof.
  induction patterns as [|p patterns IH]; intro H; simpl; auto.
  assert (E1 : filter (re_search p) cols = []).
  { clear IH. induction cols as [|c cols IHc]; simpl; auto.
    rewrite (H p c) by (now left). apply IHc.
    intros q x Hq Hx. apply H; [assumption | now right]. }
  assert (E2 : filter (re_match p) cols = []).
  { clear IH E1. induction cols as [|c cols IHc]; simpl; auto.
    destruct (re_match p c) eqn:E.
    - apply re_match_search in E. rewrite (H p c) in E by (now left). discriminate.
    - apply IHc. intros q x Hq Hx. apply H; [assumption | now right]. }
  rewrite E1, E2. simpl. rewrite set_order_nil.
  apply IH. intros q c Hq Hc. apply H; [now right | assumption].
Qed.

End WithSetOrder.

Lemma date_step_keeps parses st c k v :
  dict_get (fst st) k = Some v ->
  dict_get (fst (date_step parses st c)) k = Some v.
Proof.
  intro H. unfold date_step, dict_mem.
  destruct (dict_get (fst st) (name c)) eqn:E; auto.
  destruct (sample c); auto.
  destruct (parses (c0 :: l) && negb (in_values "date" (fst st))); auto.
  simpl. rewrite dict_get_set_other; auto. intro Hk. rewrite Hk in E. congruence.
Qed.

Lemma numeric_step_keeps st c k v :
  dict_get (fst st) k = Some v ->
  dict_get (fst (numeric_step st c)) k = Some v.
Proof.
  intro H. unfold numeric_step, dict_mem.
  destruct (dict_get (fst st) (name c)) eqn:E; auto.
  destruct (existsb _ count_keywords && negb (in_values "enrolment_count" (fst st)));
    auto.
  simpl. rewrite dict_get_set_other; auto. intro Hk. rewrite Hk in E. congruence.
Qed.

Lemma date_phase_keeps parses df st k v :
  dict_get (fst st) k = Some v ->
  dict_get (fst (date_phase parses df st)) k = Some v.
Proof.
  unfold date_phase. revert st.
  induction df as [|c df IH]; intros st H; simpl; auto.
  apply IH. apply date_step_keeps. exact H.
Qed.

Lemma numeric_phase_keeps df st k v :
  dict_get (fst st) k = Some v ->
  dict_get (fst (numeric_phase df st)) k = Some v.
Proof.
  unfold numeric_phase. generalize (filter numeric df) as l. intro l. revert st.
  induction l as [|c l IH]; intros st H; simpl; auto.
  apply IH. apply numeric_step_keeps. exact H.
Qed.

Lemma name_step_skips set_order cols st entry k :
  lists_the_elements set_order ->
  forallb (fun p => negb (re_search p k)) (snd entry) = true ->
  dict_get (fst (name_step set_order cols st entry)) k = dict_get (fst st) k.
Proof.
  intros Hset H. apply name_step_keeps; auto.
  intros p Hp. rewrite forallb_forall in H. specialize (H p Hp).
  now apply negb_true_iff in H.
Qed.

Lemma name_step_takes set_order cols st std p0 rest k :
  lists_the_elements set_order ->
  In k cols -> re_search p0 k = true ->
  (forall c, In c cols -> re_search p0 c = true -> c = k) ->
  fst (name_step set_order cols st (std, p0 :: rest)) = dict_set (fst st) k std.
Proof.
  intros Hset Hin Hk Honly. unfold name_step. simpl.
  destruct (set_order (filter (re_match p0) cols ++ filter (re_search p0) cols)%list)
    as [|x l] eqn:E.
  - exfalso. apply (in_nil (a := k)). rewrite <- E. apply Hset.
    apply in_or_app. right. apply filter_In. auto.
  - assert (Hx : In x (filter (re_match p0) cols ++ filter (re_search p0) cols)%list).
    { apply Hset. rewrite E. now left. }
    assert (x = k).
    { apply in_app_or in Hx.
      destruct Hx as [Hx|Hx]; apply filter_In in Hx; destruct Hx as [H1 H2].
      - apply Honly; auto. now apply re_match_search.
      - apply Honly; auto. }
    subst x. reflexivity.
Qed.

Lemma name_phase_has_no_date set_order df :
  lists_the_elements set_order ->
  (forall x, In x (map name df) -> no_date_name x = true) ->
  in_values "date" (fst (name_phase set_order df)) = false.
Proof.
  intros Hset Hno. unfold name_phase, column_patterns. cbn [fold_left].
  repeat (apply name_step_values; [discriminate|]).
  unfold name_step at 1. cbn [snd].
  rewrite first_match_none; auto.
  intros p c Hp Hc. specialize (Hno c Hc).
  unfold no_date_name in Hno.
  let t := eval vm_compute in (dict_get column_patterns "date") in
  change (dict_get column_patterns "date") with t in Hno.
  cbv iota in Hno.
  rewrite forallb_forall in Hno. specialize (Hno p Hp).
  now apply negb_true_iff in Hno.
Qed.

Lemma dict_get_in_values d k v :
  dict_get d k = Some v -> in_values v d = true.
Proof.
  unfold in_values, dict_values. induction d as [|[k' v'] d IH]; simpl.
  - discriminate.
  - destruct (String.eqb k k').
    + intro H. inversion H; subst v'. now rewrite String.eqb_refl.
    + intro H. rewrite (IH H). apply orb_true_r.
Qed.

Lemma in_values_set_same d k v : in_values v (dict_set d k v) = true.
Proof. apply (dict_get_in_values _ k). apply dict_get_set_same. Qed.

(** Once [date] is a value of the mapping the fallback changes nothing. *)
Lemma date_step_done parses st c :
  in_values "date" (fst st) = true -> date_step parses st c = st.
Proof.
  intro H. unfold date_step.
  destruct (dict_mem (fst st) (name c)); auto.
  destruct (sample c); auto.
  rewrite H, andb_false_r. reflexivity.
Qed.

Lemma date_phase_done parses l st :
  in_values "date" (fst st) = true -> fold_left (date_step parses) l st = st.
Proof.
  intro H. induction l as [|c l IH]; simpl; auto.
  rewrite date_step_done; auto.
Qed.

Lemma date_step_candidate parses st c :
  in_values "date" (fst st) = false ->
  date_candidate parses (fst st) c = true ->
  fst (date_step parses st c) = dict_set (fst st) (name c) "date".
Proof.
  intros Hnd Hc. unfold date_candidate in Hc. unfold date_step.
  apply andb_true_iff in Hc. destruct Hc as [H1 H2].
  apply negb_true_iff in H1. rewrite H1.
  destruct (sample c) as [|v l]; [discriminate|].
  rewrite H2, Hnd. reflexivity.
Qed.

Lemma date_step_passes parses st c :
  date_candidate parses (fst st) c = false -> date_step parses st c = st.
Proof.
  intro Hc. unfold date_candidate in Hc. unfold date_step.
  destruct (dict_mem (fst st) (name c)); auto.
  destruct (sample c) as [|v l]; auto.
  simpl in Hc. rewrite Hc. reflexivity.
Qed.

(** The fallback gives [date] to the first candidate, and to it alone. *)
Lemma date_phase_first parses l st k :
  in_values "date" (fst st) = false ->
  dict_get (fst (fold_left (date_step parses) l st)) k = Some "date" ->
  exists pre c post,
    l = (pre ++ c :: post)%list /\ name c = k /\
    date_candidate parses (fst st) c = true /\
    forallb (fun x => negb (date_candidate parses (fst st) x)) pre = true.
Proof.
  intros Hnd. induction l as [|c l IH]; simpl; intro H.
  - apply dict_get_in_values in H. congruence.
  - destruct (date_candidate parses (fst st) c) eqn:Ec.
    + rewrite date_phase_done in H
        by (rewrite (date_step_candidate _ _ _ Hnd Ec); apply in_values_set_same).
      rewrite (date_step_candidate _ _ _ Hnd Ec) in H.
      destruct (string_dec (name c) k) as [E|E].
      * exists [], c, l. auto.
      * rewrite dict_get_set_other in H by exact E.
        apply dict_get_in_values in H. congruence.
    + rewrite (date_step_passes _ _ _ Ec) in H.
      destruct (IH H) as [pre [c' [post [Hl [Hk [Hc Hpre]]]]]].
      exists (c :: pre), c', post. rewrite Hl. repeat split; auto.
      simpl. rewrite Ec. exact Hpre.
Qed.

Lemma numeric_step_date st c k :
  dict_get (fst (numeric_step st c)) k = Some "date" ->
  dict_get (fst st) k = Some "date".
Proof.
  unfold numeric_step.
  destruct (dict_mem (fst st) (name c)); auto.
  destruct (existsb _ count_keywords && negb (in_values "enrolment_count" (fst st)));
    auto.
  simpl. destruct (string_dec (name c) k) as [E|E].
  - rewrite E, dict_get_set_same. discriminate.
  - now rewrite dict_get_set_other by exact E.
Qed.

Lemma numeric_phase_date df st k :
  dict_get (fst (numeric_phase df st)) k = Some "date" ->
  dict_get (fst st) k = Some "date".
Proof.
  unfold numeric_phase. generalize (filter numeric df) as l. intro l. revert st.
  induction l as [|c l IH]; intros st H; simpl in *; auto.
  apply numeric_step_date with (c := c). apply IH. exact H.
Qed.

(** C9 (amended).  A column named [Total_Enrolments] is mapped to
    [enrolment_count], by the pattern ["enrolment"], when no other label of
    the table contains that word.  When no label matches a pattern of
    [date], the fallback on values gives [date] to the first column, in the
    order of the table, that no name pattern has assigned and whose sample of
    up to ten non-null values is not empty and parses as dates, whatever the
    parser accepts; no other column gets [date], so a column of ISO date
    strings gets it exactly when it is that column. *)
Theorem schema_detection_of_volume_and_date
  (set_order : list string -> list string)
  (to_datetime_parses : list cell -> bool) (df : list column) :
  let result := auto_detect_schema set_order to_datetime_parses df in
  let by_name := fst (name_phase set_order df) in
  lists_the_elements set_order ->
  (In "Total_Enrolments" (map name df) ->
   (forall c, In c (map name df) -> re_search "enrolment" c = true ->
              c = "Total_Enrolments") ->
   dict_get (mapping result) "Total_Enrolments" = Some "enrolment_count") /\
  ((forall x, In x (map name df) -> no_date_name x = true) ->
   (forall pre c post,
      df = (pre ++ c :: post)%list ->
      date_candidate to_datetime_parses by_name c = true ->
      forallb (fun x => negb (date_candidate to_datetime_parses by_name x)) pre
      = true ->
      dict_get (mapping result) (name c) = Some "date") /\
   (forall k,
      dict_get (mapping result) k = Some "date" ->
      exists pre c post,
        df = (pre ++ c :: post)%list /\ name c = k /\
        date_candidate to_datetime_parses by_name c = true /\
        forallb (fun x => negb (date_candidate to_datetime_parses by_name x)) pre
        = true)).
Proof.
  intros result by_name Hset. split.
  - intros Hin Honly. unfold result, auto_detect_schema. cbn [mapping].
    apply numeric_phase_keeps, date_phase_keeps.
    unfold name_phase, column_patterns. cbn [fold_left].
    repeat (rewrite name_step_skips; [|exact Hset | vm_compute; reflexivity]).
    rewrite (name_step_takes set_order _ _ _ _ _ "Total_Enrolments" Hset Hin);
      [apply dict_get_set_same | vm_compute; reflexivity | exact Honly].
  - intro Hno.
    pose proof (name_phase_has_no_date set_order df Hset Hno) as Hnd.
    fold by_name in Hnd.
    unfold result, auto_detect_schema. cbn [mapping].
    set (st0 := name_phase set_order df) in *.
    split.
    + intros pre c post Hdf Hc Hpre.
      apply numeric_phase_keeps. unfold date_phase.
      rewrite Hdf at 1. rewrite fold_left_app.
      assert (Hskip : fold_left (date_step to_datetime_parses) pre st0 = st0).
      { clear Hdf. induction pre as [|x pre IH]; simpl; auto.
        simpl in Hpre. apply andb_true_iff in Hpre. destruct Hpre as [Hx Hpre].
        apply negb_true_iff in Hx.
        rewrite (date_step_passes _ _ _ Hx). apply IH. exact Hpre. }
      rewrite Hskip. cbn [fold_left].
      apply (date_phase_keeps to_datetime_parses post).
      rewrite (date_step_candidate _ _ _ Hnd Hc).
      apply dict_get_set_same.
    + intros k Hk. apply numeric_phase_date in Hk.
      apply (date_phase_first to_datetime_parses df st0 k Hnd Hk).
Qed.

Lemma distinct_order_lists : lists_the_elements distinct_order.
Proof. intros l x. apply nodup_In. Qed.

Lemma schema_detection_of_volume_and_date_witness :
  let result := auto_detect_schema distinct_order iso_only plain_table in
  dict_get (mapping result) "Total_Enrolments" = Some "enrolment_count" /\
  dict_get (mapping result) "when" = Some "date".
Proof.
  intro result.
  destruct (schema_detection_of_volume_and_date distinct_order iso_only plain_table
              distinct_order_lists) as [H1 H2].
  split.
  - apply H1.
    + now left.
    + intros c Hc Hs. simpl in Hc. destruct Hc as [<-|[<-|[]]];
        [reflexivity | vm_compute in Hs; discriminate].
  - destruct H2 as [H2 _].
    + intros x Hx. simpl in Hx. destruct Hx as [<-|[<-|[]]]; vm_compute; reflexivity.
    + apply (H2 [{| name := "Total_Enrolments"; numeric := true;
                    values := [Num 120; Num 80] |}]
                {| name := "when"; numeric := false;
                   values := [Str "2021-03-01"; Null; Str "2021-03-02"] |} []).
      * reflexivity.
      * vm_compute. reflexivity.
      * vm_compute. reflexivity.
Defined.

(** C9, as the specification states it, fails on [corrections_table]: no
    label matches a pattern of [date] and the column [Correction_Day] holds
    ISO dates, but the pattern ["correction"] has given it to
    [update_count], the fallback passes over assigned columns, and no column
    becomes [date]. *)
Lemma iso_date_column_not_detected :
  forallb no_date_name (map name corrections_table) = true /\
  map (fun c => forallb iso_cell (sample c)) corrections_table = [false; true] /\
  mapping (auto_detect_schema distinct_order iso_only corrections_table)
  = [("Total_Enrolments", "enrolment_count"); ("Correction_Day", "update_count")] /\
  dict_get (mapping (auto_detect_schema distinct_order iso_only corrections_table))
           "Correction_Day" <> Some "date".
Proof.
  repeat split; try (vm_compute; reflexivity).
  vm_compute. discriminate.
Qed.

End SchemaNormalizerFacts.

(** ** Data cleaner: row counts *)

Section CleanerRowCounts.
Import Table Cleaner.
Local Open Scope nat_scope.

Lemma nrows_map_column c f df : nrows (map_column c f df) = nrows df.
Proof. unfold nrows, map_column. simpl. apply length_map. Qed.

Lemma nrows_filter_rows keep df : nrows (filter_rows keep df) <= nrows df.
Proof. unfold nrows, filter_rows. simpl. apply filter_length_le. Qed.

Lemma nrows_fill_median df c : nrows (fill_median df c) = nrows df.
Proof.
  unfold fill_median.
  destruct (existsb isna (column_values c df)); auto.
  destruct (median (numbers (column_values c df))); auto.
  apply nrows_map_column.
Qed.

Lemma nrows_fill_mode df c : nrows (fill_mode df c) = nrows df.
Proof.
  unfold fill_mode.
  destruct (has_column c df && existsb isna (column_values c df)); auto.
  destruct (mode (column_values c df)); apply nrows_map_column.
Qed.

Lemma nrows_fold {A : Type} (step : frame -> A -> frame) (l : list A) df :
  (forall d a, nrows (step d a) = nrows d) ->
  nrows (fold_left step l df) = nrows df.
Proof.
  intro H. revert df. induction l as [|a l IH]; intro df; simpl; auto.
  rewrite IH. apply H.
Qed.

Lemma drop_duplicates_length key seen l :
  length (drop_duplicates key seen l) <= length l.
Proof.
  revert seen. induction l as [|row l IH]; intro seen; simpl; auto.
  destruct (existsb (keys_eqb (key row)) seen); simpl.
  - specialize (IH seen). lia.
  - specialize (IH (key row :: seen)). lia.
Qed.

(** A step that only drops rows or rewrites cells. *)
Ltac shrink :=
  repeat match goal with
         | |- nrows (if ?b then _ else _) <= _ => destruct b
         | |- nrows (match ?l with [] => _ | _ :: _ => _ end) <= _ => destruct l
         | |- nrows (filter_rows _ ?d) <= _ =>
             apply (Nat.le_trans _ (nrows d)); [apply nrows_filter_rows|]
         | |- nrows (map_column _ _ ?d) <= _ => rewrite nrows_map_column
         | |- nrows ?d <= nrows ?d => apply Nat.le_refl
         end.

Lemma standardize_columns_rows cm df :
  nrows (_standardize_columns cm df) = nrows df.
Proof. reflexivity. Qed.

Lemma handle_missing_values_rows df :
  nrows (_handle_missing_values df) <= nrows df.
Proof.
  unfold _handle_missing_values.
  apply (Nat.le_trans _ _ _ (nrows_filter_rows _ _)).
  rewrite (nrows_fold fill_mode) by apply nrows_fill_mode.
  rewrite (nrows_fold fill_median) by apply nrows_fill_median.
  shrink.
Qed.

Lemma clean_dates_rows to_datetime now df :
  nrows (_clean_dates to_datetime now df) <= nrows df.
Proof. unfold _clean_dates. shrink. Qed.

Lemma clean_geographic_data_rows repr_number repr_timestamp df :
  nrows (_clean_geographic_data repr_number repr_timestamp df) = nrows df.
Proof.
  unfold _clean_geographic_data.
  repeat match goal with
         | |- nrows (if ?b then _ else _) = _ => destruct b
         | |- nrows (map_column _ _ _) = _ => rewrite nrows_map_column
         end; reflexivity.
Qed.

Lemma validate_numeric_ranges_rows df :
  nrows (_validate_numeric_ranges df) <= nrows df.
Proof.
  unfold _validate_numeric_ranges.
  set (df1 := if has_column "enrolment_count" df then _ else df).
  assert (H1 : nrows df1 <= nrows df) by (unfold df1; shrink).
  set (df2 := if has_column "update_count" df1 then _ else df1).
  assert (H2 : nrows df2 <= nrows df1) by (unfold df2; shrink).
  destruct (filter (fun c => has_column c df2) age_columns) as [|a l] eqn:E.
  - lia.
  - set (df3 := fold_left _ (a :: l) df2).
    assert (H3 : nrows df3 = nrows df2).
    { unfold df3. apply nrows_fold. intros d c. apply nrows_map_column. }
    destruct (has_column "enrolment_count" df3).
    + pose proof (nrows_filter_rows
                    (fun row => at_most_times (11 # 10) (age_sum df3 (a :: l) row)
                                  (cell_at df3 "enrolment_count" row)) df3).
      lia.
    + lia.
Qed.

Lemma remove_duplicates_rows df : nrows (_remove_duplicates df) <= nrows df.
Proof.
  unfold _remove_duplicates.
  destruct (filter (fun c => has_column c df) duplicate_cols); auto.
  unfold nrows. simpl. apply drop_duplicates_length.
Qed.

(** C3.  None of the six steps of the cleaner adds a row: after column
    standardization, missing-value handling, date validation, geographic
    normalization, numeric range validation and deduplication the table has
    at most the rows it had before the step, and the cleaned table has at
    most the rows of the input. *)
Theorem clean_never_adds_rows
  (column_mappings : list (string * list string))
  (to_datetime : cell -> option Z) (now : Z)
  (repr_number : Q -> string) (repr_timestamp : Z -> string) (df : frame) :
  let df1 := _standardize_columns column_mappings df in
  let df2 := _handle_missing_values df1 in
  let df3 := _clean_dates to_datetime now df2 in
  let df4 := _clean_geographic_data repr_number repr_timestamp df3 in
  let df5 := _validate_numeric_ranges df4 in
  let df6 := _remove_duplicates df5 in
  clean column_mappings to_datetime now repr_number repr_timestamp df = df6 /\
  nrows df6 <= nrows df5 /\ nrows df5 <= nrows df4 /\ nrows df4 <= nrows df3 /\
  nrows df3 <= nrows df2 /\ nrows df2 <= nrows df1 /\ nrows df1 <= nrows df /\
  nrows (clean column_mappings to_datetime now repr_number repr_timestamp df)
  <= nrows df.
Proof.
  intros df1 df2 df3 df4 df5 df6.
  assert (H6 : nrows df6 <= nrows df5) by apply remove_duplicates_rows.
  assert (H5 : nrows df5 <= nrows df4) by apply validate_numeric_ranges_rows.
  assert (H4 : nrows df4 <= nrows df3)
    by (unfold df4; rewrite clean_geographic_data_rows; apply Nat.le_refl).
  assert (H3 : nrows df3 <= nrows df2) by apply clean_dates_rows.
  assert (H2 : nrows df2 <= nrows df1) by apply handle_missing_values_rows.
  assert (H1 : nrows df1 <= nrows df)
    by (unfold df1; rewrite standardize_columns_rows; apply Nat.le_refl).
  repeat split; auto.
  change (nrows df6 <= nrows df). lia.
Qed.

End CleanerRowCounts.

(** ** Data cleaner: clean tables are fixed points *)

Section CleanerFixedPoints.
Import Table Cleaner.
Local Open Scope string_scope.

Lemma frame_eta df : {| columns := columns df; rows := rows df |} = df.
Proof. destruct df; reflexivity. Qed.

Lemma filter_rows_id keep df :
  forallb keep (rows df) = true -> filter_rows keep df = df.
Proof.
  intro H. unfold filter_rows. rewrite (forallb_filter_id _ _ H). apply frame_eta.
Qed.

Lemma update_at_id i f row :
  f (nth i row Null) = nth i row Null -> update_at i f row = row.
Proof.
  revert i. induction row as [|x row IH]; intros [|i] H; simpl in *; auto.
  - now rewrite H.
  - now rewrite IH.
Qed.

Lemma map_column_id c f df :
  (forall row, In row (rows df) -> f (cell_at df c row) = cell_at df c row) ->
  map_column c f df = df.
Proof.
  intro H. unfold map_column.
  rewrite (map_ext_in _ (fun row => row)).
  - rewrite map_id. apply frame_eta.
  - intros row Hrow. apply update_at_id. apply H. exact Hrow.
Qed.

Lemma for_column_holds df c p :
  for_column df c p = true -> has_column c df = true ->
  forall row, In row (rows df) -> p row (cell_at df c row) = true.
Proof.
  unfold for_column. intros H Hc row Hrow. rewrite Hc in H. simpl in H.
  rewrite forallb_forall in H. apply H. exact Hrow.
Qed.

Lemma index_of_lt c cols :
  existsb (String.eqb c) cols = true -> (index_of c cols < length cols)%nat.
Proof.
  induction cols as [|c' cols IH]; simpl; [discriminate|].
  destruct (String.eqb c c'); simpl; intro H; [lia|].
  specialize (IH H). lia.
Qed.

(** In a well-formed table without missing values, a cell read under a
    label of the table is not missing. *)
Lemma cell_present df c row :
  has_column c df = true -> In row (rows df) ->
  forallb (fun row => (length row =? length (columns df))%nat) (rows df) = true ->
  forallb (forallb notna) (rows df) = true ->
  notna (cell_at df c row) = true.
Proof.
  intros Hc Hrow Hwf Hnn.
  rewrite forallb_forall in Hwf, Hnn.
  specialize (Hwf row Hrow). specialize (Hnn row Hrow).
  apply Nat.eqb_eq in Hwf. rewrite forallb_forall in Hnn.
  apply Hnn. unfold cell_at. apply nth_In.
  rewrite Hwf. apply index_of_lt. exact Hc.
Qed.

Lemma column_mapping_identity cm df :
  canonical_names cm df = true ->
  forall k v, dict_get (column_mapping cm df) k = Some v -> v = k.
Proof.
  unfold canonical_names, column_mapping. intro Hcm.
  assert (G : forall l acc,
             forallb (fun entry =>
                        forallb (fun possible_name =>
                                   negb (has_column possible_name df)
                                   || String.eqb possible_name (fst entry))
                                (snd entry)) l = true ->
             (forall k v, dict_get acc k = Some v -> v = k) ->
             forall k v,
               dict_get
                 (fold_left
                    (fun mapping entry =>
                       match find (fun possible_name => has_column possible_name df)
                                  (snd entry) with
                       | Some possible_name => dict_set mapping possible_name (fst entry)
                       | None => mapping
                       end) l acc) k = Some v -> v = k).
  { clear. induction l as [|entry l IH]; intros acc Hl Hacc; simpl; auto.
    simpl in Hl. apply andb_true_iff in Hl. destruct Hl as [He Hl].
    apply IH; auto.
    destruct (find (fun possible_name => has_column possible_name df) (snd entry))
      as [possible|] eqn:E; auto.
    apply find_some in E. destruct E as [Hin Hhas].
    rewrite forallb_forall in He. specialize (He possible Hin).
    rewrite Hhas in He. simpl in He. apply String.eqb_eq in He.
    intros k v. destruct (string_dec possible k) as [->|Hne].
    - rewrite dict_get_set_same. intro H. inversion H. congruence.
    - rewrite dict_get_set_other by assumption. apply Hacc. }
  apply G; auto. intros k v H. discriminate H.
Qed.

Lemma standardize_columns_id cm df :
  canonical_names cm df = true -> _standardize_columns cm df = df.
Proof.
  intro H. unfold _standardize_columns.
  rewrite (map_ext_in _ (fun c => c)).
  - rewrite map_id. apply frame_eta.
  - intros c _. destruct (dict_get (column_mapping cm df) c) eqn:E; auto.
    apply (column_mapping_identity cm df H) in E. exact E.
Qed.

Lemma fill_median_id df c :
  existsb isna (column_values c df) = false -> fill_median df c = df.
Proof. intro H. unfold fill_median. now rewrite H. Qed.

Lemma fill_mode_id df c :
  (has_column c df = true -> existsb isna (column_values c df) = false) ->
  fill_mode df c = df.
Proof.
  intro H. unfold fill_mode.
  destruct (has_column c df); auto. now rewrite H.
Qed.

Lemma fold_id {A : Type} (step : frame -> A -> frame) (l : list A) df :
  (forall a, In a l -> step df a = df) -> fold_left step l df = df.
Proof.
  induction l as [|a l IH]; intro H; simpl; auto.
  rewrite (H a) by now left. apply IH. intros; apply H; now right.
Qed.

Lemma column_without_nulls df c :
  has_column c df = true ->
  forallb (fun row => (length row =? length (columns df))%nat) (rows df) = true ->
  forallb (forallb notna) (rows df) = true ->
  existsb isna (column_values c df) = false.
Proof.
  intros Hc Hwf Hnn.
  destruct (existsb isna (column_values c df)) eqn:E; auto.
  apply existsb_exists in E. destruct E as [x [Hx Hna]].
  unfold column_values in Hx. apply in_map_iff in Hx.
  destruct Hx as [row [<- Hrow]].
  pose proof (cell_present df c row Hc Hrow Hwf Hnn) as Hp.
  unfold notna in Hp. rewrite Hna in Hp. discriminate.
Qed.

Lemma combine_has {A B : Type} (l1 : list A) (l2 : list B) a :
  In a l1 -> length l2 = length l1 -> exists b, In (a, b) (combine l1 l2).
Proof.
  revert l2. induction l1 as [|x l1 IH]; intros [|y l2] Hin Hlen; simpl in *;
    try discriminate; try contradiction.
  destruct Hin as [->|Hin].
  - exists y. now left.
  - destruct (IH l2 Hin) as [b Hb]; [congruence|]. exists b. now right.
Qed.

Lemma mostly_present_clean df row :
  In row (rows df) ->
  well_formed df = true ->
  forallb (forallb notna) (rows df) = true ->
  mostly_present df row = true.
Proof.
  intros Hrow Hwf Hnn. unfold well_formed in Hwf.
  apply andb_true_iff in Hwf. destruct Hwf as [Hlen Hcol].
  rewrite forallb_forall in Hlen, Hnn.
  specialize (Hlen row Hrow). specialize (Hnn row Hrow).
  apply Nat.eqb_eq in Hlen. rewrite forallb_forall in Hnn.
  assert (Hex : existsb (fun c => negb (String.eqb c "source_file")) (columns df)
                = true).
  { destruct (rows df); [destruct Hrow | exact Hcol]. }
  apply existsb_exists in Hex. destruct Hex as [c [Hc Hns]].
  destruct (combine_has (columns df) row c Hc Hlen) as [x Hx].
  unfold mostly_present.
  assert (Hnull : filter isna (checked_cells df row) = []).
  { assert (Hall : forallb (fun y => negb (isna y)) (checked_cells df row) = true).
    { apply forallb_forall. intros y Hy. unfold checked_cells in Hy.
      apply in_map_iff in Hy. destruct Hy as [[c' y'] [<- Hy]].
      apply filter_In in Hy. destruct Hy as [Hy _].
      apply in_combine_r in Hy. apply (Hnn y' Hy). }
    generalize dependent (checked_cells df row). clear.
    induction l as [|y l IH]; simpl; intro H; auto.
    apply andb_true_iff in H. destruct H as [H1 H2].
    apply negb_true_iff in H1. rewrite H1. auto. }
  rewrite Hnull. simpl.
  assert (Hpos : In x (checked_cells df row)).
  { unfold checked_cells. apply in_map_iff. exists (c, x). split; auto.
    apply filter_In. split; auto. }
  destruct (checked_cells df row); [destruct Hpos | reflexivity].
Qed.

Lemma numeric_cols_columns df c : In c (numeric_cols df) -> has_column c df = true.
Proof.
  unfold numeric_cols, has_column. intro H. apply filter_In in H.
  apply existsb_exists. exists c. split; [apply H | apply String.eqb_refl].
Qed.

Lemma handle_missing_values_id df :
  well_formed df = true ->
  forallb (forallb notna) (rows df) = true ->
  _handle_missing_values df = df.
Proof.
  intros Hwf Hnn. pose proof Hwf as Hwf'. unfold well_formed in Hwf'.
  apply andb_true_iff in Hwf'. destruct Hwf' as [Hlen _].
  unfold _handle_missing_values.
  assert (H1 : (if has_column "date" df
                then filter_rows (fun row => notna (cell_at df "date" row)) df
                else df) = df).
  { destruct (has_column "date" df) eqn:E; auto.
    apply filter_rows_id. apply forallb_forall. intros row Hrow.
    apply cell_present; auto. }
  rewrite H1.
  rewrite (fold_id fill_median).
  - rewrite (fold_id fill_mode).
    + apply filter_rows_id. apply forallb_forall. intros row Hrow.
      apply mostly_present_clean; auto.
    + intros c _. apply fill_mode_id. intro Hc.
      apply column_without_nulls; auto.
  - intros c Hc. apply fill_median_id.
    apply column_without_nulls; auto. apply numeric_cols_columns. exact Hc.
Qed.

Lemma clean_dates_id to_datetime now df :
  (forall t, to_datetime (Date t) = Some t) ->
  for_column df "date" (fun _ => in_window now) = true ->
  _clean_dates to_datetime now df = df.
Proof.
  intros Hparse Hwin. unfold _clean_dates.
  destruct (has_column "date" df) eqn:E; simpl; auto.
  pose proof (for_column_holds _ _ _ Hwin E) as Hrows.
  assert (Hdate : forall row, In row (rows df) ->
                    exists t, cell_at df "date" row = Date t /\
                              (aadhaar_start <= t <= now)%Z).
  { intros row Hrow. specialize (Hrows row Hrow). simpl in Hrows.
    destruct (cell_at df "date" row); try discriminate.
    exists t. split; auto. unfold in_window in Hrows.
    apply andb_true_iff in Hrows. destruct Hrows as [H1 H2].
    apply Z.leb_le in H1, H2. lia. }
  rewrite (map_column_id "date" (coerce_date to_datetime) df).
  - rewrite (filter_rows_id (fun row => notna (cell_at df "date" row)) df).
    + rewrite (filter_rows_id (date_between df (Some aadhaar_start) None) df).
      * apply filter_rows_id. apply forallb_forall. intros row Hrow.
        destruct (Hdate row Hrow) as [t [Ht Hb]].
        unfold date_between. rewrite Ht. simpl. apply Z.leb_le. lia.
      * apply forallb_forall. intros row Hrow.
        destruct (Hdate row Hrow) as [t [Ht Hb]].
        unfold date_between. rewrite Ht. simpl.
        rewrite andb_true_r. apply Z.leb_le. lia.
    + apply forallb_forall. intros row Hrow.
      destruct (Hdate row Hrow) as [t [Ht Hb]]. rewrite Ht. reflexivity.
  - intros row Hrow. destruct (Hdate row Hrow) as [t [Ht _]].
    rewrite Ht. unfold coerce_date. now rewrite Hparse.
Qed.

(** A name in title case is none of the upper-case keys of the table of
    corrections. *)
Lemma title_not_corrected s :
  title s = s -> dict_get state_corrections s = None.
Proof.
  intro Ht. unfold state_corrections, dict_get.
  repeat match goal with
         | |- (if String.eqb s ?k then _ else _) = None =>
             let E := fresh "E" in
             destruct (String.eqb s k) eqn:E;
             [apply String.eqb_eq in E; subst s; vm_compute in Ht; discriminate Ht|]
         end.
  reflexivity.
Qed.

Lemma digit_not_space c : is_digit c = true -> is_space c = false.
Proof.
  unfold is_digit, is_space. generalize (nat_of_ascii c) as n. intros n H.
  apply andb_true_iff in H. destruct H as [H1 H2].
  apply Nat.leb_le in H1, H2.
  apply orb_false_iff. split; apply andb_false_iff.
  - right. apply Nat.leb_gt. lia.
  - right. apply Nat.leb_gt. lia.
Qed.

Lemma six_digit_string_fixed repr_number repr_timestamp c :
  six_digit_string c = true ->
  clean_pincode repr_number repr_timestamp c = c.
Proof.
  unfold six_digit_string, clean_pincode.
  destruct c as [|q|s|t]; try discriminate. simpl astype_str.
  destruct (six_digits s) as [digits|] eqn:E; [|discriminate].
  intro H. apply String.eqb_eq in H. subst digits.
  destruct s as [|a [|b [|c [|d [|e [|f rest]]]]]]; try discriminate E.
  simpl in E.
  destruct (is_digit a) eqn:Da; [|discriminate E].
  destruct (is_digit b) eqn:Db; [|discriminate E].
  destruct (is_digit c) eqn:Dc; [|discriminate E].
  destruct (is_digit d) eqn:Dd; [|discriminate E].
  destruct (is_digit e) eqn:De; [|discriminate E].
  destruct (is_digit f) eqn:Df; [|discriminate E].
  simpl in E. inversion E as [Hrest]. clear E Hrest.
  unfold strip. cbn [lstrip]. rewrite (digit_not_space a Da).
  cbn [rstrip]. rewrite (digit_not_space f Df).
  cbn [extract_pincode six_digits forallb].
  rewrite Da, Db, Dc, Dd, De, Df. reflexivity.
Qed.

Lemma clean_geographic_data_id repr_number repr_timestamp df :
  for_column df "state" (fun _ => is_title) = true ->
  for_column df "district" (fun _ => is_title) = true ->
  plain_geography df = true ->
  _clean_geographic_data repr_number repr_timestamp df = df.
Proof.
  intros Hstate Hdistrict Hplain. unfold plain_geography in Hplain.
  apply andb_true_iff in Hplain. destruct Hplain as [Hletters Hpin].
  unfold _clean_geographic_data.
  assert (H1 : (if has_column "state" df
                then map_column "state"
                       (fun c => replace_state (str_method title c)) df
                else df) = df).
  { destruct (has_column "state" df) eqn:E; auto.
    apply map_column_id. intros row Hrow.
    pose proof (for_column_holds _ _ _ Hstate E row Hrow) as H. simpl in H.
    destruct (cell_at df "state" row) as [|q|s|t]; try discriminate.
    unfold is_title in H. apply String.eqb_eq in H.
    cbn [str_method]. rewrite H. unfold replace_state.
    now rewrite (title_not_corrected s H). }
  rewrite H1.
  assert (H2 : (if has_column "district" df
                then map_column "district"
                       (fun c => str_method letters_and_spaces (str_method title c)) df
                else df) = df).
  { destruct (has_column "district" df) eqn:E; auto.
    apply map_column_id. intros row Hrow.
    pose proof (for_column_holds _ _ _ Hdistrict E row Hrow) as Ht.
    pose proof (for_column_holds _ _ _ Hletters E row Hrow) as Hl.
    simpl in Ht, Hl.
    destruct (cell_at df "district" row) as [|q|s|t]; try discriminate.
    unfold is_title in Ht. unfold only_letters_and_spaces in Hl.
    apply String.eqb_eq in Ht, Hl. cbn [str_method]. now rewrite Ht, Hl. }
  rewrite H2.
  destruct (has_column "pincode" df) eqn:E; auto.
  apply map_column_id. intros row Hrow.
  apply six_digit_string_fixed.
  apply (for_column_holds _ _ _ Hpin E row Hrow).
Qed.

Lemma validate_numeric_ranges_id df :
  for_column df "enrolment_count" (fun _ => count_in_bounds) = true ->
  for_column df "update_count" (update_in_bounds df) = true ->
  forallb (ages_in_bounds df) (rows df) = true ->
  _validate_numeric_ranges df = df.
Proof.
  intros Henrol Hupdate Hages. unfold _validate_numeric_ranges.
  assert (H1 : (if has_column "enrolment_count" df
                then map_column "enrolment_count" (clip_upper 1000000)
                       (filter_rows
                          (fun row => non_negative (cell_at df "enrolment_count" row))
                          df)
                else df) = df).
  { destruct (has_column "enrolment_count" df) eqn:E; auto.
    pose proof (for_column_holds _ _ _ Henrol E) as H.
    rewrite filter_rows_id.
    - apply map_column_id. intros row Hrow. specialize (H row Hrow). simpl in H.
      unfold count_in_bounds in H. apply andb_true_iff in H. destruct H as [_ H].
      destruct (cell_at df "enrolment_count" row); try discriminate.
      simpl. now rewrite H.
    - apply forallb_forall. intros row Hrow. specialize (H row Hrow). simpl in H.
      unfold count_in_bounds in H. apply andb_true_iff in H. apply H. }
  cbv zeta. rewrite H1.
  assert (H2 : (if has_column "update_count" df
                then
                  if has_column "enrolment_count"
                       (filter_rows
                          (fun row => non_negative (cell_at df "update_count" row)) df)
                  then
                    filter_rows
                      (fun row =>
                         at_most_times 5
                           (cell_at
                              (filter_rows
                                 (fun row => non_negative (cell_at df "update_count" row))
                                 df) "update_count" row)
                           (cell_at
                              (filter_rows
                                 (fun row => non_negative (cell_at df "update_count" row))
                                 df) "enrolment_count" row))
                      (filter_rows
                         (fun row => non_negative (cell_at df "update_count" row)) df)
                  else
                    filter_rows
                      (fun row => non_negative (cell_at df "update_count" row)) df
                else df) = df).
  { destruct (has_column "update_count" df) eqn:E; auto.
    pose proof (for_column_holds _ _ _ Hupdate E) as H.
    rewrite filter_rows_id.
    - destruct (has_column "enrolment_count" df) eqn:E'; auto.
      apply filter_rows_id. apply forallb_forall. intros row Hrow.
      specialize (H row Hrow). unfold update_in_bounds in H.
      rewrite E' in H. simpl in H. apply andb_true_iff in H. apply H.
    - apply forallb_forall. intros row Hrow. specialize (H row Hrow).
      unfold update_in_bounds in H. apply andb_true_iff in H. apply H. }
  rewrite H2.
  destruct (filter (fun c => has_column c df) age_columns) as [|a l] eqn:Eage; auto.
  rewrite forallb_forall in Hages.
  assert (H3 : fold_left (fun d c => map_column c (clip_lower 0) d) (a :: l) df = df).
  { apply fold_id. intros c Hc. apply map_column_id. intros row Hrow.
    specialize (Hages row Hrow). unfold ages_in_bounds in Hages.
    rewrite Eage in Hages. apply andb_true_iff in Hages. destruct Hages as [Hn _].
    rewrite forallb_forall in Hn. specialize (Hn c Hc).
    destruct (cell_at df c row); try discriminate.
    simpl in Hn. simpl. now rewrite Hn. }
  rewrite H3.
  destruct (has_column "enrolment_count" df) eqn:E; auto.
  apply filter_rows_id. apply forallb_forall. intros row Hrow.
  specialize (Hages row Hrow). unfold ages_in_bounds in Hages.
  rewrite Eage, E in Hages. apply andb_true_iff in Hages. apply Hages.
Qed.

Lemma drop_duplicates_id key seen l :
  no_repeat (map key l) = true ->
  (forall row k, In row l -> In k seen -> keys_eqb (key row) k = false) ->
  drop_duplicates key seen l = l.
Proof.
  revert seen. induction l as [|row l IH]; intros seen Hnr Hseen; simpl; auto.
  simpl in Hnr. apply andb_true_iff in Hnr. destruct Hnr as [Hrow Hnr].
  assert (E : existsb (keys_eqb (key row)) seen = false).
  { destruct (existsb (keys_eqb (key row)) seen) eqn:E; auto.
    apply existsb_exists in E. destruct E as [k [Hk He]].
    rewrite (Hseen row k) in He; [discriminate | now left | exact Hk]. }
  rewrite E. f_equal. apply IH; auto.
  intros r k Hr [<-|Hk].
  - rewrite forallb_forall in Hrow.
    specialize (Hrow (key r) (in_map key _ _ Hr)).
    now apply negb_true_iff in Hrow.
  - apply Hseen; [now right | exact Hk].
Qed.

Lemma remove_duplicates_id df :
  distinct_keys df = true -> _remove_duplicates df = df.
Proof.
  intro H. unfold _remove_duplicates. unfold distinct_keys in H.
  destruct (filter (fun c => has_column c df) duplicate_cols) as [|c l]; auto.
  rewrite drop_duplicates_id; auto.
  - apply frame_eta.
  - intros row k _ [].
Qed.

(** C8 (amended).  The cleaner returns unchanged every table that has no
    missing value, no duplicate (date, region, sub-region) key and no range
    violation (dates parsed and inside the window, region and sub-region
    names in title case, counts not negative and within bounds), provided
    that its labels are the standard names already, that its sub-region
    names hold letters and white space only, and that its pincodes are
    strings of exactly six digits. *)
Theorem clean_returns_clean_tables_unchanged
  (column_mappings : list (string * list string))
  (to_datetime : cell -> option Z) (now : Z)
  (repr_number : Q -> string) (repr_timestamp : Z -> string) (df : frame) :
  (forall t, to_datetime (Date t) = Some t) ->
  well_formed df = true ->
  spec_clean now df = true ->
  canonical_names column_mappings df = true ->
  plain_geography df = true ->
  clean column_mappings to_datetime now repr_number repr_timestamp df = df.
Proof.
  intros Hparse Hwf Hspec Hnames Hplain.
  unfold spec_clean in Hspec. rewrite !andb_true_iff in Hspec.
  destruct Hspec
    as [[[[[[[Hnn Hkeys] Hdates] Hstates] Hdistricts] Henrol] Hupdate] Hages].
  unfold clean.
  rewrite (standardize_columns_id _ _ Hnames).
  rewrite (handle_missing_values_id _ Hwf Hnn).
  rewrite (clean_dates_id _ _ _ Hparse Hdates).
  rewrite (clean_geographic_data_id _ _ _ Hstates Hdistricts Hplain).
  rewrite (validate_numeric_ranges_id _ Henrol Hupdate Hages).
  apply remove_duplicates_id. exact Hkeys.
Qed.

Lemma clean_returns_clean_tables_unchanged_witness :
  clean usual_mappings parsed_only a_clock no_repr no_repr plain_records
  = plain_records.
Proof.
  apply clean_returns_clean_tables_unchanged.
  - intro t. reflexivity.
  - vm_compute. reflexivity.
  - vm_compute. reflexivity.
  - vm_compute. reflexivity.
  - vm_compute. reflexivity.
Defined.

(** C8, as the specification states it, fails on [parganas]: the table is
    clean in the sense of the specification, with its labels standard and
    its rows well formed, and the cleaner removes the digits of the district
    name "North 24 Parganas". *)
Lemma clean_changes_a_clean_table :
  spec_clean a_clock parganas = true /\
  well_formed parganas = true /\
  canonical_names usual_mappings parganas = true /\
  rows (clean usual_mappings parsed_only a_clock no_repr no_repr parganas)
  = [[Date 1577836800000000000; Str "West Bengal"; Str "North  Parganas";
      Num 100; Num 10]] /\
  clean usual_mappings parsed_only a_clock no_repr no_repr parganas <> parganas.
Proof.
  repeat split; try (vm_compute; reflexivity).
  intro H. apply (f_equal rows) in H. vm_compute in H. discriminate H.
Qed.

(** Cleaned counts need not be whole: the median of the counts 0 and 1
    fills the missing count with 1/2, and the record passes every check. *)
Lemma cleaner_imputes_half_a_count :
  rows (clean usual_mappings parsed_only a_clock no_repr no_repr raw_counts)
  = [[Date 1577836800000000000; Str "Kerala"; Num 0; Num 0];
     [Date 1577923200000000000; Str "Kerala"; Num 1; Num 1];
     [Date 1578009600000000000; Str "Goa"; Num (1 # 2); Num 1]].
Proof. vm_compute. reflexivity. Qed.

End CleanerFixedPoints.

(** ** Risk scorer: order of the table, regions and the report *)

Section RiskScorerOrder.
Import Numeric RiskScorer Text RiskReport.
Local Open Scope Q_scope.

Lemma Qle_bool_true_of x y : x <= y -> Qle_bool x y = true.
Proof. apply Qle_bool_iff. Qed.

Lemma Qle_bool_false_of x y : y < x -> Qle_bool x y = false.
Proof.
  intro H. destruct (Qle_bool x y) eqn:E; auto.
  apply Qle_bool_iff in E. lra.
Qed.

Lemma range_ordered t :
  fst (normalization_ranges t) < snd (normalization_ranges t).
Proof. destruct t; simpl; reflexivity. Qed.

Lemma normalize_finite t v :
  _normalize_score (Fin v) t ==
  (Qmin (Qmax v (fst (normalization_ranges t))) (snd (normalization_ranges t))
   - fst (normalization_ranges t))
  / (snd (normalization_ranges t) - fst (normalization_ranges t)).
Proof.
  pose proof (range_ordered t) as Hr.
  unfold _normalize_score. simpl isna. cbv iota.
  destruct (normalization_ranges t) as [lo hi]. simpl in *.
  destruct (Qeq_bool (hi - lo) 0) eqn:E.
  - apply Qeq_bool_iff in E. lra.
  - reflexivity.
Qed.

(** X1.  [_normalize_score] never decreases when its value grows; it is 0
    for every value at or below the lower end of the component's range and
    for minus infinity, and 1 for every value at or above the upper end and
    for plus infinity. *)
Theorem normalize_score_monotone_and_saturating (t : component_type) (v w : Q) :
  v <= w ->
  _normalize_score (Fin v) t <= _normalize_score (Fin w) t
  /\ (v <= fst (normalization_ranges t) -> _normalize_score (Fin v) t == 0)
  /\ (snd (normalization_ranges t) <= w -> _normalize_score (Fin w) t == 1)
  /\ _normalize_score NInf t == 0
  /\ _normalize_score PInf t == 1.
Proof.
  intro Hvw. pose proof (range_ordered t) as Hr.
  rewrite !normalize_finite.
  set (lo := fst (normalization_ranges t)) in *.
  set (hi := snd (normalization_ranges t)) in *.
  assert (Hd : 0 < hi - lo) by lra.
  repeat split.
  - apply Qmult_le_compat_r.
    + apply Qplus_le_compat; [|lra].
      apply Q.min_le_compat_r. apply Q.max_le_compat_r. exact Hvw.
    + apply Qlt_le_weak. apply Qinv_lt_0_compat. exact Hd.
  - intro H. rewrite (Q.max_r v lo) by exact H.
    rewrite Q.min_l by lra. field. lra.
  - intro H. rewrite Q.min_r.
    + field. lra.
    + apply Q.max_le_iff. left. exact H.
  - unfold _normalize_score. simpl isna. cbv iota.
    fold lo hi. destruct (normalization_ranges t) as [lo' hi'].
    simpl in lo, hi. subst lo hi. simpl np_clip.
    destruct (Qeq_bool (hi' - lo') 0); [reflexivity|]. field. lra.
  - unfold _normalize_score. simpl isna. cbv iota.
    destruct (normalization_ranges t) as [lo' hi'].
    simpl in lo, hi. subst lo hi. simpl np_clip.
    destruct (Qeq_bool (hi' - lo') 0) eqn:E.
    + apply Qeq_bool_iff in E. lra.
    + field. lra.
Qed.

Lemma normalize_score_monotone_and_saturating_witness :
  _normalize_score (Fin (1 # 10)) volatility
  <= _normalize_score (Fin (3 # 10)) volatility.
Proof.
  destruct (normalize_score_monotone_and_saturating volatility (1 # 10) (3 # 10))
    as [H _]; [discriminate|exact H].
Defined.

(** X2.  [_categorize_risk_level] is monotone: a higher score never gets a
    milder level, in the order VERY_LOW, LOW, MEDIUM, HIGH, CRITICAL. *)
Theorem risk_level_monotone (a b : Q) :
  a <= b ->
  (level_rank (_categorize_risk_level a) <= level_rank (_categorize_risk_level b))%nat.
Proof.
  intro Hab. unfold _categorize_risk_level.
  destruct (Qle_bool (8 # 10) a) eqn:A8.
  { apply Qle_bool_iff in A8. rewrite (Qle_bool_true_of (8 # 10) b) by lra.
    simpl. lia. }
  destruct (Qle_bool (8 # 10) b) eqn:B8.
  { destruct (Qle_bool (6 # 10) a), (Qle_bool (4 # 10) a), (Qle_bool (2 # 10) a);
      simpl; lia. }
  destruct (Qle_bool (6 # 10) a) eqn:A6.
  { apply Qle_bool_iff in A6. rewrite (Qle_bool_true_of (6 # 10) b) by lra.
    simpl. lia. }
  destruct (Qle_bool (6 # 10) b) eqn:B6.
  { destruct (Qle_bool (4 # 10) a), (Qle_bool (2 # 10) a); simpl; lia. }
  destruct (Qle_bool (4 # 10) a) eqn:A4.
  { apply Qle_bool_iff in A4. rewrite (Qle_bool_true_of (4 # 10) b) by lra.
    simpl. lia. }
  destruct (Qle_bool (4 # 10) b) eqn:B4.
  { destruct (Qle_bool (2 # 10) a); simpl; lia. }
  destruct (Qle_bool (2 # 10) a) eqn:A2.
  { apply Qle_bool_iff in A2. rewrite (Qle_bool_true_of (2 # 10) b) by lra.
    simpl. lia. }
  destruct (Qle_bool (2 # 10) b); simpl; lia.
Qed.

Lemma risk_level_monotone_witness :
  (level_rank (_categorize_risk_level (35 # 100))
   <= level_rank (_categorize_risk_level (85 # 100)))%nat.
Proof. apply risk_level_monotone. lra. Defined.

Lemma insert_desc_sorted p l :
  StronglySorted score_ge l -> StronglySorted score_ge (insert_desc p l).
Proof.
  induction 1 as [|h t Hs IH Hall]; simpl.
  - constructor; constructor.
  - destruct (Qle_bool (rp_risk_score p) (rp_risk_score h)) eqn:E.
    + constructor; [exact IH|].
      apply Forall_forall. intros q Hq. apply insert_desc_in in Hq.
      destruct Hq as [->|Hq].
      * apply Qle_bool_iff in E. exact E.
      * rewrite Forall_forall in Hall. auto.
    + apply Qle_bool_false in E.
      constructor; [constructor; assumption|].
      constructor.
      * unfold score_ge. lra.
      * rewrite Forall_forall in Hall |- *. intros q Hq.
        specialize (Hall q Hq). unfold score_ge in *. lra.
Qed.

Lemma sort_desc_sorted l : StronglySorted score_ge (sort_desc l).
Proof.
  unfold sort_desc.
  assert (G : forall l acc, StronglySorted score_ge acc ->
                StronglySorted score_ge
                  (fold_left (fun acc p => insert_desc p acc) l acc)).
  { clear. induction l as [|p l IH]; intros acc H; simpl; auto.
    apply IH. now apply insert_desc_sorted. }
  apply G. constructor.
Qed.

Lemma insert_desc_perm p l : Permutation (insert_desc p l) (p :: l).
Proof.
  induction l as [|h t IH]; simpl; auto.
  destruct (Qle_bool (rp_risk_score p) (rp_risk_score h)); auto.
  rewrite IH. apply perm_swap.
Qed.

Lemma sort_desc_perm l : Permutation (sort_desc l) l.
Proof.
  unfold sort_desc.
  assert (G : forall l acc,
             Permutation (fold_left (fun acc p => insert_desc p acc) l acc)
                         (l ++ acc)).
  { clear. induction l as [|p l IH]; intro acc; simpl; auto.
    rewrite IH, insert_desc_perm. symmetry. apply Permutation_middle. }
  rewrite G, app_nil_r. reflexivity.
Qed.

Lemma risk_scores_sorted sqrt configured df :
  StronglySorted score_ge (calculate_risk_scores sqrt configured df).
Proof.
  unfold calculate_risk_scores.
  destruct (rows df); [constructor|].
  destruct (negb (has_state df)); [constructor|].
  apply sort_desc_sorted.
Qed.

(** X3.  The table [calculate_risk_scores] returns is ordered by
    [risk_score], the highest first. *)
Theorem risk_scores_sorted_descending
  (sqrt : Q -> Q) (configured : component -> option Q) (df : frame) :
  StronglySorted (fun p q => rp_risk_score q <= rp_risk_score p)
                 (calculate_risk_scores sqrt configured df).
Proof.
  unfold calculate_risk_scores.
  destruct (rows df); [constructor|].
  destruct (negb (has_state df)); [constructor|].
  apply (sort_desc_sorted _).
Qed.

Lemma state_lt_trans a b c : state_lt a b -> state_lt b c -> state_lt a c.
Proof.
  unfold state_lt. intros H1 H2.
  apply String_as_OT.cmp_lt in H1, H2.
  pose proof (String_as_OT.lt_trans _ _ _ H1 H2) as H.
  apply String_as_OT.cmp_lt in H. exact H.
Qed.

Lemma state_lt_irrefl a : ~ state_lt a a.
Proof.
  unfold state_lt. intro H.
  assert (E : String.compare a a = Eq) by now apply String_as_OT.cmp_eq.
  congruence.
Qed.

Lemma state_gt_lt a b : String.compare a b = Gt -> state_lt b a.
Proof.
  unfold state_lt. intro H.
  pose proof (String_as_OT.cmp_antisym b a) as Ha.
  unfold String_as_OT.cmp in Ha. rewrite Ha, H. reflexivity.
Qed.

Lemma insert_group_states r groups k :
  In k (map fst (insert_group r groups)) -> k = state r \/ In k (map fst groups).
Proof.
  induction groups as [|[k0 g0] rest IH]; simpl.
  - intuition.
  - destruct (String.compare (state r) k0); simpl; intuition.
Qed.

Lemma insert_group_states_sorted r groups :
  StronglySorted state_lt (map fst groups) ->
  StronglySorted state_lt (map fst (insert_group r groups)).
Proof.
  induction groups as [|[k0 g0] rest IH]; simpl; intro H.
  - constructor; constructor.
  - inversion H as [|? ? Hs Hf]; subst.
    destruct (String.compare (state r) k0) eqn:E; simpl.
    + constructor; assumption.
    + constructor; [exact H|]. constructor; [exact E|].
      apply Forall_forall. intros k Hk.
      apply (state_lt_trans _ k0); [exact E|].
      rewrite Forall_forall in Hf. apply Hf. exact Hk.
    + constructor; [apply IH; exact Hs|].
      apply Forall_forall. intros k Hk.
      destruct (insert_group_states _ _ _ Hk) as [->|Hk'].
      * apply state_gt_lt. exact E.
      * rewrite Forall_forall in Hf. apply Hf. exact Hk'.
Qed.

Lemma groupby_state_sorted l : StronglySorted state_lt (map fst (groupby_state l)).
Proof.
  unfold groupby_state.
  assert (G : forall l acc, StronglySorted state_lt (map fst acc) ->
              StronglySorted state_lt
                (map fst (fold_left (fun groups r => insert_group r groups) l acc))).
  { clear. induction l as [|r l IH]; intros acc H; simpl; auto.
    apply IH. apply insert_group_states_sorted. exact H. }
  apply G. constructor.
Qed.

Lemma sorted_nodup {A : Type} (R : A -> A -> Prop) (l : list A) :
  (forall a, ~ R a a) -> StronglySorted R l -> NoDup l.
Proof.
  intros Hirr. induction 1 as [|a l Hs IH Hall]; constructor; auto.
  intro Hin. rewrite Forall_forall in Hall. apply (Hirr a). auto.
Qed.

Lemma apply_weights_length configured rf :
  length (_apply_weights configured rf) = length (risk_rows rf).
Proof.
  unfold _apply_weights.
  rewrite weight_fold by (now rewrite length_map).
  destruct (negb _); rewrite ?length_map, length_combine, length_map; lia.
Qed.

Lemma scored_states sqrt configured df :
  rows df <> [] -> has_state df = true ->
  Permutation (map rp_state (calculate_risk_scores sqrt configured df))
              (map fst (groupby_state (rows df))).
Proof.
  intros Hrows Hstate. unfold calculate_risk_scores.
  destruct (rows df) eqn:E; [congruence|]. rewrite <- E. rewrite Hstate. simpl negb.
  cbv iota.
  rewrite (Permutation_map rp_state (sort_desc_perm _)).
  rewrite map_map. simpl.
  rewrite <- (map_map fst fst).
  rewrite map_fst_combine by (symmetry; apply apply_weights_length).
  unfold _calculate_risk_components. simpl. unfold risk_data.
  rewrite !map_map. simpl. reflexivity.
Qed.

(** X4.  On a table with a [state] column, [calculate_risk_scores] returns
    exactly one row for each region that has a row in the input: no region
    twice, none left out, none invented. *)
Theorem risk_scores_one_row_per_state
  (sqrt : Q -> Q) (configured : component -> option Q) (df : frame) :
  has_state df = true ->
  let out := calculate_risk_scores sqrt configured df in
  NoDup (map rp_state out) /\
  (forall s, In s (map rp_state out) <-> exists r, In r (rows df) /\ state r = s).
Proof.
  intros Hstate out.
  destruct (rows df) as [|r0 l0] eqn:E.
  - subst out. unfold calculate_risk_scores. rewrite E. simpl. split.
    + constructor.
    + intro s. split; [intros []|intros [r [[] _]]].
  - assert (Hrows : rows df <> []) by (rewrite E; discriminate).
    pose proof (scored_states sqrt configured df Hrows Hstate) as HP.
    fold out in HP. rewrite <- E. split.
    + apply (Permutation_NoDup (Permutation_sym HP)).
      apply (sorted_nodup state_lt); [apply state_lt_irrefl|].
      apply groupby_state_sorted.
    + intro s. split.
      * intro Hs. apply (Permutation_in _ HP) in Hs.
        apply in_map_iff in Hs. destruct Hs as [[k g] [Hk Hin]]. simpl in Hk. subst k.
        destruct (groupby_state_sound _ _ _ Hin) as [Hne Hg].
        destruct g as [|r g]; [congruence|].
        exists r. apply Hg. now left.
      * intros [r [Hr Hs]].
        apply (Permutation_in _ (Permutation_sym HP)).
        destruct (groupby_state_complete _ _ Hr) as [g [Hg _]].
        apply in_map_iff. exists (state r, g). split; [exact Hs|exact Hg].
Qed.

Lemma risk_scores_one_row_per_state_witness :
  let out := calculate_risk_scores Qsqrt no_override detector_output in
  NoDup (map rp_state out) /\
  (forall s, In s (map rp_state out) <->
             exists r, In r (rows detector_output) /\ state r = s).
Proof. apply risk_scores_one_row_per_state. reflexivity. Defined.

Lemma level_eqb_eq a b : level_eqb a b = true <-> a = b.
Proof. destruct a, b; simpl; split; intro H; try reflexivity; discriminate. Qed.

Lemma at_level_in level risk_df p :
  In p (at_level level risk_df) <-> In p risk_df /\ rp_risk_level p = level.
Proof. unfold at_level. rewrite filter_In, level_eqb_eq. reflexivity. Qed.

Lemma at_level_nonempty level risk_df :
  at_level level risk_df <> [] <-> exists p, In p risk_df /\ rp_risk_level p = level.
Proof.
  split.
  - destruct (at_level level risk_df) as [|p l] eqn:E; [congruence|].
    intros _. exists p. apply at_level_in. rewrite E. now left.
  - intros [p Hp] E. apply at_level_in in Hp. rewrite E in Hp. destruct Hp.
Qed.

Lemma disjoint_filters {A : Type} (f g : A -> bool) (l : list A) :
  (forall x, f x = true -> g x = false) ->
  (length (filter f l) + length (filter g l) <= length l)%nat.
Proof.
  intro H. induction l as [|x l IH]; simpl; [lia|].
  destruct (f x) eqn:Ef.
  - rewrite (H x Ef). simpl. lia.
  - destruct (g x); simpl; lia.
Qed.

Lemma sorted_head_greatest p l q :
  StronglySorted score_ge (p :: l) -> In q (p :: l) -> rp_risk_score q <= rp_risk_score p.
Proof.
  intros Hs [<-|Hq]; [apply Qle_refl|].
  inversion Hs as [|? ? _ Hall]; subst.
  rewrite Forall_forall in Hall. apply Hall. exact Hq.
Qed.

(** X5.  The report built from the scorer's table names, as
    [highest_risk_state] and [highest_risk_score], a row of that table whose
    score no other row exceeds; [total_states] counts the rows, and the
    counts of CRITICAL and HIGH regions together do not exceed it. *)
Theorem risk_report_leads_with_highest_score
  (sqrt : Q -> Q) (configured : component -> option Q) (df : frame) :
  let risk_df := calculate_risk_scores sqrt configured df in
  risk_df <> [] ->
  exists r top s,
    generate_risk_report risk_df = Some r /\
    highest_risk_state (r_summary r) = Some top /\
    highest_risk_score (r_summary r) = Some s /\
    (exists p, In p risk_df /\ rp_state p = top /\ rp_risk_score p = s) /\
    (forall p, In p risk_df -> rp_risk_score p <= s) /\
    total_states (r_summary r) = length risk_df /\
    (critical_states (r_summary r) + high_risk_states (r_summary r)
     <= total_states (r_summary r))%nat.
Proof.
  intros risk_df Hne.
  assert (Hs : StronglySorted score_ge risk_df)
    by apply risk_scores_sorted.
  destruct risk_df as [|first rest] eqn:E; [congruence|].
  eexists. exists (rp_state first), (rp_risk_score first).
  split; [reflexivity|].
  cbn [r_summary highest_risk_state highest_risk_score total_states
       critical_states high_risk_states].
  repeat split.
  - exists first. split; [now left|split; reflexivity].
  - intros p Hp. apply (sorted_head_greatest first rest); assumption.
  - unfold at_level. apply disjoint_filters.
    intros x Hx. apply level_eqb_eq in Hx. rewrite Hx. reflexivity.
Qed.

Lemma risk_report_leads_with_highest_score_witness :
  exists r,
    generate_risk_report (calculate_risk_scores Qsqrt no_override detector_output)
    = Some r
    /\ total_states (r_summary r) = 2%nat.
Proof.
  destruct (risk_report_leads_with_highest_score Qsqrt no_override detector_output)
    as [r [top [s [H1 [_ [_ [_ [_ [H2 _]]]]]]]]].
  - vm_compute. discriminate.
  - exists r. split; [exact H1|]. rewrite H2. vm_compute. reflexivity.
Defined.

Lemma scored_level sqrt configured df p :
  In p (calculate_risk_scores sqrt configured df) ->
  rp_risk_level p = _categorize_risk_level (rp_risk_score p).
Proof.
  intro H. apply calculate_risk_scores_in in H.
  destruct H as [sr [s [_ ->]]]. reflexivity.
Qed.

(** X6.  The recommendations of the risk report always end with the
    Continuous Monitoring entry, after at most two others; they hold
    Immediate Investigation exactly when some row is CRITICAL and Priority
    Review exactly when some row is HIGH.  On the scorer's own table that is:
    exactly when some region scores at least 0.8, respectively at least 0.6
    and below 0.8. *)
Theorem risk_recommendations_follow_levels
  (sqrt : Q -> Q) (configured : component -> option Q) (df : frame)
  (risk_df : list risk_profile) :
  let recs := _generate_recommendations risk_df in
  let scored := calculate_risk_scores sqrt configured df in
  (exists front, recs = front ++ [monitoring] /\ (length front <= 2)%nat) /\
  (In "Immediate Investigation"%string (map action recs) <->
   exists p, In p risk_df /\ rp_risk_level p = CRITICAL) /\
  (In "Priority Review"%string (map action recs) <->
   exists p, In p risk_df /\ rp_risk_level p = HIGH) /\
  (In "Immediate Investigation"%string (map action (_generate_recommendations scored)) <->
   exists p, In p scored /\ 8 # 10 <= rp_risk_score p) /\
  (In "Priority Review"%string (map action (_generate_recommendations scored)) <->
   exists p, In p scored /\ 6 # 10 <= rp_risk_score p < 8 # 10).
Proof.
  intros recs scored.
  assert (G : forall l,
             let r := _generate_recommendations l in
             (exists front, r = front ++ [monitoring] /\ (length front <= 2)%nat) /\
             (In "Immediate Investigation"%string (map action r) <->
              exists p, In p l /\ rp_risk_level p = CRITICAL) /\
             (In "Priority Review"%string (map action r) <->
              exists p, In p l /\ rp_risk_level p = HIGH)).
  { clear. intros l r. subst r. unfold _generate_recommendations.
    rewrite <- !at_level_nonempty.
    destruct (at_level CRITICAL l) as [|c cs], (at_level HIGH l) as [|h hs];
      cbn [app map action In].
    - split; [exists []; split; [reflexivity|simpl; lia]|].
      split; (split; [intros [H|[]]; discriminate|intro H; congruence]).
    - split; [eexists [_]; split; [reflexivity|simpl; lia]|].
      split; split.
      + intros [H|[H|[]]]; discriminate.
      + intro H; congruence.
      + intros _; discriminate.
      + intros _. now left.
    - split; [eexists [_]; split; [reflexivity|simpl; lia]|].
      split; split.
      + intros _; discriminate.
      + intros _. now left.
      + intros [H|[H|[]]]; discriminate.
      + intro H; congruence.
    - split; [eexists [_; _]; split; [reflexivity|simpl; lia]|].
      split; split.
      + intros _; discriminate.
      + intros _. now left.
      + intros _; discriminate.
      + intros _. right. now left. }
  destruct (G risk_df) as [G1 [G2 G3]].
  destruct (G scored) as [_ [S2 S3]].
  split; [exact G1|]. split; [exact G2|]. split; [exact G3|].
  split.
  - rewrite S2. split; intros [p [Hp Hl]]; exists p; (split; [exact Hp|]).
    + rewrite (scored_level _ _ _ _ Hp) in Hl.
      apply (categorize_thresholds (rp_risk_score p)). exact Hl.
    + rewrite (scored_level _ _ _ _ Hp).
      apply (categorize_thresholds (rp_risk_score p)). exact Hl.
  - rewrite S3. split; intros [p [Hp Hl]]; exists p; (split; [exact Hp|]).
    + rewrite (scored_level _ _ _ _ Hp) in Hl.
      apply (categorize_thresholds (rp_risk_score p)). exact Hl.
    + rewrite (scored_level _ _ _ _ Hp).
      apply (categorize_thresholds (rp_risk_score p)). exact Hl.
Qed.

Lemma before_consistency sqrt df g :
  volatility_step sqrt df g
    (severity_step df g (frequency_step df g (volume_step df g (fun _ => None))))
    consistency_risk = None.
Proof.
  unfold volatility_step, severity_step, frequency_step, volume_step.
  repeat match goal with
         | |- (if ?b then _ else _) _ = _ => destruct b
         | |- entry_set _ _ _ _ = _ => rewrite entry_set_other by reflexivity
         end; reflexivity.
Qed.

Lemma consistency_of_group sqrt df g :
  entry_of_group sqrt df g consistency_risk
  = consistency_step g (fun _ => None) consistency_risk.
Proof.
  unfold entry_of_group, update_step.
  assert (E : forall e, e consistency_risk = None ->
                consistency_step g e consistency_risk
                = consistency_step g (fun _ => None) consistency_risk).
  { intros e He. unfold consistency_step.
    destruct (negb _); [reflexivity|exact He]. }
  destruct (has_update_ratio df).
  - rewrite entry_set_other by reflexivity. apply E, before_consistency.
  - apply E, before_consistency.
Qed.

(** X7.  A region whose dates span less than one whole day gets no
    [consistency_risk] entry at all.  Otherwise the entry is
    [1 - min(months / (days / 30), 1)], where [months] counts the distinct
    [year_month] values of the region and [days] is the span of its dates;
    it is 0 exactly when the region has at least one month per 30 days of
    span. *)
Theorem consistency_risk_needs_a_span
  (sqrt : Q -> Q) (df : frame) (g : list row) :
  let months := inject_Z (Z.of_nat (length (nodup string_dec (map year_month g)))) in
  let total_months := inject_Z (span_days g) / 30 in
  ((span_days g <= 0)%Z -> entry_of_group sqrt df g consistency_risk = None) /\
  ((0 < span_days g)%Z ->
   exists v,
     entry_of_group sqrt df g consistency_risk = Some v /\
     v == 1 - Qmin (months / total_months) 1 /\
     (v == 0 <-> total_months <= months)).
Proof.
  intros months total_months. rewrite consistency_of_group.
  unfold consistency_step. fold months. fold total_months.
  assert (Hm : 0 <= months).
  { unfold months. change 0 with (inject_Z 0). rewrite <- Zle_Qle. lia. }
  split; intro Hspan.
  - assert (Ht : total_months <= 0).
    { unfold total_months. apply Qle_shift_div_r; [reflexivity|].
      change (0 * 30) with (inject_Z 0). rewrite <- Zle_Qle. exact Hspan. }
    apply Qle_bool_iff in Ht. rewrite Ht. reflexivity.
  - assert (Ht : 0 < total_months).
    { unfold total_months. apply Qlt_shift_div_l; [reflexivity|].
      change (0 * 30) with (inject_Z 0). rewrite <- Zlt_Qlt. exact Hspan. }
    rewrite (Qle_bool_false_of total_months 0 Ht). cbn [negb].
    eexists. split; [unfold entry_set; reflexivity|].
    set (ratio := months / total_months).
    assert (Hr : 0 <= ratio).
    { unfold ratio. apply Qle_shift_div_l; [exact Ht|]. lra. }
    assert (Hone : 1 <= ratio <-> total_months <= months).
    { unfold ratio. split; intro H.
      - assert (E : months == months / total_months * total_months)
          by (field; lra).
        rewrite E. nra.
      - apply Qle_shift_div_l; [exact Ht|]. lra. }
    assert (EN : _normalize_score (Fin ratio) consistency == Qmin ratio 1).
    { rewrite normalize_finite. cbn [normalization_ranges fst snd].
      assert (E0 : (Qmin (Qmax ratio 0) 1 - 0) / (1 - 0) == Qmin (Qmax ratio 0) 1)
        by field.
      rewrite E0.
      destruct (Q.max_spec ratio 0) as [[H1 E1]|[H1 E1]];
        destruct (Q.min_spec (Qmax ratio 0) 1) as [[H2 E2]|[H2 E2]];
        destruct (Q.min_spec ratio 1) as [[H3 E3]|[H3 E3]]; lra. }
    split.
    + rewrite EN. reflexivity.
    + rewrite EN, <- Hone.
      destruct (Q.min_spec ratio 1) as [[H3 E3]|[H3 E3]]; split; intro; lra.
Qed.

End RiskScorerOrder.

(** ** Anomaly detector: extreme scores, feature columns and rows *)

Section DetectorFacts.
Import Numeric AnomalyDetector FeatureSelection.
Local Open Scope Q_scope.

Lemma np_max_lub d l b :
  d <= b -> (forall x, In x l -> x <= b) -> np_max d l <= b.
Proof.
  unfold np_max. revert d. induction l as [|a l IH]; intros d Hd Hl; simpl.
  - exact Hd.
  - apply IH.
    + apply Q.max_lub; [exact Hd|]. apply Hl. now left.
    + intros x Hx. apply Hl. now right.
Qed.

Lemma np_min_glb d l b :
  b <= d -> (forall x, In x l -> b <= x) -> b <= np_min d l.
Proof.
  unfold np_min. revert d. induction l as [|a l IH]; intros d Hd Hl; simpl.
  - exact Hd.
  - apply IH.
    + apply Q.min_glb; [exact Hd|]. apply Hl. now left.
    + intros x Hx. apply Hl. now right.
Qed.

Lemma level_above x : 8 # 10 < x -> confidence_level x = VERY_HIGH.
Proof.
  intro H. unfold confidence_level.
  destruct (Qle_bool x (8 # 10)) eqn:E; [|reflexivity].
  apply Qle_bool_iff in E. lra.
Qed.

Lemma level_below x : x <= 4 # 10 -> confidence_level x = LOW.
Proof.
  intro H. unfold confidence_level.
  assert (E8 : Qle_bool x (8 # 10) = true) by (apply Qle_bool_iff; lra).
  assert (E6 : Qle_bool x (6 # 10) = true) by (apply Qle_bool_iff; lra).
  assert (E4 : Qle_bool x (4 # 10) = true) by (apply Qle_bool_iff; lra).
  rewrite E8, E6, E4. reflexivity.
Qed.

(** X8.  In a batch whose scores are not all equal, every row with the
    highest score gets the label VERY_HIGH and every row with the lowest
    score gets LOW. *)
Theorem confidence_of_extreme_scores
  (sqrt : Q -> Q) (scores : list Q) (i : nat) (s : Q) :
  sqrt_zero_only sqrt ->
  (exists x y, In x scores /\ In y scores /\ ~ x == y) ->
  nth_error scores i = Some s ->
  ((forall x, In x scores -> x <= s) ->
   nth_error (_calculate_confidence sqrt scores) i = Some (Label VERY_HIGH)) /\
  ((forall x, In x scores -> s <= x) ->
   nth_error (_calculate_confidence sqrt scores) i = Some (Label LOW)).
Proof.
  intros Hsqrt [x [y [Hx [Hy Hxy]]]] Hi.
  destruct scores as [|s0 rest] eqn:Escores; [destruct Hx|].
  rewrite <- Escores in *.
  assert (Hne : scores <> []) by (rewrite Escores; discriminate).
  unfold _calculate_confidence. rewrite Escores. rewrite <- Escores.
  destruct (Qeq_bool (np_std sqrt scores) 0) eqn:E.
  { exfalso. apply Hxy.
    exact (proj1 (np_std_zero_iff sqrt scores Hsqrt Hne) E x y Hx Hy). }
  set (lo := np_min s0 rest). set (hi := np_max s0 rest).
  assert (Hlo : forall z, In z scores -> lo <= z).
  { intros z Hz. rewrite Escores in Hz. destruct Hz as [<-|Hz];
      [apply (proj1 (np_min_le s0 rest)) | apply (proj2 (np_min_le s0 rest)); assumption]. }
  assert (Hhi : forall z, In z scores -> z <= hi).
  { intros z Hz. rewrite Escores in Hz. destruct Hz as [<-|Hz];
      [apply (proj1 (np_max_ge s0 rest)) | apply (proj2 (np_max_ge s0 rest)); assumption]. }
  assert (Hlt : lo < hi).
  { pose proof (Hlo x Hx). pose proof (Hlo y Hy).
    pose proof (Hhi x Hx). pose proof (Hhi y Hy).
    destruct (Qlt_le_dec lo hi) as [H'|H']; [exact H'|].
    exfalso. apply Hxy. lra. }
  rewrite nth_error_map, Hi. simpl.
  split; intro Hext; do 2 f_equal.
  - apply level_above.
    assert (Hs : hi <= s).
    { apply np_max_lub; [|intros z Hz]; apply Hext; rewrite Escores;
        [now left | now right]. }
    apply Qlt_shift_div_l; lra.
  - apply level_below.
    assert (Hs : s <= lo).
    { apply np_min_glb; [|intros z Hz]; apply Hext; rewrite Escores;
        [now left | now right]. }
    apply Qle_shift_div_r; lra.
Qed.

Lemma confidence_of_extreme_scores_witness :
  nth_error (_calculate_confidence Qsqrt [1 # 10; 5 # 10; 9 # 10]) 2
  = Some (Label VERY_HIGH)
  /\ nth_error (_calculate_confidence Qsqrt [1 # 10; 5 # 10; 9 # 10]) 0
     = Some (Label LOW).
Proof.
  split.
  - apply (confidence_of_extreme_scores Qsqrt [1 # 10; 5 # 10; 9 # 10] 2 (9 # 10)).
    + exact Qsqrt_zero_only.
    + exists (1 # 10), (9 # 10). simpl. repeat split; auto. intro H. discriminate H.
    + reflexivity.
    + intros x [<-|[<-|[<-|[]]]]; lra.
  - apply (confidence_of_extreme_scores Qsqrt [1 # 10; 5 # 10; 9 # 10] 0 (1 # 10)).
    + exact Qsqrt_zero_only.
    + exists (1 # 10), (9 # 10). simpl. repeat split; auto. intro H. discriminate H.
    + reflexivity.
    + intros x [<-|[<-|[<-|[]]]]; lra.
Defined.

Lemma mem_in x l : mem x l = true <-> In x l.
Proof.
  unfold mem. rewrite existsb_exists. split.
  - intros [y [Hy E]]. apply String.eqb_eq in E. now subst.
  - intro H. exists x. split; [exact H|apply String.eqb_refl].
Qed.

Lemma in_firstn {A : Type} (n : nat) (l : list A) x : In x (firstn n l) -> In x l.
Proof.
  intro H. rewrite <- (firstn_skipn n l). apply in_or_app. now left.
Qed.

Lemma at_most_ten {A : Type} (l : list A) :
  (length (if (10 <? length l)%nat then firstn 10 l else l) <= 10)%nat.
Proof.
  destruct (10 <? length l)%nat eqn:E.
  - apply firstn_le_length.
  - apply Nat.ltb_ge in E. exact E.
Qed.

Lemma in_at_most_ten {A : Type} (l : list A) x :
  In x (if (10 <? length l)%nat then firstn 10 l else l) -> In x l.
Proof.
  destruct (10 <? length l)%nat; [apply in_firstn|auto].
Qed.

(** X9.  [_get_feature_columns] returns at most ten labels, each a column
    of the table and none of [year], [month], [quarter], [state_encoded].
    With three or more priority features in the table it returns exactly
    those, in the order of the priority list; with fewer, every label it
    returns has a numeric dtype. *)
Theorem feature_columns_bounded_and_valid
  (columns : list string) (is_numeric : string -> bool) :
  let present := filter (fun f => mem f columns) priority_features in
  let selected := _get_feature_columns columns is_numeric in
  (length selected <= 10)%nat /\
  (forall f, In f selected -> In f columns /\ ~ In f exclude_cols) /\
  ((3 <= length present)%nat -> selected = present) /\
  ((length present < 3)%nat ->
   forall f, In f selected -> is_numeric f = true).
Proof.
  intros present selected. subst selected. unfold _get_feature_columns.
  fold present.
  assert (Hfive : (length present <= 5)%nat).
  { unfold present. etransitivity; [apply filter_length_le|]. simpl. lia. }
  split; [apply at_most_ten|].
  split; [|split].
  - intros f Hf. apply in_at_most_ten in Hf.
    destruct (length present <? 3)%nat.
    + apply filter_In in Hf. destruct Hf as [Hf Hex].
      apply filter_In in Hf. destruct Hf as [Hf _].
      split; [exact Hf|]. intro Hin. apply mem_in in Hin.
      rewrite Hin in Hex. discriminate.
    + apply filter_In in Hf. destruct Hf as [Hp Hm].
      split; [now apply mem_in|].
      simpl in Hp. simpl.
      intuition; subst; discriminate.
  - intro H3. apply Nat.ltb_ge in H3. rewrite H3.
    assert (E : (10 <? length present)%nat = false) by (apply Nat.ltb_ge; lia).
    rewrite E. reflexivity.
  - intros H3 f Hf. apply Nat.ltb_lt in H3. rewrite H3 in Hf.
    apply in_at_most_ten in Hf.
    apply filter_In in Hf. destruct Hf as [Hf _].
    apply filter_In in Hf. apply Hf.
Qed.

(** X10.  [detect] keeps the rows of its input, in their order, and only
    adds columns: [is_anomaly] is 0 or 1 on every row, 1 exactly where the
    library model predicts -1; when no feature column is found every row
    gets [is_anomaly] 0 and [anomaly_score] 0, and no confidence. *)
Theorem detect_keeps_rows_and_flags
  (features_row : Type) (sqrt : Q -> Q)
  (_get_feature_columns : list features_row -> list string)
  (model : list features_row -> list (Z * Q)) (features_df : list features_row) :
  length (model features_df) = length features_df ->
  let out := detect features_row sqrt _get_feature_columns model features_df in
  map (features features_row) out = features_df /\
  (forall r, In r out ->
     is_anomaly features_row r = 0%Z \/ is_anomaly features_row r = 1%Z) /\
  (_get_feature_columns features_df = [] ->
   forall r, In r out ->
     is_anomaly features_row r = 0%Z /\ anomaly_score features_row r = 0 /\
     anomaly_confidence features_row r = None) /\
  (_get_feature_columns features_df <> [] ->
   map (is_anomaly features_row) out
   = map (fun ps => if (fst ps =? -1)%Z then 1%Z else 0%Z) (model features_df)).
Proof.
  intros Hlen out. subst out. unfold detect.
  destruct features_df as [|r0 l0] eqn:Edf.
  { simpl. split; [reflexivity|]. split; [intros r []|].
    split; [intros _ r []|].
    intros _. destruct (model []); [reflexivity|discriminate]. }
  rewrite <- Edf in *.
  destruct (_get_feature_columns features_df) as [|c cs] eqn:Ecols.
  - split; [rewrite map_map; simpl; apply map_id|].
    split; [|split].
    + intros r Hr. apply in_map_iff in Hr. destruct Hr as [x [<- _]]. now left.
    + intros _ r Hr. apply in_map_iff in Hr. destruct Hr as [x [<- _]].
      repeat split; reflexivity.
    + intro H. congruence.
  - set (fitted := model features_df) in *.
    set (scores := map (fun ps => - snd ps) fitted).
    assert (L1 : length (map fst fitted) = length scores)
      by (unfold scores; now rewrite !length_map).
    assert (L2 : length features_df = length (combine (map fst fitted) scores))
      by (rewrite length_combine, <- L1, Nat.min_id, length_map; congruence).
    assert (L3 : length (combine features_df (combine (map fst fitted) scores))
                 = length (_calculate_confidence sqrt scores)).
    { rewrite length_combine, <- L2, Nat.min_id, calculate_confidence_length.
      unfold scores. rewrite length_map. congruence. }
    split; [|split; [|split]].
    + rewrite map_map. simpl.
      rewrite <- (map_map fst fst), (map_fst_combine _ _ L3).
      apply map_fst_combine. exact L2.
    + intros r Hr. apply in_map_iff in Hr. destruct Hr as [x [<- _]]. simpl.
      destruct (fst (snd (fst x)) =? -1)%Z; auto.
    + intro H. discriminate.
    + intros _. rewrite map_map. simpl.
      rewrite <- (map_map fst (fun y => if (fst (snd y) =? -1)%Z then 1%Z else 0%Z)).
      rewrite (map_fst_combine _ _ L3).
      rewrite <- (map_map snd (fun y => if (fst y =? -1)%Z then 1%Z else 0%Z)).
      rewrite (map_snd_combine _ _ L2).
      rewrite <- (map_map fst (fun y => if (y =? -1)%Z then 1%Z else 0%Z)).
      rewrite (map_fst_combine _ _ L1).
      rewrite map_map. reflexivity.
Qed.

Lemma detect_keeps_rows_and_flags_witness :
  map (features nat)
      (detect nat Qsqrt (fun _ => ["mom_growth"%string]) all_normal [1; 2; 3]%nat)
  = [1; 2; 3]%nat.
Proof.
  apply (detect_keeps_rows_and_flags nat Qsqrt (fun _ => ["mom_growth"%string])
           all_normal [1; 2; 3]%nat).
  reflexivity.
Defined.

End DetectorFacts.

(** ** Feature engineering: totals, keys, time columns and z-scores *)

Section AggregationFacts.
Import Numeric FeatureEngineer Aggregates.
Local Open Scope Q_scope.

Lemma Qsum_app (l1 l2 : list Q) : Qsum (l1 ++ l2) == Qsum l1 + Qsum l2.
Proof.
  unfold Qsum. rewrite fold_left_app, fold_Qplus_acc.
  fold (Qsum l1). fold (Qsum l2). reflexivity.
Qed.

Lemma Qsum_nil : Qsum [] == 0.
Proof. reflexivity. Qed.

Lemma insert_group_total f r groups :
  group_total f (insert_group r groups) == group_total f groups + f r.
Proof.
  unfold group_total.
  induction groups as [|[k g] rest IH]; cbn [insert_group].
  - cbn [map snd]. rewrite !Qsum_cons, !Qsum_nil. ring.
  - destruct (key_compare (key_of r) k); cbn [map snd].
    + rewrite !Qsum_cons, map_app, Qsum_app. cbn [map].
      rewrite Qsum_cons, Qsum_nil. ring.
    + rewrite !Qsum_cons, Qsum_nil. ring.
    + rewrite !Qsum_cons, IH. ring.
Qed.

Lemma groupby_total f l :
  group_total f (groupby l) == Qsum (map f l).
Proof.
  unfold groupby.
  assert (G : forall l acc,
             group_total f (fold_left (fun groups r => insert_group r groups) l acc)
             == group_total f acc + Qsum (map f l)).
  { clear l. induction l as [|r l IH]; intro acc; cbn [fold_left map].
    - rewrite Qsum_nil. ring.
    - rewrite IH, insert_group_total, Qsum_cons. ring. }
  rewrite G. unfold group_total. cbn [map]. rewrite Qsum_nil. ring.
Qed.

Lemma derive_cols sqrt table :
  map m_cols (derive sqrt table) = map m_cols table.
Proof.
  unfold derive. destruct table as [|first rest] eqn:Et; [reflexivity|].
  rewrite <- Et.
  destruct (sum_cols first) as [|p others]; [reflexivity|].
  rewrite map_map. simpl.
  rewrite <- (map_map fst m_cols).
  rewrite map_fst_combine by (now rewrite pct_change_length).
  reflexivity.
Qed.

Lemma derive_keys sqrt table :
  map m_key (derive sqrt table) = map m_key table.
Proof.
  unfold derive. destruct table as [|first rest] eqn:Et; [reflexivity|].
  rewrite <- Et.
  destruct (sum_cols first) as [|p others]; [reflexivity|].
  rewrite map_map. unfold m_key. simpl.
  rewrite <- (map_map fst (fun m => (m_state m, m_year_month m))).
  rewrite map_fst_combine by (now rewrite pct_change_length).
  reflexivity.
Qed.

Lemma aggregated_table sqrt df :
  has_column "state" df = true -> has_column "date" df = true ->
  agg_dict df <> [] ->
  _create_aggregated_features sqrt df
  = derive sqrt (map (aggregated_row sqrt (agg_dict df)) (groupby (rows df))).
Proof.
  intros Hs Hd Ha. unfold _create_aggregated_features.
  rewrite Hs, Hd. simpl.
  destruct (agg_dict df); [congruence|reflexivity].
Qed.

Lemma volume_sum_bare m : volume_sum m = volume_sum (bare (m_cols m)).
Proof. reflexivity. Qed.

Lemma update_sum_bare m : update_sum m = update_sum (bare (m_cols m)).
Proof. reflexivity. Qed.

Lemma agg_dict_of_enrolment df ec :
  first_present enrolment_candidates df = Some ec -> agg_dict df <> [].
Proof.
  intro He. unfold agg_dict. rewrite He.
  destruct (first_present update_candidates df); simpl; discriminate.
Qed.

Lemma volume_of_group sqrt df ec kg :
  first_present enrolment_candidates df = Some ec ->
  volume_sum (aggregated_row sqrt (agg_dict df) kg)
  = Some (Fin (Qsum (map (fun r => num r ec) (snd kg)))).
Proof.
  intro He. unfold volume_sum.
  destruct (first_present update_candidates df) as [uc|] eqn:Hu.
  - destruct (canonical_sums sqrt df ec uc kg He Hu) as [H1 [H2 _]].
    rewrite H1, H2. reflexivity.
  - destruct (enrolment_only_sums sqrt df ec kg He Hu) as [H1 H2].
    rewrite H1, H2. reflexivity.
Qed.

Lemma updates_of_group sqrt df ec uc kg :
  first_present enrolment_candidates df = Some ec ->
  first_present update_candidates df = Some uc ->
  update_sum (aggregated_row sqrt (agg_dict df) kg)
  = Some (Fin (Qsum (map (fun r => num r uc) (snd kg)))).
Proof.
  intros He Hu. unfold update_sum.
  destruct (canonical_sums sqrt df ec uc kg He Hu) as [H1 [_ H3]].
  rewrite H1, H3. reflexivity.
Qed.

(** X11.  Aggregation conserves the totals of whole-number counts: when
    the enrolment counts are whole numbers, none negative, with a total of
    at most 2^53 (so that no sum is rounded), the [_sum] column of the
    enrolment counts, added over all rows of the aggregated table, is the
    sum of the enrolment counts of all input records; likewise for the
    update counts when the table has them and they are such numbers. *)
Theorem aggregation_conserves_totals (sqrt : Q -> Q) (df : frame) (ec : string) :
  has_column "state" df = true ->
  has_column "date" df = true ->
  first_present enrolment_candidates df = Some ec ->
  exact_counts ec (rows df) ->
  let out := _create_aggregated_features sqrt df in
  (exists sums,
     map volume_sum out = map (fun q => Some (Fin q)) sums /\
     Qsum sums == Qsum (map (fun r => num r ec) (rows df))) /\
  (forall uc, first_present update_candidates df = Some uc ->
     exact_counts uc (rows df) ->
     exists sums,
       map update_sum out = map (fun q => Some (Fin q)) sums /\
       Qsum sums == Qsum (map (fun r => num r uc) (rows df))).
Proof.
  intros Hs Hd He _ out. subst out.
  rewrite (aggregated_table sqrt df Hs Hd (agg_dict_of_enrolment df ec He)).
  set (groups := groupby (rows df)).
  set (table := map (aggregated_row sqrt (agg_dict df)) groups).
  split.
  - exists (map (fun kg => Qsum (map (fun r => num r ec) (snd kg))) groups). split.
    + rewrite (map_ext volume_sum _ volume_sum_bare).
      rewrite <- (map_map m_cols (fun c => volume_sum (bare c))).
      rewrite derive_cols.
      rewrite (map_map m_cols (fun c => volume_sum (bare c))).
      rewrite <- (map_ext volume_sum _ volume_sum_bare).
      unfold table. rewrite !map_map. apply map_ext.
      intro kg. apply volume_of_group. exact He.
    + apply (groupby_total (fun r => num r ec)).
  - intros uc Hu _.
    exists (map (fun kg => Qsum (map (fun r => num r uc) (snd kg))) groups). split.
    + rewrite (map_ext update_sum _ update_sum_bare).
      rewrite <- (map_map m_cols (fun c => update_sum (bare c))).
      rewrite derive_cols.
      rewrite (map_map m_cols (fun c => update_sum (bare c))).
      rewrite <- (map_ext update_sum _ update_sum_bare).
      unfold table. rewrite !map_map. apply map_ext.
      intro kg. apply (updates_of_group sqrt df ec uc); assumption.
    + apply (groupby_total (fun r => num r uc)).
Qed.

Lemma aggregation_conserves_totals_witness :
  exists sums,
    map volume_sum (_create_aggregated_features Qsqrt scenario)
    = map (fun q => Some (Fin q)) sums /\
    Qsum sums == 800.
Proof.
  destruct (aggregation_conserves_totals Qsqrt scenario "enrolment_count")
    as [[sums [H1 H2]] _]; try reflexivity.
  - split; [|vm_compute; discriminate].
    intros r Hr. cbn [scenario canonical_frame rows In] in Hr.
    destruct Hr as [<-|[<-|[<-|[<-|[<-|[<-|[]]]]]]];
      (split; [vm_compute; discriminate | vm_compute; reflexivity]).
  - exists sums. split; [exact H1|]. rewrite H2. vm_compute. reflexivity.
Defined.

Lemma insert_group_has_key r groups :
  In (key_of r) (map fst (insert_group r groups)).
Proof.
  induction groups as [|[k g] rest IH]; simpl.
  - now left.
  - destruct (key_compare (key_of r) k) eqn:E; simpl.
    + left. symmetry. apply key_compare_eq. exact E.
    + now left.
    + right. exact IH.
Qed.

Lemma insert_group_keeps_keys r groups k :
  In k (map fst groups) -> In k (map fst (insert_group r groups)).
Proof.
  induction groups as [|[k0 g0] rest IH]; simpl; [intros []|].
  destruct (key_compare (key_of r) k0); simpl; intuition.
Qed.

Lemma groupby_keys l k :
  In k (map fst (groupby l)) <-> exists r, In r l /\ key_of r = k.
Proof.
  split.
  - intro H. apply in_map_iff in H. destruct H as [[k' g] [Hk Hin]].
    simpl in Hk. subst k'.
    destruct (groupby_members _ _ _ Hin) as [Hne Hg].
    destruct g as [|r g]; [congruence|].
    exists r. apply Hg. now left.
  - unfold groupby.
    assert (G : forall l acc,
               (In k (map fst acc) \/ exists r, In r l /\ key_of r = k) ->
               In k (map fst (fold_left (fun groups r => insert_group r groups) l acc))).
    { clear. induction l as [|x l IH]; intros acc H; simpl.
      - destruct H as [H|[r [[] _]]]. exact H.
      - apply IH. destruct H as [H|[r [[->|Hr] Hk]]].
        + left. now apply insert_group_keeps_keys.
        + left. rewrite <- Hk. apply insert_group_has_key.
        + right. exists r. auto. }
    intro H. apply G. now right.
Qed.

Lemma insert_group_length r groups :
  (length (insert_group r groups) <= S (length groups))%nat.
Proof.
  induction groups as [|[k g] rest IH]; simpl; [lia|].
  destruct (key_compare (key_of r) k); simpl; lia.
Qed.

Lemma groupby_length l : (length (groupby l) <= length l)%nat.
Proof.
  unfold groupby.
  assert (G : forall l acc,
             (length (fold_left (fun groups r => insert_group r groups) l acc)
              <= length acc + length l)%nat).
  { clear. induction l as [|x l IH]; intro acc; simpl; [lia|].
    etransitivity; [apply IH|]. pose proof (insert_group_length x acc). lia. }
  apply (G l []).
Qed.

(** X12.  The aggregated table has exactly one row for each pair of region
    and month that occurs in the input, in ascending order of region, then
    month; it never has more rows than the input. *)
Theorem aggregation_one_row_per_region_month (sqrt : Q -> Q) (df : frame) :
  has_column "state" df = true ->
  has_column "date" df = true ->
  agg_dict df <> [] ->
  let out := _create_aggregated_features sqrt df in
  StronglySorted key_lt (map m_key out) /\
  NoDup (map m_key out) /\
  (forall k, In k (map m_key out) <-> exists r, In r (rows df) /\ key_of r = k) /\
  (length out <= length (rows df))%nat.
Proof.
  intros Hs Hd Ha out. subst out.
  rewrite (aggregated_table sqrt df Hs Hd Ha).
  assert (Hkeys : map m_key (derive sqrt (map (aggregated_row sqrt (agg_dict df))
                                              (groupby (rows df))))
                  = map fst (groupby (rows df))).
  { rewrite derive_keys, map_map. apply map_ext. intros [[s m] g]. reflexivity. }
  assert (Hsorted : StronglySorted key_lt (map fst (groupby (rows df))))
    by apply groupby_sorted.
  rewrite Hkeys. split; [exact Hsorted|]. split; [|split].
  - clear Hkeys. induction Hsorted as [|a l Hl IH Hall]; constructor; auto.
    intro Hin. rewrite Forall_forall in Hall. apply (key_lt_irrefl a). auto.
  - apply groupby_keys.
  - rewrite <- (length_map m_key), Hkeys, length_map. apply groupby_length.
Qed.

Lemma aggregation_one_row_per_region_month_witness :
  NoDup (map m_key (_create_aggregated_features Qsqrt scenario)).
Proof.
  destruct (aggregation_one_row_per_region_month Qsqrt scenario) as [_ [H _]];
    [reflexivity | reflexivity | vm_compute; discriminate | exact H].
Defined.

Lemma assign_columns c f df :
  exists added, columns (assign c f df) = columns df ++ added /\
                forall x, In x added -> x = c.
Proof.
  unfold assign. simpl. destruct (has_column c df).
  - exists []. split; [now rewrite app_nil_r|intros x []].
  - exists [c]. split; [reflexivity|]. intros x [<-|[]]. reflexivity.
Qed.

(** X13.  On a table with a [date] column, [_create_time_features] only
    adds the columns [year], [month], [day_of_week] and [is_weekend], after
    the existing ones: regions, dates and every other column are unchanged.
    [day_of_week] lies between 0 and 6 and [is_weekend] is 1 exactly when it
    is 5 or 6. *)
Theorem time_features_only_add_columns (df : frame) :
  has_column "date" df = true ->
  let out := _create_time_features df in
  (exists added, columns out = columns df ++ added /\
                 forall c, In c added -> In c time_columns) /\
  map state (rows out) = map state (rows df) /\
  map date (rows out) = map date (rows df) /\
  (forall c, ~ In c time_columns ->
     map (fun r => num r c) (rows out) = map (fun r => num r c) (rows df)) /\
  (forall r, In r (rows out) ->
     let dow := dt_dayofweek (date r) in
     (0 <= dow <= 6)%Z /\
     num r "day_of_week" = inject_Z dow /\
     num r "is_weekend" = (if (5 <=? dow)%Z then 1 else 0) /\
     num r "year" = inject_Z (dt_year (date r)) /\
     num r "month" = inject_Z (dt_month (date r))).
Proof.
  intros Hd out. subst out. unfold _create_time_features. rewrite Hd. simpl negb.
  cbv iota.
  set (df1 := assign "year" _ df).
  set (df2 := assign "month" _ df1).
  set (df3 := assign "day_of_week" _ df2).
  split; [|split; [|split; [|split]]].
  - destruct (assign_columns "year" (fun r => inject_Z (dt_year (date r))) df)
      as [a1 [E1 H1]].
    destruct (assign_columns "month" (fun r => inject_Z (dt_month (date r))) df1)
      as [a2 [E2 H2]].
    destruct (assign_columns "day_of_week"
                (fun r => inject_Z (dt_dayofweek (date r))) df2) as [a3 [E3 H3]].
    destruct (assign_columns "is_weekend"
                (fun r => if (5 <=? dt_dayofweek (date r))%Z then 1 else 0) df3)
      as [a4 [E4 H4]].
    exists (a1 ++ a2 ++ a3 ++ a4). split.
    + rewrite E4. unfold df3 at 1. rewrite E3. unfold df2 at 1. rewrite E2.
      unfold df1 at 1. rewrite E1.
      now rewrite <- !app_assoc.
    + intros c Hc. unfold time_columns.
      apply in_app_or in Hc. destruct Hc as [Hc|Hc]; [rewrite (H1 c Hc); simpl; auto|].
      apply in_app_or in Hc. destruct Hc as [Hc|Hc]; [rewrite (H2 c Hc); simpl; auto|].
      apply in_app_or in Hc. destruct Hc as [Hc|Hc]; [rewrite (H3 c Hc); simpl; auto|].
      rewrite (H4 c Hc). simpl. auto 6.
  - simpl. rewrite !map_map. reflexivity.
  - simpl. rewrite !map_map. reflexivity.
  - intros c Hc. unfold df3, df2, df1, assign. cbn [rows].
    rewrite !map_map. apply map_ext. intro r. cbn [num].
    unfold time_columns in Hc. simpl in Hc.
    destruct (String.eqb_spec "is_weekend" c) as [<-|_]; [exfalso; auto 6|].
    destruct (String.eqb_spec "day_of_week" c) as [<-|_]; [exfalso; auto 6|].
    destruct (String.eqb_spec "month" c) as [<-|_]; [exfalso; auto 6|].
    destruct (String.eqb_spec "year" c) as [<-|_]; [exfalso; auto 6|].
    reflexivity.
  - intros r Hr. simpl in Hr. rewrite !map_map in Hr.
    apply in_map_iff in Hr. destruct Hr as [r0 [<- _]]. simpl.
    split; [|repeat split].
    unfold dt_dayofweek.
    pose proof (Z.mod_pos_bound (day_number (date r0) + 3) 7 ltac:(lia)). lia.
Qed.

Lemma time_features_only_add_columns_witness :
  map date (rows (_create_time_features scenario)) = map date (rows scenario).
Proof.
  destruct (time_features_only_add_columns scenario) as [_ [_ [H _]]];
    [reflexivity | exact H].
Defined.





End AggregationFacts.

(** ** Schema detection: the mapping *)

Section SchemaMappingFacts.
Import Table SchemaNormalizer SchemaSoundness.
Local Open Scope string_scope.

Lemma dict_set_keys {V : Type} (d : list (string * V)) k v x :
  In x (map fst (dict_set d k v)) <-> x = k \/ In x (map fst d).
Proof.
  induction d as [|[k0 v0] d IH]; simpl.
  - intuition.
  - destruct (String.eqb k k0) eqn:E; simpl.
    + apply String.eqb_eq in E. subst k0. intuition.
    + rewrite IH. intuition.
Qed.

Lemma dict_set_keys_nodup {V : Type} (d : list (string * V)) k v :
  NoDup (map fst d) -> NoDup (map fst (dict_set d k v)).
Proof.
  induction d as [|[k0 v0] d IH]; simpl; intro H.
  - constructor; [intros []|constructor].
  - inversion H as [|? ? Hn Hd]; subst.
    destruct (String.eqb k k0) eqn:E; simpl.
    + constructor; assumption.
    + constructor; [|auto].
      intro Hin. apply dict_set_keys in Hin. destruct Hin as [->|Hin]; [|auto].
      rewrite String.eqb_refl in E. discriminate.
Qed.

Lemma dict_set_values_nodup (d : list (string * string)) k v :
  NoDup (dict_values d) -> ~ In v (dict_values d) ->
  NoDup (dict_values (dict_set d k v)).
Proof.
  unfold dict_values.
  induction d as [|[k0 v0] d IH]; simpl; intros H Hv.
  - constructor; [intros []|constructor].
  - inversion H as [|? ? Hn Hd]; subst.
    destruct (String.eqb k k0); simpl.
    + constructor; [tauto|assumption].
    + constructor; [|apply IH; tauto].
      intro Hin. apply (dict_values_set d k v v0) in Hin.
      destruct Hin as [->|Hin]; tauto.
Qed.

Lemma in_values_in v d : in_values v d = true <-> In v (dict_values d).
Proof.
  unfold in_values. rewrite existsb_exists. split.
  - intros [x [Hx E]]. apply String.eqb_eq in E. now subst.
  - intro H. exists v. split; [exact H|apply String.eqb_refl].
Qed.

Lemma dict_get_in {V : Type} (d : list (string * V)) k v :
  dict_get d k = Some v -> In (k, v) d.
Proof.
  induction d as [|[k0 v0] d IH]; simpl; [discriminate|].
  destruct (String.eqb k k0) eqn:E.
  - apply String.eqb_eq in E. subst k0. intro H. inversion H. now left.
  - intro H. right. auto.
Qed.

Lemma nodup_values_injective (d : list (string * string)) k1 k2 v :
  NoDup (dict_values d) -> In (k1, v) d -> In (k2, v) d -> k1 = k2.
Proof.
  unfold dict_values. induction d as [|[k0 v0] d IH]; simpl; [intros _ []|].
  intros H H1 H2. inversion H as [|? ? Hn Hd]; subst.
  destruct H1 as [H1|H1], H2 as [H2|H2].
  - congruence.
  - inversion H1; subst. exfalso. apply Hn.
    apply in_map_iff. exists (k2, v). auto.
  - inversion H2; subst. exfalso. apply Hn.
    apply in_map_iff. exists (k1, v). auto.
  - auto.
Qed.

Lemma one_to_one_set allowed d k v :
  one_to_one allowed d -> ~ In v (dict_values d) -> In v allowed ->
  one_to_one allowed (dict_set d k v).
Proof.
  intros [H1 [H2 H3]] Hv Ha. split; [|split].
  - now apply dict_set_keys_nodup.
  - now apply dict_set_values_nodup.
  - intros x Hx. apply dict_values_set in Hx. destruct Hx as [->|Hx]; auto.
Qed.

Lemma name_steps_one_to_one set_order cols entries seen st :
  NoDup (map fst entries) ->
  (forall v, In v seen -> ~ In v (map fst entries)) ->
  one_to_one seen (fst st) ->
  one_to_one (seen ++ map fst entries)
             (fst (fold_left (name_step set_order cols) entries st)).
Proof.
  revert seen st. induction entries as [|[std patterns] entries IH];
    intros seen st Hnd Hseen Hst; simpl.
  - rewrite app_nil_r. exact Hst.
  - inversion Hnd as [|? ? Hn Hd]; subst.
    replace (seen ++ std :: map fst entries)%list
      with ((seen ++ [std]) ++ map fst entries)%list
      by (now rewrite <- app_assoc).
    apply IH; [exact Hd| |].
    + intros v Hv Hin. apply in_app_or in Hv. destruct Hv as [Hv|[<-|[]]].
      * apply (Hseen v Hv). now right.
      * contradiction.
    + destruct Hst as [H1 [H2 H3]].
      unfold name_step. simpl snd.
      destruct (first_match set_order patterns cols) as [[c conf]|]; simpl.
      * apply one_to_one_set.
        -- split; [exact H1|split; [exact H2|]].
           intros v Hv. apply in_or_app. left. auto.
        -- intro Hin. apply (Hseen std (H3 std Hin)). now left.
        -- apply in_or_app. right. now left.
      * split; [exact H1|split; [exact H2|]].
        intros v Hv. apply in_or_app. left. auto.
Qed.

Lemma date_step_one_to_one allowed parses st c :
  In "date" allowed -> one_to_one allowed (fst st) ->
  one_to_one allowed (fst (date_step parses st c)).
Proof.
  intros Ha H. unfold date_step.
  destruct (dict_mem (fst st) (name c)); auto.
  destruct (sample c); auto.
  destruct (parses (c0 :: l)); simpl; auto.
  destruct (in_values "date" (fst st)) eqn:E; simpl; auto.
  apply one_to_one_set; auto.
  intro Hin. apply in_values_in in Hin. congruence.
Qed.

Lemma numeric_step_one_to_one allowed st c :
  In "enrolment_count" allowed -> one_to_one allowed (fst st) ->
  one_to_one allowed (fst (numeric_step st c)).
Proof.
  intros Ha H. unfold numeric_step.
  destruct (dict_mem (fst st) (name c)); auto.
  destruct (existsb _ count_keywords); simpl; auto.
  destruct (in_values "enrolment_count" (fst st)) eqn:E; simpl; auto.
  apply one_to_one_set; auto.
  intro Hin. apply in_values_in in Hin. congruence.
Qed.

Lemma date_phase_one_to_one allowed parses df st :
  In "date" allowed -> one_to_one allowed (fst st) ->
  one_to_one allowed (fst (date_phase parses df st)).
Proof.
  intro Ha. unfold date_phase. revert st.
  induction df as [|c l IH]; intros st Hst; simpl; auto.
  apply IH. now apply date_step_one_to_one.
Qed.

Lemma numeric_phase_one_to_one allowed df st :
  In "enrolment_count" allowed -> one_to_one allowed (fst st) ->
  one_to_one allowed (fst (numeric_phase df st)).
Proof.
  intro Ha. unfold numeric_phase. generalize (filter numeric df) as l.
  intro l. revert st.
  induction l as [|c l IH]; intros st Hst; simpl; auto.
  apply IH. now apply numeric_step_one_to_one.
Qed.

Lemma detection_one_to_one set_order parses df :
  one_to_one (map fst column_patterns)
             (mapping (auto_detect_schema set_order parses df)).
Proof.
  unfold auto_detect_schema. simpl mapping.
  apply numeric_phase_one_to_one; [simpl; auto 6|].
  apply date_phase_one_to_one; [simpl; auto|].
  unfold name_phase.
  apply (name_steps_one_to_one set_order (map name df) column_patterns [] ([], [])).
  - simpl. repeat constructor; simpl; intuition; discriminate.
  - intros v [].
  - split; [constructor|split; [constructor|intros v []]].
Qed.

(** X15.  The mapping of [auto_detect_schema] is one-to-one, whatever the
    order of sets and the date parser: no two columns are mapped to the same
    canonical name, every canonical name it uses is a key of
    [column_patterns], and so it maps at most ten columns. *)
Theorem schema_mapping_is_one_to_one
  (set_order : list string -> list string) (to_datetime_parses : list cell -> bool)
  (df : list column) :
  let s := auto_detect_schema set_order to_datetime_parses df in
  NoDup (detected_columns s) /\
  (forall v, In v (detected_columns s) -> In v (map fst column_patterns)) /\
  (forall c1 c2 v,
     dict_get (mapping s) c1 = Some v -> dict_get (mapping s) c2 = Some v ->
     c1 = c2) /\
  (length (mapping s) <= 10)%nat.
Proof.
  intro s.
  destruct (detection_one_to_one set_order to_datetime_parses df) as [H1 [H2 H3]].
  fold s in H1, H2, H3.
  assert (Hd : detected_columns s = dict_values (mapping s)) by reflexivity.
  rewrite Hd. split; [exact H2|]. split; [exact H3|]. split.
  - intros c1 c2 v G1 G2.
    apply (nodup_values_injective (mapping s) c1 c2 v H2); now apply dict_get_in.
  - assert (Hincl : incl (dict_values (mapping s)) (map fst column_patterns))
      by (intros v Hv; auto).
    pose proof (NoDup_incl_length H2 Hincl) as Hlen.
    unfold dict_values in Hlen. rewrite length_map in Hlen.
    simpl in Hlen. exact Hlen.
Qed.

Lemma in_dict_set {V : Type} (d : list (string * V)) k v x :
  In x (dict_set d k v) -> x = (k, v) \/ In x d.
Proof.
  induction d as [|[k0 v0] d IH]; simpl.
  - intuition.
  - destruct (String.eqb k k0) eqn:E; simpl.
    + apply String.eqb_eq in E. subst k0. intuition.
    + intuition.
Qed.

Lemma sound_mapping_set parses df d k v :
  sound_mapping parses df d -> In k (map name df) -> justified parses df k v ->
  sound_mapping parses df (dict_set d k v).
Proof.
  intros H Hk Hj c x Hin. apply in_dict_set in Hin.
  destruct Hin as [Hin|Hin]; [inversion Hin; subst; auto|auto].
Qed.

Lemma name_steps_sound set_order parses df entries st :
  lists_the_elements set_order ->
  incl entries column_patterns ->
  sound_mapping parses df (fst st) ->
  sound_mapping parses df
    (fst (fold_left (name_step set_order (map name df)) entries st)).
Proof.
  intro Hset. revert st.
  induction entries as [|[std patterns] entries IH]; intros st Hincl Hst; simpl; auto.
  apply IH; [intros x Hx; apply Hincl; now right|].
  unfold name_step. simpl snd.
  destruct (first_match set_order patterns (map name df)) as [[c conf]|] eqn:E;
    simpl; auto.
  destruct (first_match_found set_order Hset _ _ _ _ E) as [Hc [p [Hp Hs]]].
  apply sound_mapping_set; auto.
  left. exists patterns, p. split; [apply Hincl; now left|auto].
Qed.

Lemma date_phase_sound parses df cols st :
  incl cols df ->
  sound_mapping parses df (fst st) ->
  sound_mapping parses df (fst (date_phase parses cols st)).
Proof.
  unfold date_phase. revert st.
  induction cols as [|c cols IH]; intros st Hincl Hst; simpl; auto.
  apply IH; [intros x Hx; apply Hincl; now right|].
  unfold date_step.
  destruct (dict_mem (fst st) (name c)); auto.
  destruct (sample c) as [|x l] eqn:Es; auto.
  destruct (parses (x :: l)) eqn:Ep; simpl; auto.
  destruct (in_values "date" (fst st)); simpl; auto.
  assert (Hc : In c df) by (apply Hincl; now left).
  apply sound_mapping_set; auto.
  - apply in_map. exact Hc.
  - right. left. split; [reflexivity|].
    exists c. rewrite Es. repeat split; auto. discriminate.
Qed.

Lemma numeric_steps_sound parses df cols st :
  (forall c, In c cols -> In c df /\ numeric c = true) ->
  sound_mapping parses df (fst st) ->
  sound_mapping parses df (fst (fold_left numeric_step cols st)).
Proof.
  revert st.
  induction cols as [|c cols IH]; intros st Hincl Hst; simpl; auto.
  apply IH; [intros x Hx; apply Hincl; now right|].
  unfold numeric_step.
  destruct (dict_mem (fst st) (name c)); auto.
  destruct (existsb _ count_keywords) eqn:Ek; simpl; auto.
  destruct (in_values "enrolment_count" (fst st)); simpl; auto.
  destruct (Hincl c (or_introl eq_refl)) as [Hc Hn].
  apply sound_mapping_set; auto.
  - apply in_map. exact Hc.
  - right. right. split; [reflexivity|].
    exists c. repeat split; auto.
Qed.

(** X16.  Every entry of the mapping is entitled: the mapped label is a
    column of the table, and either a pattern of its canonical name is
    found in the label, or the name is [date] and a non-empty sample of the
    column parses as dates, or the name is [enrolment_count] and the column
    is numeric under a label with a count keyword. *)
Theorem schema_mapping_is_justified
  (set_order : list string -> list string) (to_datetime_parses : list cell -> bool)
  (df : list column) (c v : string) :
  lists_the_elements set_order ->
  let s := auto_detect_schema set_order to_datetime_parses df in
  dict_get (mapping s) c = Some v ->
  In c (original_columns s) /\ justified to_datetime_parses df c v.
Proof.
  intros Hset s Hget. apply dict_get_in in Hget.
  revert c v Hget. change (sound_mapping to_datetime_parses df (mapping s)).
  unfold s, auto_detect_schema. simpl mapping. unfold numeric_phase.
  apply numeric_steps_sound.
  { intros x Hx. apply filter_In in Hx. exact Hx. }
  apply date_phase_sound; [apply incl_refl|].
  unfold name_phase. apply name_steps_sound; [exact Hset|apply incl_refl|].
  intros x y [].
Qed.

Lemma schema_mapping_is_justified_witness :
  In "when" (original_columns (auto_detect_schema distinct_order iso_only plain_table))
  /\ justified iso_only plain_table "when" "date".
Proof.
  apply (schema_mapping_is_justified distinct_order iso_only plain_table).
  - exact distinct_order_lists.
  - vm_compute. reflexivity.
Defined.

End SchemaMappingFacts.

(** ** Data cleaner: what holds of a cleaned table *)

Section CleanerPostconditionFacts.
Import Table Cleaner CleanerPostconditions.
Local Open Scope string_scope.

Lemma nth_update_at i f row :
  nth i (update_at i f row) Null
  = match nth_error row i with Some x => f x | None => Null end.
Proof.
  revert i. induction row as [|x row IH]; intros [|i]; simpl; auto.
Qed.

Lemma nth_update_at_other i j f row :
  i <> j -> nth j (update_at i f row) Null = nth j row Null.
Proof.
  revert i j. induction row as [|x row IH]; intros [|i] [|j] H; simpl; auto.
  congruence.
Qed.

Lemma length_update_at i f row : length (update_at i f row) = length row.
Proof.
  revert i. induction row as [|x row IH]; intros [|i]; simpl; auto.
Qed.

Lemma index_of_differs c c' cols :
  c <> c' -> existsb (String.eqb c') cols = true ->
  index_of c cols <> index_of c' cols.
Proof.
  intros Hne. induction cols as [|x cols IH]; simpl; [discriminate|].
  destruct (String.eqb c x) eqn:E1, (String.eqb c' x) eqn:E2; simpl;
    intro H; try discriminate.
  - apply String.eqb_eq in E1, E2. congruence.
  - intro Heq. injection Heq. now apply IH.
Qed.

Lemma cell_at_columns df df' c row :
  columns df' = columns df -> cell_at df' c row = cell_at df c row.
Proof. unfold cell_at. now intros ->. Qed.

Lemma kept_refl cs df : kept cs df df.
Proof. split; [reflexivity|]. intros row Hrow. exists row. auto. Qed.

Lemma kept_trans cs df1 df2 df3 :
  kept cs df1 df2 -> kept cs df2 df3 -> kept cs df1 df3.
Proof.
  intros [C1 R1] [C2 R2]. split; [congruence|].
  intros row3 H3. destruct (R2 row3 H3) as [row2 [H2 E2]].
  destruct (R1 row2 H2) as [row1 [H1 E1]]. exists row1. split; [exact H1|].
  intros c Hc. rewrite <- (E1 c Hc), <- (cell_at_columns df1 df2 c row3 C1),
    <- (cell_at_columns df1 df2 c row2 C1). apply E2. exact Hc.
Qed.

Lemma kept_filter cs keep df : kept cs df (filter_rows keep df).
Proof.
  split; [reflexivity|]. intros row Hrow. simpl in Hrow.
  apply filter_In in Hrow. exists row. split; [apply Hrow|auto].
Qed.

Lemma kept_map_column cs c f df :
  has_column c df = true -> ~ In c cs -> kept cs df (map_column c f df).
Proof.
  intros Hc Hn. split; [reflexivity|]. intros row' Hrow'. simpl in Hrow'.
  apply in_map_iff in Hrow'. destruct Hrow' as [row [<- Hrow]].
  exists row. split; [exact Hrow|]. intros c' Hc'. unfold cell_at.
  apply nth_update_at_other. intro E.
  apply (index_of_differs c' c (columns df));
    [intro; subst c'; contradiction | exact Hc | symmetry; exact E].
Qed.

Lemma kept_fold_map_column cs f l df :
  (forall c, In c l -> has_column c df = true /\ ~ In c cs) ->
  kept cs df (fold_left (fun d c => map_column c f d) l df).
Proof.
  revert df. induction l as [|c l IH]; intros df H; simpl; [apply kept_refl|].
  destruct (H c (or_introl eq_refl)) as [Hc Hn].
  apply (kept_trans cs df (map_column c f df)); [now apply kept_map_column|].
  apply IH. intros c' Hc'. destruct (H c' (or_intror Hc')) as [H1 H2]. auto.
Qed.

Lemma drop_duplicates_in key seen l row :
  In row (drop_duplicates key seen l) -> In row l.
Proof.
  revert seen. induction l as [|x l IH]; intro seen; simpl; [auto|].
  destruct (existsb (keys_eqb (key x)) seen); simpl; intro H.
  - right. eauto.
  - destruct H as [H|H]; [now left|right; eauto].
Qed.

Lemma kept_remove_duplicates cs df : kept cs df (_remove_duplicates df).
Proof.
  unfold _remove_duplicates.
  destruct (filter (fun c => has_column c df) duplicate_cols); [apply kept_refl|].
  split; [reflexivity|]. intros row Hrow. simpl in Hrow.
  apply drop_duplicates_in in Hrow. exists row. auto.
Qed.

Lemma column_holds_kept p c df df' :
  kept [c] df df' -> column_holds p c df -> column_holds p c df'.
Proof.
  intros [C R] H row' Hrow'. destruct (R row' Hrow') as [row [Hrow E]].
  rewrite (cell_at_columns df df' c row' C), (E c (or_introl eq_refl)). auto.
Qed.

Lemma has_column_kept cs df df' c :
  kept cs df df' -> has_column c df' = has_column c df.
Proof. intros [C _]. unfold has_column. now rewrite C. Qed.

Lemma kept_geographic cs repr_number repr_timestamp df :
  ~ In "state" cs -> ~ In "district" cs -> ~ In "pincode" cs ->
  kept cs df (_clean_geographic_data repr_number repr_timestamp df).
Proof.
  intros Hs Hd Hp. unfold _clean_geographic_data.
  set (df1 := if has_column "state" df then _ else df).
  set (df2 := if has_column "district" df1 then _ else df1).
  assert (K1 : kept cs df df1).
  { unfold df1. destruct (has_column "state" df) eqn:E;
      [now apply kept_map_column|apply kept_refl]. }
  assert (K2 : kept cs df1 df2).
  { unfold df2. destruct (has_column "district" df1) eqn:E;
      [now apply kept_map_column|apply kept_refl]. }
  apply (kept_trans cs df df2); [apply (kept_trans cs df df1); assumption|].
  destruct (has_column "pincode" df2) eqn:E;
    [now apply kept_map_column|apply kept_refl].
Qed.

Lemma kept_validate cs df :
  ~ In "enrolment_count" cs -> (forall c, In c age_columns -> ~ In c cs) ->
  kept cs df (_validate_numeric_ranges df).
Proof.
  intros He Ha. unfold _validate_numeric_ranges.
  set (df1 := if has_column "enrolment_count" df then _ else df).
  set (df2 := if has_column "update_count" df1 then _ else df1).
  assert (K1 : kept cs df df1).
  { unfold df1. destruct (has_column "enrolment_count" df) eqn:E; [|apply kept_refl].
    eapply kept_trans; [apply kept_filter|].
    apply kept_map_column; [exact E|exact He]. }
  assert (K2 : kept cs df1 df2).
  { unfold df2. destruct (has_column "update_count" df1); [|apply kept_refl].
    destruct (has_column "enrolment_count" (filter_rows _ df1)).
    - eapply kept_trans; apply kept_filter.
    - apply kept_filter. }
  assert (K : kept cs df df2) by (apply (kept_trans cs df df1); assumption).
  destruct (filter (fun c => has_column c df2) age_columns) as [|a l] eqn:El;
    [exact K|].
  rewrite <- El.
  set (ages := filter (fun c => has_column c df2) age_columns).
  set (df3 := fold_left (fun d c => map_column c (clip_lower 0) d) ages df2).
  assert (K3 : kept cs df2 df3).
  { apply kept_fold_map_column. intros c Hc. unfold ages in Hc.
    apply filter_In in Hc. destruct Hc as [Hc1 Hc2]. split; [exact Hc2|auto]. }
  apply (kept_trans cs df df2); [exact K|].
  destruct (has_column "enrolment_count" df3).
  - eapply kept_trans; [exact K3|apply kept_filter].
  - exact K3.
Qed.

Lemma age_columns_other c :
  In c age_columns -> ~ In c ["date"; "district"; "pincode"; "state";
                              "enrolment_count"; "update_count"].
Proof.
  unfold age_columns. simpl. intuition; subst; discriminate.
Qed.

Lemma kept_after_dates cs repr_number repr_timestamp df :
  (forall c, In c cs -> c = "date") ->
  kept cs df (_remove_duplicates
                (_validate_numeric_ranges
                   (_clean_geographic_data repr_number repr_timestamp df))).
Proof.
  intro Hcs.
  eapply kept_trans; [|apply kept_remove_duplicates].
  eapply kept_trans; [apply kept_geographic|apply kept_validate].
  - intro H. apply Hcs in H. discriminate.
  - intro H. apply Hcs in H. discriminate.
  - intro H. apply Hcs in H. discriminate.
  - intro H. apply Hcs in H. discriminate.
  - intros c Hc H. apply Hcs in H. subst c. apply age_columns_other in Hc.
    apply Hc. simpl. auto.
Qed.

Lemma clean_dates_window to_datetime now df :
  has_column "date" df = true ->
  column_holds (in_window now) "date" (_clean_dates to_datetime now df).
Proof.
  intros Hd row Hrow. unfold _clean_dates in *. rewrite Hd in *. simpl negb in *.
  cbv iota in *.
  set (df1 := map_column "date" (coerce_date to_datetime) df) in *.
  set (df2 := filter_rows (fun row => notna (cell_at df1 "date" row)) df1) in *.
  set (df3 := filter_rows (date_between df2 (Some aadhaar_start) None) df2) in *.
  simpl in Hrow. apply filter_In in Hrow. destruct Hrow as [Hrow Hhi].
  apply filter_In in Hrow. destruct Hrow as [_ Hlo].
  unfold date_between in Hlo, Hhi.
  change (cell_at (filter_rows (date_between df3 None (Some now)) df3) "date" row)
    with (cell_at df2 "date" row).
  change (cell_at df3 "date" row) with (cell_at df2 "date" row) in Hhi.
  destruct (cell_at df2 "date" row); try discriminate.
  simpl in *. rewrite andb_true_r in Hlo. rewrite Hlo, Hhi. reflexivity.
Qed.

Lemma for_column_of_holds df c p :
  (has_column c df = true -> column_holds p c df) ->
  for_column df c (fun _ => p) = true.
Proof.
  intro H. unfold for_column. destruct (has_column c df); [|reflexivity].
  simpl. apply forallb_forall. intros row Hrow. now apply H.
Qed.

Lemma clean_dates_columns to_datetime now df :
  columns (_clean_dates to_datetime now df) = columns df.
Proof.
  unfold _clean_dates. destruct (negb (has_column "date" df)); reflexivity.
Qed.

(** X21.  In the cleaned table every [date] is a parsed timestamp between
    2009-01-01 and the time of the run. *)
Theorem clean_dates_lie_in_the_window
  (column_mappings : list (string * list string))
  (to_datetime : cell -> option Z) (now : Z)
  (repr_number : Q -> string) (repr_timestamp : Z -> string) (df : frame) :
  for_column (clean column_mappings to_datetime now repr_number repr_timestamp df)
             "date" (fun _ => in_window now) = true.
Proof.
  unfold clean.
  set (df2 := _handle_missing_values (_standardize_columns column_mappings df)).
  set (df3 := _clean_dates to_datetime now df2).
  pose proof (kept_after_dates ["date"] repr_number repr_timestamp df3) as K.
  apply for_column_of_holds. intro Hc.
  rewrite (has_column_kept _ _ _ "date" (K ltac:(intros c [<-|[]]; reflexivity)))
    in Hc.
  apply (column_holds_kept _ _ df3);
    [apply K; intros c [<-|[]]; reflexivity|].
  apply clean_dates_window.
  unfold has_column in *. unfold df3 in Hc. rewrite clean_dates_columns in Hc.
  exact Hc.
Qed.

Lemma nth_error_of_nth (row : list cell) i x :
  nth i row Null = x -> x <> Null -> nth_error row i = Some x.
Proof.
  revert i. induction row as [|y row IH]; intros [|i] H Hx; simpl in *;
    try congruence; auto.
Qed.

Lemma clip_upper_in_bounds c :
  non_negative c = true -> count_in_bounds (clip_upper 1000000 c) = true.
Proof.
  destruct c as [|q|s|t]; try discriminate. simpl. intro H.
  unfold count_in_bounds.
  destruct (Qle_bool q 1000000) eqn:E; simpl.
  - now rewrite H, E.
  - reflexivity.
Qed.

Lemma updates_bounded_kept df df' :
  kept ["enrolment_count"; "update_count"] df df' ->
  updates_bounded df -> updates_bounded df'.
Proof.
  intros K H row' Hrow'. pose proof K as [C R].
  destruct (R row' Hrow') as [row [Hrow E]].
  specialize (H row Hrow). unfold update_in_bounds in *.
  rewrite (has_column_kept _ _ _ "enrolment_count" K).
  rewrite !(cell_at_columns df df' _ row' C).
  rewrite (E "update_count") by (right; left; reflexivity).
  rewrite (E "enrolment_count") by (left; reflexivity).
  exact H.
Qed.

Lemma validate_counts df :
  let out := _validate_numeric_ranges df in
  (has_column "enrolment_count" df = true ->
   column_holds count_in_bounds "enrolment_count" out) /\
  (has_column "update_count" df = true -> updates_bounded out).
Proof.
  unfold _validate_numeric_ranges.
  set (df1 := if has_column "enrolment_count" df then _ else df).
  set (df2 := if has_column "update_count" df1 then _ else df1).
  assert (C1 : columns df1 = columns df).
  { unfold df1. destruct (has_column "enrolment_count" df); reflexivity. }
  assert (H1 : has_column "enrolment_count" df = true ->
               column_holds count_in_bounds "enrolment_count" df1).
  { intros He row' Hrow'. unfold df1 in *. rewrite He in *.
    simpl in Hrow'. apply in_map_iff in Hrow'. destruct Hrow' as [row [<- Hrow]].
    apply filter_In in Hrow. destruct Hrow as [_ Hnn].
    unfold cell_at in *. simpl columns.
    rewrite nth_update_at.
    rewrite (nth_error_of_nth row _ _ eq_refl).
    - now apply clip_upper_in_bounds.
    - intro E. rewrite E in Hnn. discriminate. }
  assert (K2 : kept ["enrolment_count"; "update_count"] df1 df2).
  { unfold df2. destruct (has_column "update_count" df1); [|apply kept_refl].
    destruct (has_column "enrolment_count" (filter_rows _ df1)).
    - eapply kept_trans; apply kept_filter.
    - apply kept_filter. }
  assert (H2 : has_column "update_count" df = true -> updates_bounded df2).
  { intros Hu row Hrow.
    assert (Hu1 : has_column "update_count" df1 = true)
      by (unfold has_column; rewrite C1; exact Hu).
    unfold update_in_bounds.
    rewrite (has_column_kept _ _ _ "enrolment_count" K2).
    rewrite !(cell_at_columns df1 df2 _ row (proj1 K2)).
    unfold df2 in Hrow. rewrite Hu1 in Hrow.
    change (has_column "enrolment_count" (filter_rows _ df1))
      with (has_column "enrolment_count" df1) in Hrow.
    destruct (has_column "enrolment_count" df1); simpl in Hrow.
    - apply filter_In in Hrow. destruct Hrow as [Hrow Hle].
      apply filter_In in Hrow. destruct Hrow as [_ Hnn].
      change (cell_at (filter_rows _ df1)) with (cell_at df1) in Hle.
      rewrite Hnn, Hle. reflexivity.
    - apply filter_In in Hrow. destruct Hrow as [_ Hnn].
      rewrite Hnn. reflexivity. }
  set (ages := filter (fun c => has_column c df2) age_columns).
  set (df3 := fold_left (fun d c => map_column c (clip_lower 0) d) ages df2).
  assert (K3 : kept ["enrolment_count"; "update_count"] df2 df3).
  { apply kept_fold_map_column. intros c Hc. unfold ages in Hc.
    apply filter_In in Hc. destruct Hc as [Hc1 Hc2]. split; [exact Hc2|].
    intro Hin. apply (age_columns_other c Hc1). simpl in *. tauto. }
  set (out := match ages with [] => df2 | _ => _ end).
  assert (K : kept ["enrolment_count"; "update_count"] df2 out).
  { unfold out. destruct ages eqn:Ea; [apply kept_refl|]. rewrite <- Ea.
    fold df3. destruct (has_column "enrolment_count" df3).
    - eapply kept_trans; [exact K3|apply kept_filter].
    - exact K3. }
  split.
  - intro He. apply (column_holds_kept _ _ df2).
    + destruct K as [C R]. split; [exact C|].
      intros row' Hrow'. destruct (R row' Hrow') as [row [Hrow E]].
      exists row. split; [exact Hrow|]. intros c [<-|[]]. apply E. left. reflexivity.
    + apply (column_holds_kept _ _ df1); [|auto].
      destruct K2 as [C R]. split; [exact C|].
      intros row' Hrow'. destruct (R row' Hrow') as [row [Hrow E]].
      exists row. split; [exact Hrow|]. intros c [<-|[]]. apply E. left. reflexivity.
  - intro Hu. apply (updates_bounded_kept df2); auto.
Qed.

(** X20.  In the cleaned table every [enrolment_count] is a number between
    0 and 1,000,000, and every [update_count] is a number that is not
    negative and, when the table has enrolment counts, at most five times
    the row's enrolment count. *)
Theorem clean_counts_lie_within_bounds
  (column_mappings : list (string * list string))
  (to_datetime : cell -> option Z) (now : Z)
  (repr_number : Q -> string) (repr_timestamp : Z -> string) (df : frame) :
  let out := clean column_mappings to_datetime now repr_number repr_timestamp df in
  for_column out "enrolment_count" (fun _ => count_in_bounds) = true /\
  for_column out "update_count" (update_in_bounds out) = true.
Proof.
  intro out. subst out. unfold clean.
  set (df4 := _clean_geographic_data repr_number repr_timestamp _).
  destruct (validate_counts df4) as [He Hu].
  pose proof (kept_remove_duplicates ["enrolment_count"; "update_count"]
                (_validate_numeric_ranges df4)) as K.
  pose proof (kept_validate [] df4 ltac:(intros []) ltac:(intros c _ [])) as KV.
  split.
  - apply for_column_of_holds. intro Hc.
    rewrite (has_column_kept _ _ _ "enrolment_count" K) in Hc.
    rewrite (has_column_kept _ _ _ "enrolment_count" KV) in Hc.
    apply (column_holds_kept _ _ (_validate_numeric_ranges df4)); [|auto].
    destruct K as [C R]. split; [exact C|].
    intros row' Hrow'. destruct (R row' Hrow') as [row [Hrow E]].
    exists row. split; [exact Hrow|]. intros c [<-|[]]. apply E. left. reflexivity.
  - unfold for_column.
    destruct (has_column "update_count" (_remove_duplicates _)) eqn:Hc;
      [|reflexivity].
    cbn [negb orb]. apply forallb_forall.
    rewrite (has_column_kept _ _ _ "update_count" K) in Hc.
    rewrite (has_column_kept _ _ _ "update_count" KV) in Hc.
    apply (updates_bounded_kept (_validate_numeric_ranges df4)); auto.
Qed.

Lemma Qeq_bool_trans x y z :
  Qeq_bool x y = true -> Qeq_bool y z = true -> Qeq_bool x z = true.
Proof.
  intros H1 H2. apply Qeq_bool_iff in H1, H2. apply Qeq_bool_iff.
  now rewrite H1.
Qed.

Lemma cell_eqb_trans a b c :
  cell_eqb a b = true -> cell_eqb b c = true -> cell_eqb a c = true.
Proof.
  destruct a, b, c; simpl; try discriminate; auto.
  - apply Qeq_bool_trans.
  - intros H1 H2. apply String.eqb_eq in H1, H2. subst. apply String.eqb_refl.
  - intros H1 H2. apply Z.eqb_eq in H1, H2. subst. apply Z.eqb_refl.
Qed.

Lemma keys_eqb_trans a b c :
  keys_eqb a b = true -> keys_eqb b c = true -> keys_eqb a c = true.
Proof.
  revert b c. induction a as [|x a IH]; intros [|y b] [|z c]; simpl;
    try discriminate; auto.
  intros H1 H2. apply andb_true_iff in H1, H2.
  destruct H1 as [H1 H1'], H2 as [H2 H2'].
  apply andb_true_iff. split; [eapply cell_eqb_trans|eapply IH]; eauto.
Qed.

Lemma seen_through k k' seen :
  keys_eqb k k' = true -> existsb (keys_eqb k') seen = true ->
  existsb (keys_eqb k) seen = true.
Proof.
  intros H Hs. apply existsb_exists in Hs. destruct Hs as [x [Hx E]].
  apply existsb_exists. exists x. split; [exact Hx|].
  eapply keys_eqb_trans; eauto.
Qed.

Lemma drop_duplicates_snoc key seen pre r :
  drop_duplicates key seen (pre ++ [r])%list
  = (drop_duplicates key seen pre
     ++ (if existsb (keys_eqb (key r)) seen
            || existsb (fun p => keys_eqb (key r) (key p)) pre
         then [] else [r]))%list.
Proof.
  revert seen. induction pre as [|x pre IH]; intro seen.
  - cbn [app drop_duplicates existsb]. rewrite orb_false_r.
    destruct (existsb (keys_eqb (key r)) seen); reflexivity.
  - cbn [app drop_duplicates existsb].
    destruct (existsb (keys_eqb (key x)) seen) eqn:Ex.
    + rewrite IH. f_equal.
      destruct (keys_eqb (key r) (key x)) eqn:Er; [|reflexivity].
      rewrite (seen_through _ _ _ Er Ex). reflexivity.
    + rewrite <- app_comm_cons. f_equal. rewrite IH. f_equal.
      cbn [existsb].
      destruct (keys_eqb (key r) (key x)), (existsb (keys_eqb (key r)) seen);
        reflexivity.
Qed.

(** X18.  [_remove_duplicates] keeps first occurrences: with a key column
    in the table, a row appended to the table is appended to the result when
    no earlier row, kept or dropped, has its key, and is dropped otherwise;
    the rows before it fare as they do without it. *)
Theorem remove_duplicates_keeps_first_occurrences
  (df : frame) (pre : list (list cell)) (r : list cell) :
  let cols := filter (fun c => has_column c df) duplicate_cols in
  let key := row_key df cols in
  cols <> [] ->
  rows (_remove_duplicates {| columns := columns df; rows := (pre ++ [r])%list |})
  = (rows (_remove_duplicates {| columns := columns df; rows := pre |})
     ++ (if existsb (fun p => keys_eqb (key r) (key p)) pre then [] else [r]))%list.
Proof.
  intros cols key Hne. subst key. subst cols.
  unfold _remove_duplicates, has_column. cbn [columns rows].
  unfold has_column in Hne.
  destruct (filter (fun c => existsb (String.eqb c) (columns df)) duplicate_cols)
    as [|c0 cs] eqn:E; [congruence|].
  cbn [rows].
  unfold row_key, cell_at. cbn [columns].
  rewrite (drop_duplicates_snoc
             (fun row => map (fun c => nth (index_of c (columns df)) row Null)
                             (c0 :: cs))).
  reflexivity.
Qed.

Lemma remove_duplicates_keeps_first_occurrences_witness :
  rows (_remove_duplicates
          {| columns := columns plain_records;
             rows := (rows plain_records ++ [hd [] (rows plain_records)])%list |})
  = rows (_remove_duplicates plain_records).
Proof.
  rewrite (remove_duplicates_keeps_first_occurrences plain_records
             (rows plain_records) (hd [] (rows plain_records))).
  - vm_compute. reflexivity.
  - vm_compute. discriminate.
Defined.

Lemma drop_duplicates_fresh key seen l r :
  In r (drop_duplicates key seen l) -> existsb (keys_eqb (key r)) seen = false.
Proof.
  revert seen. induction l as [|x l IH]; intro seen; cbn [drop_duplicates];
    [intros []|].
  destruct (existsb (keys_eqb (key x)) seen) eqn:Ex.
  - apply IH.
  - intros [<-|H]; [exact Ex|].
    specialize (IH _ H). cbn [existsb] in IH.
    apply orb_false_iff in IH. apply IH.
Qed.

Lemma drop_duplicates_no_repeat key seen l :
  no_repeat (map key (drop_duplicates key seen l)) = true.
Proof.
  revert seen. induction l as [|x l IH]; intro seen; cbn [drop_duplicates];
    [reflexivity|].
  destruct (existsb (keys_eqb (key x)) seen); [apply IH|].
  cbn [map no_repeat]. rewrite IH, andb_true_r.
  apply forallb_forall. intros k Hk. apply in_map_iff in Hk.
  destruct Hk as [r [<- Hr]]. apply drop_duplicates_fresh in Hr.
  cbn [existsb] in Hr. apply orb_false_iff in Hr.
  apply negb_true_iff. apply Hr.
Qed.

Lemma remove_duplicates_distinct df :
  existsb (fun c => has_column c df) duplicate_cols = true ->
  distinct_keys (_remove_duplicates df) = true.
Proof.
  intro H. unfold distinct_keys.
  assert (C : columns (_remove_duplicates df) = columns df).
  { unfold _remove_duplicates. destruct (filter _ duplicate_cols); reflexivity. }
  assert (Ecols : filter (fun c => has_column c (_remove_duplicates df)) duplicate_cols
                  = filter (fun c => has_column c df) duplicate_cols).
  { apply filter_ext. intro c. unfold has_column. now rewrite C. }
  rewrite Ecols.
  assert (Ekey : forall cols row,
             row_key (_remove_duplicates df) cols row = row_key df cols row).
  { intros cols row. unfold row_key. apply map_ext. intro c.
    apply cell_at_columns. exact C. }
  rewrite (map_ext _ _ (Ekey _)).
  unfold _remove_duplicates.
  destruct (filter (fun c => has_column c df) duplicate_cols) as [|c0 cs] eqn:E.
  - exfalso. apply existsb_exists in H. destruct H as [c [Hc1 Hc2]].
    assert (Hin : In c (filter (fun c => has_column c df) duplicate_cols))
      by (apply filter_In; auto).
    rewrite E in Hin. destruct Hin.
  - cbn [rows]. apply drop_duplicates_no_repeat.
Qed.

Lemma remove_duplicates_output_distinct df :
  existsb (fun c => has_column c (_remove_duplicates df)) duplicate_cols = true ->
  distinct_keys (_remove_duplicates df) = true.
Proof.
  intro H. apply remove_duplicates_distinct.
  assert (C : columns (_remove_duplicates df) = columns df).
  { unfold _remove_duplicates. destruct (filter _ duplicate_cols); reflexivity. }
  apply existsb_exists in H. destruct H as [c [Hc1 Hc2]].
  apply existsb_exists. exists c. split; [exact Hc1|].
  unfold has_column in *. rewrite C in Hc2. exact Hc2.
Qed.

(** X17.  When the cleaned table has one of the columns [date], [state],
    [district], no two of its rows agree on all of those it has. *)
Theorem clean_leaves_distinct_keys
  (column_mappings : list (string * list string))
  (to_datetime : cell -> option Z) (now : Z)
  (repr_number : Q -> string) (repr_timestamp : Z -> string) (df : frame) :
  existsb (fun c => has_column c (clean column_mappings to_datetime now
                                        repr_number repr_timestamp df))
          duplicate_cols = true ->
  distinct_keys (clean column_mappings to_datetime now repr_number repr_timestamp df)
  = true.
Proof.
  unfold clean. cbv zeta. apply remove_duplicates_output_distinct.
Qed.

Lemma clean_leaves_distinct_keys_witness :
  distinct_keys (clean usual_mappings parsed_only a_clock no_repr no_repr
                       {| columns := columns plain_records;
                          rows := (rows plain_records ++ rows plain_records)%list |})
  = true.
Proof.
  apply (clean_leaves_distinct_keys usual_mappings parsed_only a_clock no_repr no_repr).
  vm_compute. reflexivity.
Defined.

Lemma to_lower_idem c : to_lower (to_lower c) = to_lower c.
Proof. destruct c as [[] [] [] [] [] [] [] []]; reflexivity. Qed.

Lemma to_upper_idem c : to_upper (to_upper c) = to_upper c.
Proof. destruct c as [[] [] [] [] [] [] [] []]; reflexivity. Qed.

Lemma is_alpha_to_lower c : is_alpha (to_lower c) = is_alpha c.
Proof. destruct c as [[] [] [] [] [] [] [] []]; reflexivity. Qed.

Lemma is_alpha_to_upper c : is_alpha (to_upper c) = is_alpha c.
Proof. destruct c as [[] [] [] [] [] [] [] []]; reflexivity. Qed.

Lemma title_from_idem b s : title_from b (title_from b s) = title_from b s.
Proof.
  revert b. induction s as [|c s IH]; intro b; cbn [title_from]; [reflexivity|].
  destruct b.
  - rewrite to_lower_idem, is_alpha_to_lower, IH. reflexivity.
  - rewrite to_upper_idem, is_alpha_to_upper, IH. reflexivity.
Qed.

Lemma title_idem s : title (title s) = title s.
Proof. apply title_from_idem. Qed.

Lemma state_step_is_title c :
  replace_state (str_method title c) = str_method title c.
Proof.
  destruct c as [|q|s|t]; try reflexivity.
  cbn [str_method replace_state].
  rewrite (title_not_corrected (title s) (title_idem s)). reflexivity.
Qed.

Lemma column_values_map_other c c' f df :
  c <> c' -> has_column c' df = true ->
  column_values c (map_column c' f df) = column_values c df.
Proof.
  intros Hne Hc. unfold column_values, map_column. cbn [rows].
  rewrite map_map. apply map_ext. intro row. unfold cell_at. cbn [columns].
  apply nth_update_at_other. intro E.
  apply (index_of_differs c c' (columns df) Hne Hc). symmetry. exact E.
Qed.

Lemma column_values_map_same c f df :
  f Null = Null ->
  column_values c (map_column c f df) = map f (column_values c df).
Proof.
  intro Hf. unfold column_values, map_column. cbn [rows].
  rewrite !map_map. apply map_ext. intro row. unfold cell_at. cbn [columns].
  rewrite nth_update_at.
  generalize (index_of c (columns df)) as i. intro i. revert i.
  induction row as [|x row IH]; intros [|i]; simpl; auto.
Qed.

(** X19.  The table [state_corrections] is never applied: its keys are in
    upper case and the names are put in title case first, so
    [_clean_geographic_data] leaves in the [state] column the title-cased
    name and nothing else (["DELHI"] becomes ["Delhi"], not
    ["NCT of Delhi"]). *)
Theorem state_corrections_never_apply
  (repr_number : Q -> string) (repr_timestamp : Z -> string) (df : frame) :
  has_column "state" df = true ->
  column_values "state" (_clean_geographic_data repr_number repr_timestamp df)
  = map (str_method title) (column_values "state" df)
  /\ forall c, replace_state (str_method title c) = str_method title c.
Proof.
  intro Hs. split; [|apply state_step_is_title].
  unfold _clean_geographic_data. rewrite Hs.
  set (df1 := map_column "state" (fun c => replace_state (str_method title c)) df).
  assert (E1 : column_values "state" df1 = map (str_method title) (column_values "state" df)).
  { unfold df1. rewrite column_values_map_same by reflexivity.
    apply map_ext. apply state_step_is_title. }
  set (df2 := if has_column "district" df1 then _ else df1).
  assert (E2 : column_values "state" df2 = column_values "state" df1).
  { unfold df2. destruct (has_column "district" df1) eqn:Hd; [|reflexivity].
    apply column_values_map_other; [discriminate|exact Hd]. }
  destruct (has_column "pincode" df2) eqn:Hp.
  - rewrite column_values_map_other; [|discriminate|exact Hp]. congruence.
  - congruence.
Qed.

Lemma state_corrections_never_apply_witness :
  column_values "state"
    (_clean_geographic_data no_repr no_repr
       {| columns := ["state"]; rows := [[Str "DELHI"]; [Str "orissa"]] |})
  = [Str "Delhi"; Str "Orissa"].
Proof.
  destruct (state_corrections_never_apply no_repr no_repr
              {| columns := ["state"]; rows := [[Str "DELHI"]; [Str "orissa"]] |})
    as [H _]; [reflexivity|].
  rewrite H. vm_compute. reflexivity.
Defined.

Lemma column_holds_map_same p c f df :
  (forall x, p (f x) = true) -> p Null = true ->
  column_holds p c (map_column c f df).
Proof.
  intros Hf Hn row' Hrow'. cbn [map_column rows] in Hrow'.
  apply in_map_iff in Hrow'. destruct Hrow' as [row [<- _]].
  unfold cell_at. cbn [map_column columns]. rewrite nth_update_at.
  destruct (nth_error row (index_of c (columns df))); auto.
Qed.

Lemma keep_chars_all keep s :
  forallb keep (list_ascii_of_string (keep_chars keep s)) = true.
Proof.
  induction s as [|c s IH]; cbn [keep_chars]; [reflexivity|].
  destruct (keep c) eqn:E; [|exact IH].
  cbn [list_ascii_of_string forallb]. now rewrite E, IH.
Qed.

Lemma district_step_plain c :
  letters_or_missing (str_method letters_and_spaces (str_method title c)) = true.
Proof.
  destruct c as [|q|s|t]; try reflexivity.
  cbn [str_method letters_or_missing]. apply keep_chars_all.
Qed.

Lemma six_digits_plain s d :
  six_digits s = Some d -> pincode_or_missing (Str d) = true.
Proof.
  destruct s as [|a [|b [|c [|d0 [|e [|f rest]]]]]]; try discriminate.
  cbn [six_digits].
  destruct (forallb is_digit [a; b; c; d0; e; f]) eqn:E; [|discriminate].
  intro H. inversion H; subst d. cbn [pincode_or_missing String.length Nat.eqb andb
                                     list_ascii_of_string].
  exact E.
Qed.

Lemma extract_pincode_plain s : pincode_or_missing (extract_pincode s) = true.
Proof.
  induction s as [|c s IH]; [reflexivity|].
  cbn [extract_pincode].
  destruct (six_digits (String c s)) as [d|] eqn:E; [|exact IH].
  exact (six_digits_plain _ _ E).
Qed.

Lemma geographic_plain repr_number repr_timestamp df :
  let out := _clean_geographic_data repr_number repr_timestamp df in
  (has_column "district" df = true -> column_holds letters_or_missing "district" out) /\
  (has_column "pincode" df = true -> column_holds pincode_or_missing "pincode" out).
Proof.
  unfold _clean_geographic_data.
  set (df1 := if has_column "state" df then _ else df).
  set (df2 := if has_column "district" df1 then _ else df1).
  assert (C1 : columns df1 = columns df)
    by (unfold df1; destruct (has_column "state" df); reflexivity).
  assert (C2 : columns df2 = columns df1)
    by (unfold df2; destruct (has_column "district" df1); reflexivity).
  split.
  - intro Hd.
    assert (Hd1 : has_column "district" df1 = true)
      by (unfold has_column; rewrite C1; exact Hd).
    assert (H2 : column_holds letters_or_missing "district" df2).
    { unfold df2. rewrite Hd1. apply column_holds_map_same; [|reflexivity].
      apply district_step_plain. }
    destruct (has_column "pincode" df2) eqn:Hp; [|exact H2].
    apply (column_holds_kept _ _ df2); [|exact H2].
    apply kept_map_column; [exact Hp|]. intros [E|[]]. discriminate.
  - intro Hp.
    assert (Hp2 : has_column "pincode" df2 = true)
      by (unfold has_column; rewrite C2, C1; exact Hp).
    rewrite Hp2. apply column_holds_map_same; [|reflexivity].
    intro x. apply extract_pincode_plain.
Qed.

(** X22.  In the cleaned table every [district] is missing or a text of
    letters and white space only, and every [pincode] is missing or a text
    of exactly six digits. *)
Theorem clean_geography_is_plain
  (column_mappings : list (string * list string))
  (to_datetime : cell -> option Z) (now : Z)
  (repr_number : Q -> string) (repr_timestamp : Z -> string) (df : frame) :
  let out := clean column_mappings to_datetime now repr_number repr_timestamp df in
  for_column out "district" (fun _ => letters_or_missing) = true /\
  for_column out "pincode" (fun _ => pincode_or_missing) = true.
Proof.
  intro out. subst out. unfold clean.
  set (df3 := _clean_dates to_datetime now _).
  set (df4 := _clean_geographic_data repr_number repr_timestamp df3).
  destruct (geographic_plain repr_number repr_timestamp df3) as [Hd Hp].
  fold df4 in Hd, Hp.
  assert (K : forall c, c = "district" \/ c = "pincode" ->
                        kept [c] df4 (_remove_duplicates (_validate_numeric_ranges df4))).
  { intros c Hc. eapply kept_trans; [|apply kept_remove_duplicates].
    apply kept_validate.
    - intros [E|[]]. destruct Hc; subst; discriminate.
    - intros a Ha [E|[]]. subst a. apply (age_columns_other c Ha).
      destruct Hc; subst; cbn [In]; tauto. }
  assert (K4 : kept [] df3 df4)
    by (apply kept_geographic; intros []).
  split; apply for_column_of_holds; intro Hc.
  - rewrite (has_column_kept _ _ _ "district" (K "district" (or_introl eq_refl))) in Hc.
    rewrite (has_column_kept _ _ _ "district" K4) in Hc.
    apply (column_holds_kept _ _ df4); [apply K; now left|auto].
  - rewrite (has_column_kept _ _ _ "pincode" (K "pincode" (or_intror eq_refl))) in Hc.
    rewrite (has_column_kept _ _ _ "pincode" K4) in Hc.
    apply (column_holds_kept _ _ df4); [apply K; now right|auto].
Qed.

Lemma rectangular_filter keep df :
  rectangular df = true -> rectangular (filter_rows keep df) = true.
Proof.
  unfold rectangular. cbn [filter_rows rows columns]. intro H.
  rewrite forallb_forall in *. intros row Hrow. apply filter_In in Hrow.
  apply H. apply Hrow.
Qed.

Lemma rectangular_map_column c f df :
  rectangular df = true -> rectangular (map_column c f df) = true.
Proof.
  unfold rectangular. cbn [map_column rows columns]. intro H.
  rewrite forallb_forall in *. intros row' Hrow'. apply in_map_iff in Hrow'.
  destruct Hrow' as [row [<- Hrow]]. rewrite length_update_at. now apply H.
Qed.

Lemma fillna_keeps_present v c c' df :
  column_holds notna c df -> column_holds notna c (map_column c' (fillna v) df).
Proof.
  intros H row' Hrow'. cbn [map_column rows] in Hrow'.
  apply in_map_iff in Hrow'. destruct Hrow' as [row [<- Hrow]].
  specialize (H row Hrow). unfold cell_at in *. cbn [map_column columns].
  destruct (Nat.eq_dec (index_of c' (columns df)) (index_of c (columns df))) as [E|E].
  - rewrite E, nth_update_at.
    rewrite (nth_error_of_nth row _ _ eq_refl).
    + unfold fillna. revert H.
      destruct (nth (index_of c (columns df)) row Null); intro H;
        [discriminate H|reflexivity|reflexivity|reflexivity].
    + intro E'. rewrite E' in H. discriminate.
  - rewrite nth_update_at_other by exact E. exact H.
Qed.

Lemma fill_median_facts df c :
  columns (fill_median df c) = columns df /\
  (rectangular df = true -> rectangular (fill_median df c) = true) /\
  (forall c', column_holds notna c' df -> column_holds notna c' (fill_median df c)).
Proof.
  unfold fill_median.
  destruct (existsb isna (column_values c df)); [|auto].
  destruct (median (numbers (column_values c df))); [|auto].
  split; [reflexivity|]. split.
  - apply rectangular_map_column.
  - intros c'. apply fillna_keeps_present.
Qed.

Lemma fold_fill_median_facts l df :
  let out := fold_left fill_median l df in
  columns out = columns df /\
  (rectangular df = true -> rectangular out = true) /\
  (forall c', column_holds notna c' df -> column_holds notna c' out).
Proof.
  revert df. induction l as [|c l IH]; intro df; cbn [fold_left]; [auto|].
  destruct (fill_median_facts df c) as [C [R P]].
  destruct (IH (fill_median df c)) as [C' [R' P']].
  split; [congruence|]. split; auto.
Qed.

Lemma mode_present l m : mode l = Some m -> notna m = true.
Proof.
  unfold mode. set (present := filter notna l).
  assert (G : forall l0 best,
             (forall x, In x l0 -> notna x = true) ->
             (forall b, best = Some b -> notna b = true) ->
             forall m,
               fold_left
                 (fun best v =>
                    match best with
                    | None => Some v
                    | Some b =>
                        if (occurrences b present <? occurrences v present)%nat
                        then Some v
                        else if (occurrences v present =? occurrences b present)%nat
                                && cell_ltb v b
                             then Some v
                             else best
                    end) l0 best = Some m -> notna m = true).
  { clear. induction l0 as [|v l0 IH]; intros best Hl Hb m; cbn [fold_left].
    - apply Hb.
    - apply IH.
      + intros x Hx. apply Hl. now right.
      + intros b. destruct best as [b0|].
        * destruct (occurrences b0 present <? occurrences v present)%nat.
          -- intro E. inversion E; subst. apply Hl. now left.
          -- destruct ((occurrences v present =? occurrences b0 present)%nat
                       && cell_ltb v b0).
             ++ intro E. inversion E; subst. apply Hl. now left.
             ++ apply Hb.
        * intro E. inversion E; subst. apply Hl. now left. }
  apply G.
  - intros x Hx. unfold present in Hx. apply filter_In in Hx. apply Hx.
  - discriminate.
Qed.

Lemma fill_mode_facts df c :
  columns (fill_mode df c) = columns df /\
  (rectangular df = true -> rectangular (fill_mode df c) = true) /\
  (forall c', column_holds notna c' df -> column_holds notna c' (fill_mode df c)) /\
  (rectangular df = true -> has_column c df = true ->
   column_holds notna c (fill_mode df c)).
Proof.
  unfold fill_mode.
  destruct (has_column c df) eqn:Hc; cbn [andb].
  2:{ split; [reflexivity|]. split; [auto|]. split; [auto|]. discriminate. }
  destruct (existsb isna (column_values c df)) eqn:Ena.
  - assert (Hfill : forall v, notna v = true ->
                      rectangular df = true ->
                      column_holds notna c (map_column c (fillna v) df)).
    { intros v Hv Hr row' Hrow'. cbn [map_column rows] in Hrow'.
      apply in_map_iff in Hrow'. destruct Hrow' as [row [<- Hrow]].
      unfold cell_at. cbn [map_column columns]. rewrite nth_update_at.
      unfold rectangular in Hr. rewrite forallb_forall in Hr.
      specialize (Hr row Hrow). apply Nat.eqb_eq in Hr.
      pose proof (index_of_lt c (columns df) Hc) as Hlt. rewrite <- Hr in Hlt.
      destruct (nth_error row (index_of c (columns df))) as [x|] eqn:E.
      - unfold fillna. destruct (isna x) eqn:Ex; [exact Hv|].
        unfold notna. now rewrite Ex.
      - apply nth_error_None in E. lia. }
    destruct (mode (column_values c df)) as [m|] eqn:Em.
    + split; [reflexivity|]. split; [apply rectangular_map_column|].
      split; [intro c'; apply fillna_keeps_present|].
      intros Hr _. apply Hfill; [|exact Hr]. exact (mode_present _ _ Em).
    + split; [reflexivity|]. split; [apply rectangular_map_column|].
      split; [intro c'; apply fillna_keeps_present|].
      intros Hr _. apply Hfill; [reflexivity|exact Hr].
  - split; [reflexivity|]. split; [auto|]. split; [auto|].
    intros _ _ row Hrow.
    destruct (notna (cell_at df c row)) eqn:E; [reflexivity|].
    assert (Ht : existsb isna (column_values c df) = true).
    { apply existsb_exists. exists (cell_at df c row). split.
      - unfold column_values. apply in_map. exact Hrow.
      - unfold notna in E. now apply negb_false_iff in E. }
    congruence.
Qed.

(** X23.  After [_handle_missing_values], on a table whose rows have one
    cell per label, the columns [date], [state], [district] and [pincode]
    that the table has hold no missing value. *)
Theorem missing_values_are_filled_in_key_columns (df : frame) (c : string) :
  rectangular df = true ->
  In c ["date"; "state"; "district"; "pincode"] ->
  has_column c df = true ->
  column_holds notna c (_handle_missing_values df).
Proof.
  intros Hr Hin Hc. unfold _handle_missing_values.
  set (df1 := if has_column "date" df then _ else df).
  assert (C1 : columns df1 = columns df)
    by (unfold df1; destruct (has_column "date" df); reflexivity).
  assert (R1 : rectangular df1 = true).
  { unfold df1. destruct (has_column "date" df); [|exact Hr].
    now apply rectangular_filter. }
  assert (D1 : c = "date" -> column_holds notna c df1).
  { intros -> row Hrow. unfold df1 in *. rewrite Hc in *.
    cbn [filter_rows rows] in Hrow. apply filter_In in Hrow. apply Hrow. }
  set (df2 := fold_left fill_median (numeric_cols df) df1).
  destruct (fold_fill_median_facts (numeric_cols df) df1) as [C2 [R2 P2]].
  fold df2 in C2, R2, P2. specialize (R2 R1).
  cbn [fold_left].
  destruct (fill_mode_facts df2 "state") as [Cs [Rs [Ps Fs]]].
  set (dfs := fill_mode df2 "state") in *.
  destruct (fill_mode_facts dfs "district") as [Cd [Rd [Pd Fd]]].
  set (dfd := fill_mode dfs "district") in *.
  destruct (fill_mode_facts dfd "pincode") as [Cp [Rp [Pp Fp]]].
  set (dfp := fill_mode dfd "pincode") in *.
  assert (Hcol : forall d, columns d = columns df -> has_column c d = true).
  { intros d E. unfold has_column. rewrite E. exact Hc. }
  assert (Hp : column_holds notna c dfp).
  { destruct Hin as [<-|[<-|[<-|[<-|[]]]]].
    - apply Pp, Pd, Ps, P2, D1. reflexivity.
    - apply Pp, Pd, Fs; [exact R2|]. apply Hcol. congruence.
    - apply Pp, Fd; [auto|]. apply Hcol. congruence.
    - apply Fp; [auto|]. apply Hcol. congruence. }
  apply (column_holds_kept _ _ dfp); [apply kept_filter|exact Hp].
Qed.

Lemma missing_values_are_filled_in_key_columns_witness :
  column_holds notna "state" (_handle_missing_values patchy).
Proof.
  apply missing_values_are_filled_in_key_columns.
  - reflexivity.
  - right. left. reflexivity.
  - reflexivity.
Defined.

End CleanerPostconditionFacts.

(** ** Feature extractor: age columns *)

Section DemographicsFacts.
Import Table Text Demographics.
Local Open Scope string_scope.

Lemma contains_head d rest s :
  contains (String d rest) s = true -> In d (list_ascii_of_string s).
Proof.
  induction s as [|c t IH]; cbn [contains String.prefix list_ascii_of_string].
  - discriminate.
  - destruct (ascii_dec d c) as [->|Hne].
    + intros _. now left.
    + intro H. right. apply IH. exact H.
Qed.

Lemma contains_char d s :
  In d (list_ascii_of_string s) -> contains (String d EmptyString) s = true.
Proof.
  induction s as [|c t IH]; cbn [contains String.prefix list_ascii_of_string].
  - intros [].
  - intros [->|H].
    + destruct (ascii_dec d d); [|congruence]. destruct t; reflexivity.
    + destruct (ascii_dec d c); [destruct t; reflexivity|auto].
Qed.

Lemma digit_is_a_count d :
  is_digit d = true -> str_nat (nat_of_ascii d - 48) = String d EmptyString.
Proof.
  destruct d as [[] [] [] [] [] [] [] []]; intro H;
    try discriminate H; reflexivity.
Qed.

Lemma digit_range d : is_digit d = true -> (nat_of_ascii d - 48 < 100)%nat.
Proof.
  unfold is_digit. generalize (nat_of_ascii d). intros n H.
  apply andb_true_iff in H. destruct H as [_ H]. apply Nat.leb_le in H. lia.
Qed.

Lemma counts_start_with_digits :
  forallb (fun i => match str_nat i with
                    | String d _ => is_digit d
                    | EmptyString => false
                    end) (seq 0 100) = true.
Proof. vm_compute. reflexivity. Qed.

Lemma number_test_is_digit_test col :
  existsb (fun i => contains (str_nat i) col) (seq 0 100) = has_digit col.
Proof.
  unfold has_digit.
  destruct (existsb is_digit (list_ascii_of_string col)) eqn:E.
  - apply existsb_exists in E. destruct E as [d [Hd Hdig]].
    apply existsb_exists. exists (nat_of_ascii d - 48)%nat. split.
    + apply in_seq. pose proof (digit_range d Hdig). lia.
    + rewrite (digit_is_a_count d Hdig). now apply contains_char.
  - destruct (existsb (fun i => contains (str_nat i) col) (seq 0 100)) eqn:E';
      [|reflexivity].
    apply existsb_exists in E'. destruct E' as [i [Hi Hc]].
    pose proof counts_start_with_digits as Hall.
    rewrite forallb_forall in Hall. specialize (Hall i Hi).
    destruct (str_nat i) as [|d rest]; [discriminate|].
    apply contains_head in Hc.
    assert (Ht : existsb is_digit (list_ascii_of_string col) = true)
      by (apply existsb_exists; exists d; auto).
    congruence.
Qed.

(** X25.  The feature extractor takes as age columns the labels that
    contain ["age"] in any case, or any decimal digit: the test against the
    numbers 0 to 99 is the test for a digit. *)
Theorem age_columns_are_labels_with_age_or_a_digit (columns : list string) :
  age_columns columns
  = filter (fun col => contains "age" (lower col) || has_digit col) columns.
Proof.
  unfold age_columns. apply filter_ext. intro col.
  now rewrite number_test_is_digit_test.
Qed.

End DemographicsFacts.

(** ** Risk scorer: the share of flagged rows *)

Section RiskScorerShares.
Import Numeric RiskScorer Text RiskReport.
Local Open Scope Q_scope.

Lemma frequency_of_group sqrt df g :
  entry_of_group sqrt df g anomaly_frequency_risk
  = frequency_step df g (volume_step df g (fun _ => None)) anomaly_frequency_risk.
Proof.
  unfold entry_of_group, update_step, consistency_step, volatility_step,
    severity_step.
  repeat match goal with
         | |- (if ?b then _ else _) _ = _ => destruct b
         | |- entry_set _ _ _ _ = _ => rewrite entry_set_other by reflexivity
         end; reflexivity.
Qed.

Lemma flags_sum g a :
  (forall r, In r g -> is_anomaly r = Fin 0 \/ is_anomaly r = Fin 1) ->
  exists s,
    fold_left fadd (map is_anomaly g) (Fin a) = Fin s /\
    s == a + inject_Z (Z.of_nat (length (filter flagged g))).
Proof.
  revert a. induction g as [|r g IH]; intros a H.
  - exists a. split; [reflexivity|]. cbn [filter length Z.of_nat].
    change (inject_Z 0) with 0. ring.
  - cbn [map fold_left filter].
    assert (Hg : forall x, In x g -> is_anomaly x = Fin 0 \/ is_anomaly x = Fin 1)
      by (intros x Hx; apply H; now right).
    unfold flagged at 1.
    destruct (H r (or_introl eq_refl)) as [E|E]; rewrite E; cbn [fadd].
    + destruct (IH (a + 0) Hg) as [s [H1 H2]]. exists s. split; [exact H1|].
      change (Qeq_bool 0 1) with false. cbv iota. rewrite H2. ring.
    + destruct (IH (a + 1) Hg) as [s [H1 H2]]. exists s. split; [exact H1|].
      change (Qeq_bool 1 1) with true. cbv iota. cbn [length].
      rewrite H2, Nat2Z.inj_succ, <- Z.add_1_r, inject_Z_plus.
      change (inject_Z 1) with 1. ring.
Qed.

Lemma flags_present g :
  (forall r, In r g -> is_anomaly r = Fin 0 \/ is_anomaly r = Fin 1) ->
  dropna (map is_anomaly g) = map is_anomaly g.
Proof.
  intro H. unfold dropna. induction g as [|r g IH]; [reflexivity|].
  cbn [map filter].
  destruct (H r (or_introl eq_refl)) as [E|E]; rewrite E; cbn [notna isna negb];
    f_equal; apply IH; intros x Hx; apply H; now right.
Qed.

(** X26.  When every row of a region carries [is_anomaly] 0 or 1, the
    region's [anomaly_frequency_risk] is the share of its rows that are
    flagged. *)
Theorem anomaly_frequency_risk_is_the_flagged_share
  (sqrt : Q -> Q) (df : frame) (g : list row) :
  has_is_anomaly df = true ->
  g <> [] ->
  (forall r, In r g -> is_anomaly r = Fin 0 \/ is_anomaly r = Fin 1) ->
  exists v,
    entry_of_group sqrt df g anomaly_frequency_risk = Some v /\
    v == inject_Z (Z.of_nat (length (filter flagged g)))
         / inject_Z (Z.of_nat (length g)).
Proof.
  intros Hcol Hne Hflags. rewrite frequency_of_group.
  unfold frequency_step. rewrite Hcol. unfold entry_set. cbn [component_eqb].
  eexists. split; [reflexivity|].
  unfold series_mean. rewrite (flags_present g Hflags).
  destruct (flags_sum g 0 Hflags) as [s [Hs Es]].
  destruct g as [|r0 g0] eqn:Eg; [congruence|]. rewrite <- Eg in *.
  assert (Hmap : map is_anomaly g = is_anomaly r0 :: map is_anomaly g0)
    by (rewrite Eg; reflexivity).
  rewrite Hmap. rewrite <- Hmap. rewrite Hs. rewrite length_map.
  set (n := inject_Z (Z.of_nat (length g))).
  set (k := inject_Z (Z.of_nat (length (filter flagged g)))) in *.
  assert (Hn : 0 < n).
  { unfold n. rewrite Eg. cbn [length]. change 0 with (inject_Z 0).
    rewrite <- Zlt_Qlt. lia. }
  assert (Hk : 0 <= k <= n).
  { unfold k, n. change 0 with (inject_Z 0). rewrite <- !Zle_Qle.
    pose proof (filter_length_le flagged g). lia. }
  assert (Em : s / n == k / n) by (rewrite Es; field; lra).
  assert (H01 : 0 <= s / n <= 1).
  { rewrite Em. split.
    - apply Qle_shift_div_l; lra.
    - apply Qle_shift_div_r; lra. }
  rewrite normalize_finite. cbn [normalization_ranges fst snd].
  rewrite <- Em.
  destruct (Q.max_spec (s / n) 0) as [[H1 E1]|[H1 E1]];
    destruct (Q.min_spec (Qmax (s / n) 0) 1) as [[H2 E2]|[H2 E2]];
    rewrite E2; try rewrite E1; try (field; lra); field_simplify; lra.
Qed.

Lemma anomaly_frequency_risk_is_the_flagged_share_witness :
  exists v,
    entry_of_group Qsqrt detector_output
      (filter (fun r => String.eqb (state r) "Goa") (rows detector_output))
      anomaly_frequency_risk = Some v
    /\ v == 1 / 2.
Proof.
  destruct (anomaly_frequency_risk_is_the_flagged_share Qsqrt detector_output
              (filter (fun r => String.eqb (state r) "Goa") (rows detector_output)))
    as [v [H1 H2]].
  - reflexivity.
  - vm_compute. discriminate.
  - intros r Hr. vm_compute in Hr.
    destruct Hr as [<-|[<-|[]]]; [right|left]; reflexivity.
  - exists v. split; [exact H1|]. rewrite H2. vm_compute. reflexivity.
Defined.

End RiskScorerShares.

(** ** Feature engineering: the update ratio of checked records *)

Section RatioBounds.
Import Numeric FeatureEngineer Aggregates.
Local Open Scope Q_scope.

(** The update ratio of a row, from the records of its group. *)
Lemma ratio_of_group sqrt df ec uc r :
  first_present enrolment_candidates df = Some ec ->
  first_present update_candidates df = Some uc ->
  In r (_create_aggregated_features sqrt df) ->
  exists g,
    (forall x, In x g -> In x (rows df)) /\
    let u := Qsum (map (fun x => num x uc) g) in
    let v := Qsum (map (fun x => num x ec) g) in
    update_ratio r = Some (Fin (u / (if Qeq_bool v 0 then 1 else v))).
Proof.
  intros He Hu Hr. apply aggregated_rows in Hr.
  destruct (derive_rows sqrt (agg_dict df) (groupby (rows df)) r Hr)
    as [Hsame [[Hnil Hin]|[p [others [pre [m [post [Hs [Hsplit Hrow]]]]]]]]].
  { exfalso. apply in_map_iff in Hin. destruct Hin as [kg [<- _]].
    destruct (canonical_sums sqrt df ec uc kg He Hu) as [H1 _].
    rewrite H1 in Hnil. discriminate. }
  assert (Hm : In m (map (aggregated_row sqrt (agg_dict df)) (groupby (rows df)))).
  { rewrite Hsplit. apply in_or_app. right. now left. }
  pose proof (Hsame m Hm) as Hsm. rewrite Hs in Hsm.
  apply in_map_iff in Hm. destruct Hm as [[k g] [Hkg Hg]].
  destruct (canonical_sums sqrt df ec uc (k, g) He Hu) as [H1 [H2 H3]].
  rewrite Hkg in H1, H2, H3. rewrite H1 in Hsm. inversion Hsm; subst p others.
  cbn [snd] in H2, H3.
  destruct (groupby_members _ _ _ Hg) as [_ Hrec].
  exists g. split; [intros x Hx; apply Hrec; exact Hx|].
  cbv zeta.
  assert (Hratio : update_ratio r
                   = Some (ratio (col (uc ++ "_sum") m) (col (ec ++ "_sum") m)))
    by (rewrite Hrow; reflexivity).
  rewrite Hratio, H2, H3. reflexivity.
Qed.

Lemma Qsum_le_scaled {A : Type} (f h : A -> Q) (k : Q) (l : list A) :
  (forall x, In x l -> f x <= h x * k) ->
  Qsum (map f l) <= Qsum (map h l) * k.
Proof.
  induction l as [|a l IH]; intro H; cbn [map].
  - rewrite Qsum_nil. lra.
  - rewrite !Qsum_cons.
    pose proof (H a (or_introl eq_refl)).
    assert (Qsum (map f l) <= Qsum (map h l) * k)
      by (apply IH; intros x Hx; apply H; now right).
    lra.
Qed.

(** X27.  On whole-number counts that pass the cleaner's range checks
    (none negative, updates at most five times the enrolments) and whose
    totals are at most 2^53, so that no sum is rounded, every
    [update_ratio] of the aggregated table is a number between 0 and 5. *)
Theorem update_ratio_of_checked_records_is_at_most_five
  (sqrt : Q -> Q) (df : frame) (ec uc : string) (r : monthly) :
  first_present enrolment_candidates df = Some ec ->
  first_present update_candidates df = Some uc ->
  exact_counts ec (rows df) ->
  exact_counts uc (rows df) ->
  (forall x, In x (rows df) -> num x uc <= num x ec * 5) ->
  In r (_create_aggregated_features sqrt df) ->
  exists q, update_ratio r = Some (Fin q) /\ 0 <= q <= 5.
Proof.
  intros He Hu [Hec _] [Huc _] Hfive Hr.
  assert (Hchecked : forall x, In x (rows df) ->
            0 <= num x ec /\ 0 <= num x uc /\ num x uc <= num x ec * 5).
  { intros x Hx. split; [apply Hec; exact Hx|].
    split; [apply Huc; exact Hx | apply Hfive; exact Hx]. }
  destruct (ratio_of_group sqrt df ec uc r He Hu Hr) as [g [Hg Hratio]].
  cbv zeta in Hratio.
  set (u := Qsum (map (fun x => num x uc) g)) in *.
  set (v := Qsum (map (fun x => num x ec) g)) in *.
  assert (Hu0 : 0 <= u).
  { apply Qsum_nonneg. intros q Hq. apply in_map_iff in Hq.
    destruct Hq as [x [<- Hx]]. apply Hchecked. auto. }
  assert (Hv0 : 0 <= v).
  { apply Qsum_nonneg. intros q Hq. apply in_map_iff in Hq.
    destruct Hq as [x [<- Hx]]. apply Hchecked. auto. }
  assert (Huv : u <= v * 5).
  { apply Qsum_le_scaled. intros x Hx. apply Hchecked. auto. }
  eexists. split; [exact Hratio|].
  destruct (Qeq_bool v 0) eqn:E.
  - apply Qeq_bool_iff in E. split.
    + apply Qle_shift_div_l; lra.
    + apply Qle_shift_div_r; lra.
  - assert (Hv : ~ v == 0) by (intro Hz; apply Qeq_bool_iff in Hz; congruence).
    split.
    + apply Qle_shift_div_l; lra.
    + apply Qle_shift_div_r; lra.
Qed.

Lemma update_ratio_of_checked_records_is_at_most_five_witness :
  let out := _create_aggregated_features Qsqrt scenario in
  exists q, update_ratio (nth 0 out no_row) = Some (Fin q) /\ 0 <= q <= 5.
Proof.
  intro out.
  apply (update_ratio_of_checked_records_is_at_most_five
           Qsqrt scenario "enrolment_count" "update_count").
  - reflexivity.
  - reflexivity.
  - split; [|vm_compute; discriminate].
    intros x Hx. cbn [scenario canonical_frame rows In] in Hx.
    destruct Hx as [<-|[<-|[<-|[<-|[<-|[<-|[]]]]]]];
      (split; [vm_compute; discriminate | vm_compute; reflexivity]).
  - split; [|vm_compute; discriminate].
    intros x Hx. cbn [scenario canonical_frame rows In] in Hx.
    destruct Hx as [<-|[<-|[<-|[<-|[<-|[<-|[]]]]]]];
      (split; [vm_compute; discriminate | vm_compute; reflexivity]).
  - intros x Hx. cbn [scenario canonical_frame rows In] in Hx.
    destruct Hx as [<-|[<-|[<-|[<-|[<-|[<-|[]]]]]]]; vm_compute; discriminate.
  - apply nth_In. vm_compute. lia.
Defined.

End RatioBounds.

(** ** Data cleaner: imputed numeric columns *)

Section NumericImputation.
Import Table Cleaner CleanerPostconditions.
Local Open Scope string_scope.










End NumericImputation.
